(** * Token image service: provider-chain resolution and sync orchestration

  A shallow embedding of the TypeScript sources of the token image
  service (fetch-image-service, sync-service, image-storage-service and
  the image providers) together with the properties proved about them.

  JavaScript values are modelled as follows: [number] timestamps and
  chain ids are [Z]; strings are [string]; a [Uint8Array] is a list of
  bytes; an optional field is an [option]; a promise that rejects or a
  call that throws is an [Outcome]; a [Map] is a [gmap]. *)

From Stdlib Require Import ZArith Lia Ascii String.
From Stdlib.Strings Require Import Byte.
From stdpp Require Import gmap strings list fin_maps pretty sorting.

Open Scope string_scope.
Open Scope Z_scope.
Open Scope list_scope.

(* ===================================================================== *)
(** * Part I: the model *)
(* ===================================================================== *)

(** ** JavaScript prelude *)

(** The result of a call that may throw (or of a promise that may
  reject). *)
Inductive Outcome (A : Type) : Type :=
| Returns (a : A)
| Throws (message : string).
Arguments Returns {A} a.
Arguments Throws {A} message.

Module Js.

(** [String.prototype.toLowerCase] on ASCII strings (addresses are hex
    strings validated at the HTTP boundary). *)
Definition lowerAscii (c : ascii) : ascii :=
  let n := nat_of_ascii c in
  if ((65 <=? n)%nat && (n <=? 90)%nat)%bool then ascii_of_nat (n + 32) else c.

Fixpoint toLowerCase (s : string) : string :=
  match s with
  | EmptyString => EmptyString
  | String c s' => String (lowerAscii c) (toLowerCase s')
  end.

(** [s.startsWith(p)] *)
Definition startsWith (p s : string) : bool := String.prefix p s.

(** [s.split(".").pop()]: the text after the last dot, the whole string
    when it has no dot. *)
Fixpoint afterLastDot (s : string) : string :=
  match s with
  | EmptyString => EmptyString
  | String c s' =>
      if existsb (Ascii.eqb ".") (list_ascii_of_string s')
      then afterLastDot s'
      else if Ascii.eqb c "." then s' else String c s'
  end.

(** Truthiness of a string value: every string but the empty one. *)
Definition truthy (s : string) : bool := negb (String.eqb s "").

(** Truthiness of an optional string field ([undefined] is falsy). *)
Definition truthyOpt (o : option string) : bool :=
  match o with Some s => truthy s | None => false end.

(** [a || b] on optional strings. *)
Definition orElse (a b : option string) : option string :=
  if truthyOpt a then a else b.

(** [a || b] where [b] is a string literal. *)
Definition orDefault (a : option string) (b : string) : string :=
  match a with Some s => if truthy s then s else b | None => b end.

(** [a || b] on an optional number and a number ([0] is falsy). *)
Definition orNumber (a : option Z) (b : Z) : Z :=
  match a with Some n => if n =? 0 then b else n | None => b end.

(** [arr.find(pred)] *)
Definition find {A} (pred : A → bool) (l : list A) : option A :=
  List.find pred l.

End Js.

(** ** providers/interface.ts *)

Record ImageResult := {
  url : option string;            (* for remote images *)
  buffer : option (list byte);    (* for local images *)
  provider : string;
  extension : string;
  path : option string;           (* for local images: the file path *)
}.

(** An [ImageProvider]: its [name], [isAvailable()] and what one call of
  [fetchImage(chainId, address)] settles to. *)
Module Provider.
Record ImageProvider := {
  name : string;
  isAvailable : bool;
  fetchImage : Z → string → Outcome (option ImageResult);
}.
End Provider.
Abbreviation ImageProvider := Provider.ImageProvider.
Abbreviation name := Provider.name.
Abbreviation isAvailable := Provider.isAvailable.

(** ** services/fetch-image-service.ts: ImageProviderManager *)

Module Manager.

(** What the async arrow of [this.providers.map(...)] resolves to. *)
Record Settled := { result : option ImageResult; settledBy : string }.

(** The body of the async arrow: availability check, the provider call
    and the [catch] that turns a throw into [result: null]. *)
Definition settle (chainId : Z) (address : string) (p : ImageProvider) : Settled :=
  if negb (isAvailable p) then {| result := None; settledBy := name p |}
  else match Provider.fetchImage p chainId address with
       | Returns r => {| result := r; settledBy := name p |}
       | Throws _ => {| result := None; settledBy := name p |}
       end.

(** [Promise.all]: every promise writes its value into the slot of its
    own index at the moment it settles; the combined promise resolves
    once no slot is empty.  [settlements] lists (index, value) in the
    order in which the promises settle. *)
Definition fillSlot {A} (slots : list (option A)) (s : nat * A) : list (option A) :=
  <[s.1 := Some s.2]> slots.

Definition promiseAll {A} (n : nat) (settlements : list (nat * A)) : option (list A) :=
  mapM id (foldl fillSlot (replicate n None) settlements).

(** The order in which the promises settle: by response time
    [latency i] of the i-th promise. *)
Definition settlesBefore {A} (latency : nat → nat) (x y : nat * A) : Prop :=
  (latency x.1 ≤ latency y.1)%nat.

#[global] Instance settlesBefore_dec {A} latency : RelDecision (@settlesBefore A latency).
Proof. intros x y. unfold settlesBefore. apply _. Defined.

Definition settleOrder {A} (latency : nat → nat) (l : list (nat * A)) : list (nat * A) :=
  merge_sort (settlesBefore latency) l.

(** The [for (const { result } of results)] loop. *)
Fixpoint firstResult (results : list Settled) : option ImageResult :=
  match results with
  | [] => None
  | r :: rest => match result r with
                 | Some img => Some img
                 | None => firstResult rest
                 end
  end.

(** [await Promise.all(providerPromises)] followed by the loop over the
    results.  [None] stands for a promise that never resolves, [Some r]
    for one that resolves with [r]. *)
Definition joinSettled (latency : nat → nat) (providerPromises : list Settled)
    : option (option ImageResult) :=
  results ← promiseAll (length providerPromises)
              (settleOrder latency (imap (λ i s, (i, s)) providerPromises));
  Some (firstResult results).

(** [fetchImage(chainId, address)] *)
Definition fetchImage (latency : nat → nat) (providers : list ImageProvider)
    (chainId : Z) (address : string) : option (option ImageResult) :=
  joinSettled latency (settle chainId address <$> providers).

(** [getProvider(name)] and [getLocalProvider()] *)
Definition getProvider (providers : list ImageProvider) (n : string) : option ImageProvider :=
  Js.find (λ p, String.eqb (name p) n) providers.

Definition getLocalProvider (providers : list ImageProvider) : option ImageProvider :=
  getProvider providers "local".

(** A provider that took part in the fan-out and produced [r]. *)
Definition produced (chainId : Z) (address : string) (p : ImageProvider)
    (r : ImageResult) : Prop :=
  isAvailable p = true ∧ Provider.fetchImage p chainId address = Returns (Some r).

(** A provider whose promise settled to "absent": it is unavailable, it
    threw, or it returned [null]. *)
Definition absent (chainId : Z) (address : string) (p : ImageProvider) : Prop :=
  isAvailable p = false ∨
  (∃ msg, Provider.fetchImage p chainId address = Throws msg) ∨
  Provider.fetchImage p chainId address = Returns None.

(** The provider [p] with its [fetchImage] replaced by one that returns
    [null]. *)
Definition returningAbsent (p : ImageProvider) : ImageProvider :=
  {| Provider.name := name p;
     Provider.isAvailable := isAvailable p;
     Provider.fetchImage := λ _ _, Returns None |}.

End Manager.

(** ** services/image-storage-service.ts: the S3 functions *)

Module Storage.

(** An object of the bucket as [GetObjectCommand] returns it. *)
Record S3Object := {
  Body : option (list byte);
  ContentType : option string;
  Metadata : gmap string string;
}.

(** The bucket "euler-token-images" behind [s3Client].  [s3Client] is
    [false] when the credentials are missing ([s3Client === null]);
    [reachable] tells whether a command sent now succeeds at the
    transport level ([send] throws otherwise). *)
Record S3 := {
  s3Client : bool;
  reachable : bool;
  bucket : gmap string S3Object;
}.

Record UploadMetadata := {
  metaProvider : string;
  downloadDate : string;
  originalUrl : option string;
}.

Record StoredImage := {
  storedBuffer : list byte;
  contentType : string;
  storedExtension : option string;
}.

Definition mimeTypes : list (string * string) :=
  [ ("png", "image/png"); ("jpg", "image/jpeg"); ("jpeg", "image/jpeg");
    ("webp", "image/webp"); ("svg", "image/svg+xml"); ("gif", "image/gif");
    ("bmp", "image/bmp"); ("ico", "image/x-icon"); ("tiff", "image/tiff");
    ("tif", "image/tiff") ].

Fixpoint lookupRecord (table : list (string * string)) (k : string) : option string :=
  match table with
  | [] => None
  | (k', v) :: rest => if String.eqb k' k then Some v else lookupRecord rest k
  end.

Definition getMimeType (extension : string) : string :=
  let cleanExtension :=
    match extension with
    | String "." rest => rest
    | _ => extension
    end in
  Js.orDefault (lookupRecord mimeTypes (Js.toLowerCase cleanExtension))
    "application/octet-stream".

(** The object key [`${chainId}/${address.toLowerCase()}/image`]. *)
Definition key (chainId : Z) (address : string) : string :=
  pretty chainId +:+ "/" +:+ Js.toLowerCase address +:+ "/image".

(** [s3Client.send(command)] for a Get or Head command: the object, or a
    throw when the transport fails or the key does not exist. *)
Definition sendGet (s : S3) (k : string) : Outcome S3Object :=
  if reachable s then
    match bucket s !! k with
    | Some o => Returns o
    | None => Throws "NoSuchKey"
    end
  else Throws "NetworkingError".

Definition getImageFromS3 (s : S3) (chainId : Z) (address : string) : option StoredImage :=
  if negb (s3Client s) then None
  else
    let k := key chainId address in
    match sendGet s k with
    | Throws _ => None
    | Returns response =>
        match Body response with
        | None => None
        | Some body =>
            let contentType0 := Js.orDefault (ContentType response) "application/octet-stream" in
            match Metadata response !! "extension" with
            | Some ext =>
                if Js.truthy ext
                then Some {| storedBuffer := body; contentType := getMimeType ext;
                             storedExtension := Some ext |}
                else Some {| storedBuffer := body; contentType := contentType0;
                             storedExtension := None |}
            | None => Some {| storedBuffer := body; contentType := contentType0;
                              storedExtension := None |}
            end
        end
    end.

Definition checkImageExistsInS3 (s : S3) (chainId : Z) (address : string) : bool :=
  if negb (s3Client s) then false
  else
    let k := key chainId address in
    match sendGet s k with
    | Returns _ => true
    | Throws _ => false
    end.

Definition putMetadata (extension : string) (metadata : UploadMetadata) : gmap string string :=
  let base : gmap string string :=
    <["downloadDate" := downloadDate metadata]>
      (<["provider" := metaProvider metadata]>
         (<["extension" := extension]> ∅)) in
  match originalUrl metadata with
  | Some u => if Js.truthy u then <["originalUrl" := u]> base else base
  | None => base
  end.

Definition uploadImageToS3 (s : S3) (chainId : Z) (address : string)
    (imageBuffer : list byte) (extension : string) (metadata : UploadMetadata)
    : bool * S3 :=
  if negb (s3Client s) then (false, s)
  else
    let k := key chainId address in
    let contentType := getMimeType extension in
    let putCommand :=
      {| Body := Some imageBuffer; ContentType := Some contentType;
         Metadata := putMetadata extension metadata |} in
    if reachable s
    then (true, {| s3Client := s3Client s; reachable := reachable s;
                   bucket := <[k := putCommand]> (bucket s) |})
    else (false, s).

(** An entry of the token list handed to the bulk check and an entry of
    its answer. *)
Record Token := { tokenChainId : Z; tokenAddress : string }.
Record ExistenceCheck := { checkChainId : Z; checkAddress : string; exists_ : bool }.

(** [bulkCheckImagesInStorage(tokens)] over a storage [W] whose single
    check is [check]: one entry per token, in the order of [tokens]; a
    rejected check counts as "does not exist". *)
Fixpoint bulkCheckImagesInStorage {W : Type}
    (check : Z → string → W → Outcome bool * W)
    (tokens : list Token) (w : W) : list ExistenceCheck * W :=
  match tokens with
  | [] => ([], w)
  | token :: rest =>
      let '(settled, w1) := check (tokenChainId token) (tokenAddress token) w in
      let '(checks, w2) := bulkCheckImagesInStorage check rest w1 in
      ({| checkChainId := tokenChainId token;
          checkAddress := tokenAddress token;
          exists_ := match settled with Returns e => e | Throws _ => false end |}
         :: checks, w2)
  end.

(** [checkImageExistsInStorage] when [STORAGE_MODE === "s3"]. *)
Definition checkImageExistsInStorageS3 (chainId : Z) (address : string) (s : S3)
    : Outcome bool * S3 :=
  (Returns (checkImageExistsInS3 s chainId address), s).

End Storage.

(** ** node:fs and node:path as the local provider uses them *)

Module Fs.

(** A file system: the entries of every directory and the content of
    every file, by path. *)
Record t := {
  dirs : gmap string (list string);
  files : gmap string (list byte);
}.

(** [join(a, b, ...)] on already normalised segments. *)
Definition join (segments : list string) : string := String.concat "/" segments.

Definition existsSync (fs : t) (p : string) : bool :=
  match dirs fs !! p, files fs !! p with
  | None, None => false
  | _, _ => true
  end.

Definition readdir (fs : t) (p : string) : Outcome (list string) :=
  match dirs fs !! p with
  | Some entries => Returns entries
  | None => Throws "ENOENT"
  end.

Definition readFile (fs : t) (p : string) : Outcome (list byte) :=
  match files fs !! p with
  | Some content => Returns content
  | None => Throws "ENOENT"
  end.

End Fs.

(** ** providers/local-images-provider.ts *)

Module LocalImagesProvider.

Definition providerName : string := "local".

Definition fetchImage (fs : Fs.t) (baseImagePath : string)
    (chainId : Z) (address : string) : option ImageResult :=
  let tokenDir := Fs.join [baseImagePath; pretty chainId; Js.toLowerCase address] in
  if negb (Fs.existsSync fs tokenDir) then None
  else
    match Fs.readdir fs tokenDir with
    | Throws _ => None
    | Returns files =>
        match Js.find (Js.startsWith "image.") files with
        | None => None
        | Some imageFile =>
            let extension := Js.afterLastDot imageFile in
            if negb (Js.truthy extension) then None
            else
              let imagePath := Fs.join [tokenDir; imageFile] in
              match Fs.readFile fs imagePath with
              | Throws _ => None
              | Returns content =>
                  Some {| buffer := Some content;
                          provider := providerName;
                          extension := extension;
                          path := Some imagePath;
                          url := None |}
              end
        end
    end.

(** Modelled from the spec: [isAvailable()] of the Local provider, which
    the class under src/ does not declare ("always available"). *)
Definition isAvailable : bool := true.

Definition make (fs : Fs.t) (baseImagePath : string) : ImageProvider :=
  {| Provider.name := providerName;
     Provider.isAvailable := isAvailable;
     Provider.fetchImage := λ chainId address,
       Returns (fetchImage fs baseImagePath chainId address) |}.

(** [bulkCheckLocalImages(tokens)]: one [fetchImage] per token; a
    rejected promise counts as "no local image". *)
Record LocalCheck := { localChainId : Z; localAddress : string; hasLocal : bool }.

Definition bulkCheckLocalImages (this : ImageProvider)
    (tokens : list Storage.Token) : list LocalCheck :=
  (λ token,
     {| localChainId := Storage.tokenChainId token;
        localAddress := Storage.tokenAddress token;
        hasLocal :=
          match Provider.fetchImage this (Storage.tokenChainId token)
                  (Storage.tokenAddress token) with
          | Returns localImage => bool_decide (localImage ≠ None)
          | Throws _ => false
          end |}) <$> tokens.

End LocalImagesProvider.

(** ** The providers that answer with a remote URL *)

Module RemoteProvider.

(** [getExtensionFromUrl(url)]: the providers differ in the extensions
    of the [switch] and in the fallback.  [urlPathname] stands for
    [new URL(url).pathname], which throws on a malformed URL. *)
Definition getExtensionFromUrl (known : list string) (fallback : string)
    (urlPathname : string → Outcome string) (u : string) : string :=
  match urlPathname u with
  | Throws _ => fallback
  | Returns pathname =>
      let extension := Js.toLowerCase (Js.afterLastDot pathname) in
      if existsb (String.eqb extension) known then extension else fallback
  end.

(** The tail shared by the alchemy, sim-dune, 1inch, pendle and
    token-lists providers: [logo] is the logo URL the upstream lookup
    found, if any; everything before it (keys, chain tables, HTTP, JSON)
    is behind [logo]. *)
Definition resultFor (who : string) (known : list string) (fallback : string)
    (urlPathname : string → Outcome string) (logo : Outcome (option string))
    : option ImageResult :=
  match logo with
  | Throws _ => None
  | Returns None => None
  | Returns (Some u) =>
      if negb (Js.truthy u) then None
      else Some {| url := Some u; provider := who;
                   extension := getExtensionFromUrl known fallback urlPathname u;
                   buffer := None; path := None |}
  end.

Definition withGif : list string := ["png"; "jpg"; "jpeg"; "webp"; "svg"; "gif"].

Definition alchemy := resultFor "alchemy" withGif "png".
Definition simDune := resultFor "sim-dune" withGif "png".
Definition oneInch := resultFor "1inch" withGif "png".
Definition pendle := resultFor "pendle" withGif "svg".
Definition tokenLists := resultFor "token-lists" withGif "png".

End RemoteProvider.

(** ** providers/coingecko-provider.ts *)

Module CoinGeckoProvider.

Definition providerName : string := "coingecko".
Definition baseUrl : string := "https://pro-api.coingecko.com/api/v3/coins".

Definition chainIdToCoingeckoId (chainId : Z) : option string :=
  if chainId =? 1 then Some "ethereum"
  else if chainId =? 56 then Some "binance-smart-chain"
  else if chainId =? 146 then Some "sonic"
  else if chainId =? 8453 then Some "base"
  else if chainId =? 42161 then Some "arbitrum-one"
  else if chainId =? 43114 then Some "avalanche"
  else if chainId =? 1923 then Some "sonic"
  else if chainId =? 60808 then Some "bob"
  else if chainId =? 80094 then Some "berachain"
  else if chainId =? 130 then Some "unichain"
  else None.

(** The response of [fetch(url, ...)]: [ok] and what [response.json()]
    gives at [data.image?.large]. *)
Record Response := { ok : bool; imageLarge : Outcome (option string) }.

Record Env := {
  apiKey : string;
  fetch : string → Outcome Response;
  urlPathname : string → Outcome string;
}.

Definition getExtensionFromUrl (env : Env) (u : string) : string :=
  RemoteProvider.getExtensionFromUrl ["png"; "jpg"; "jpeg"; "webp"; "svg"] "png"
    (urlPathname env) u.

Definition fetchImage (env : Env) (chainId : Z) (address : string) : option ImageResult :=
  if negb (Js.truthy (apiKey env)) then None
  else
    match chainIdToCoingeckoId chainId with
    | None => None
    | Some coingeckoChainId =>
        let u := baseUrl +:+ "/" +:+ coingeckoChainId +:+ "/contract/"
                   +:+ Js.toLowerCase address in
        match fetch env u with
        | Throws _ => None
        | Returns response =>
            if negb (ok response) then None
            else
              match imageLarge response with
              | Throws _ => None
              | Returns None => None
              | Returns (Some imageUrl) =>
                  if negb (Js.truthy imageUrl) then None
                  else Some {| url := Some imageUrl;
                               provider := providerName;
                               extension := getExtensionFromUrl env imageUrl;
                               buffer := None; path := None |}
              end
        end
    end.

Definition isAvailable (env : Env) : bool := Js.truthy (apiKey env).

Definition make (env : Env) : ImageProvider :=
  {| Provider.name := providerName;
     Provider.isAvailable := isAvailable env;
     Provider.fetchImage := λ chainId address, Returns (fetchImage env chainId address) |}.

End CoinGeckoProvider.

(** ** providers/pendle-pt-underlying-provider.ts and its wiring in the
    ImageProviderManager constructor *)

Module PendlePT.

Definition providerName : string := "pendle-pt-underlying".

(** A tokenlist entry: [addressInfo] and [meta?.isPendlePT]. *)
Record TokenListEntry := { addressInfo : string; metaIsPendlePT : option bool }.

(** What the provider reads from outside: the tokenlist files, the RPC
    configuration, the two contract reads and the bucket. *)
Record Env := {
  loadTokenList : Z → option (list TokenListEntry);
  getRpcUrl : Z → option string;
  readSY : Z → string → Outcome (option string);
  readAssetInfo : Z → string → Outcome (option string);
  s3 : Storage.S3;
}.

Definition chainConfigs : list Z := [1; 42161; 8453; 43114; 56; 130].

Definition debugOverride : string := "0xB6168F597Cd37A232cb7CB94CD1786Be20eAD156".

Definition isPendlePT (env : Env) (chainId : Z) (address : string) : bool :=
  if String.eqb (Js.toLowerCase address) (Js.toLowerCase debugOverride) then true
  else
    match loadTokenList env chainId with
    | None => false
    | Some tokenlist =>
        match Js.find (λ t, String.eqb (Js.toLowerCase (addressInfo t))
                              (Js.toLowerCase address)) tokenlist with
        | Some token =>
            match metaIsPendlePT token with Some true => true | _ => false end
        | None => false
        end
    end.

Definition getUnderlyingAssetAddress (env : Env) (chainId : Z) (ptAddress : string)
    : option string :=
  if negb (existsb (Z.eqb chainId) chainConfigs) then None
  else if negb (Js.truthyOpt (getRpcUrl env chainId)) then None
  else
    match readSY env chainId ptAddress with
    | Throws _ => None
    | Returns syAddress =>
        match syAddress with
        | None => None
        | Some sy =>
            if negb (Js.truthy sy) then None
            else
              match readAssetInfo env chainId sy with
              | Throws _ => None
              | Returns assetAddress =>
                  if Js.truthyOpt assetAddress then assetAddress else None
              end
        end
    end.

(** [{ ...result, provider: this.name }] *)
Definition retag (r : ImageResult) : ImageResult :=
  {| url := url r; buffer := buffer r; provider := providerName;
     extension := extension r; path := path r |}.

(** [fetchImage(chainId, address)].  [fetchUnderlyingImage] is the
    callback field ([None] while it is [null]); the callback answers
    [None] when its promise never resolves, and so does [fetchImage]
    then. *)
Definition fetchImage (env : Env)
    (fetchUnderlyingImage : option (Z → string → option (option ImageResult)))
    (chainId : Z) (address : string) : option (option ImageResult) :=
  match fetchUnderlyingImage with
  | None => Some None                                  (* !this.isAvailable() *)
  | Some callback =>
      if negb (isPendlePT env chainId address) then Some None
      else
        match getUnderlyingAssetAddress env chainId address with
        | None => Some None
        | Some underlyingAddress =>
            match Storage.getImageFromS3 (s3 env) chainId underlyingAddress with
            | Some existingImage =>
                Some (Some {| buffer := Some (Storage.storedBuffer existingImage);
                              provider := providerName;
                              extension :=
                                Js.orDefault (Storage.storedExtension existingImage) "png";
                              url := None; path := None |})
            | None =>
                match callback chainId underlyingAddress with
                | None => None
                | Some (Some result) => Some (Some (retag result))
                | Some None => Some None
                end
            end
        end
  end.

(** An element of [this.providers]: one of the direct providers, or the
    PendlePTUnderlyingProvider, whose callback reads [this.providers]
    again when it is called. *)
Inductive Registered :=
| Direct (p : ImageProvider)
| Underlying (env : Env) (callbackSet : bool).

Definition registeredName (r : Registered) : string :=
  match r with
  | Direct p => name p
  | Underlying _ _ => providerName
  end.

Definition registeredAvailable (r : Registered) : bool :=
  match r with
  | Direct p => isAvailable p
  | Underlying _ callbackSet => callbackSet
  end.

(** The async arrow of the fan-out, for a provider called through
    [call]. *)
Definition settleWith
    (call : Registered → Z → string → option (Outcome (option ImageResult)))
    (chainId : Z) (address : string) (r : Registered) : option Manager.Settled :=
  if negb (registeredAvailable r)
  then Some {| Manager.result := None; Manager.settledBy := registeredName r |}
  else
    match call r chainId address with
    | None => None
    | Some (Returns res) =>
        Some {| Manager.result := res; Manager.settledBy := registeredName r |}
    | Some (Throws _) =>
        Some {| Manager.result := None; Manager.settledBy := registeredName r |}
    end.

(** The fan-out of [fetchImage] and of [fetchImageForUnderlying] over
    the providers [ps]. *)
Definition fanOut (latency : nat → nat)
    (call : Registered → Z → string → option (Outcome (option ImageResult)))
    (ps : list Registered) (chainId : Z) (address : string)
    : option (option ImageResult) :=
  providerPromises ← mapM (settleWith call chainId address) ps;
  Manager.joinSettled latency providerPromises.

(** [this.providers.filter(p => p.name !== "pendle-pt-underlying")] *)
Definition providersForUnderlying (providers : list Registered) : list Registered :=
  List.filter (λ p, negb (String.eqb (registeredName p) "pendle-pt-underlying")) providers.

(** One call of [provider.fetchImage] on an element of [this.providers].
    [fuel] bounds the nesting of calls; [None] means the bound was hit. *)
Fixpoint invoke (fuel : nat) (latency : nat → nat) (providers : list Registered)
    (r : Registered) (chainId : Z) (address : string) {struct fuel}
    : option (Outcome (option ImageResult)) :=
  match fuel with
  | O => None
  | S fuel' =>
      match r with
      | Direct p => Some (Provider.fetchImage p chainId address)
      | Underlying env callbackSet =>
          let fetchImageForUnderlying := λ c a,
            fanOut latency (invoke fuel' latency providers)
              (providersForUnderlying providers) c a in
          Returns <$>
            fetchImage env
              (if callbackSet then Some fetchImageForUnderlying else None)
              chainId address
      end
  end.

(** [ImageProviderManager.fetchImageForUnderlying] *)
Definition fetchImageForUnderlying (fuel : nat) (latency : nat → nat)
    (providers : list Registered) (chainId : Z) (address : string)
    : option (option ImageResult) :=
  fanOut latency (invoke fuel latency providers)
    (providersForUnderlying providers) chainId address.

(** [ImageProviderManager.fetchImage] on a manager whose providers
    include the PendlePTUnderlyingProvider. *)
Definition managerFetchImage (fuel : nat) (latency : nat → nat)
    (providers : list Registered) (chainId : Z) (address : string)
    : option (option ImageResult) :=
  fanOut latency (invoke fuel latency providers) providers chainId address.

(** The direct providers among [ps], in their order. *)
Definition directsOf (ps : list Registered) : list ImageProvider :=
  omap (λ r, match r with Direct p => Some p | Underlying _ _ => None end) ps.

(** The constructor: the direct providers in their order, then the
    PendlePTUnderlyingProvider with its callback set. *)
Definition constructor (directs : list ImageProvider) (env : Env) : list Registered :=
  ((Direct <$> directs) ++ [Underlying env true])%list.

End PendlePT.

(** ** services/sync-service.ts: types *)

Module Sync.

(** A token of the registry answer.  [address] is [None] when the JSON
    entry carries no string there. *)
Record TokenInfo := {
  address : option string;
  symbol : string;
  tokenName : string;
  decimals : Z;
}.

Inductive DetailStatus := st_exists | st_migrated | st_downloaded | st_failed.

Record Detail := {
  detailAddress : string;
  detailStatus : DetailStatus;
  detailProvider : option string;
}.

Record SyncResult := {
  resultChainId : Z;
  totalTokens : Z;
  existingImages : Z;
  migratedFromLocal : Z;
  downloadedImages : Z;
  failedDownloads : Z;
  duration : Z;
  details : list Detail;
}.

Inductive State := running | completed | failed.

#[global] Instance DetailStatus_eq_dec : EqDecision DetailStatus.
Proof. solve_decision. Defined.

#[global] Instance State_eq_dec : EqDecision State.
Proof. solve_decision. Defined.

(** How many entries of a detail list carry the outcome [tag]. *)
Definition countStatus (tag : DetailStatus) (l : list Detail) : Z :=
  Z.of_nat (length (List.filter (λ d, bool_decide (detailStatus d = tag)) l)).

Record Progress := { phase : string; current : Z; total : Z }.

Record SyncStatus := {
  chainId : Z;
  status : State;
  startTime : Z;
  endTime : option Z;
  progress : option Progress;
  result : option SyncResult;
  error : option string;
  remainingTime : option Z;
}.

Record RateLimitError := {
  rateLimitedChainId : Z;
  rateLimitRemainingTime : Z;
  message : string;
}.

(** [Partial<SyncStatus>] as the pipeline passes it to
    [updateSyncStatus]. *)
Record Updates := {
  setStatus : option State;
  setEndTime : option Z;
  setProgress : option Progress;
  setResult : option SyncResult;
  setError : option string;
}.

Definition noUpdates : Updates :=
  {| setStatus := None; setEndTime := None; setProgress := None;
     setResult := None; setError := None |}.

(** [{ ...current, ...updates }] *)
Definition merge (current : SyncStatus) (updates : Updates) : SyncStatus :=
  {| chainId := chainId current;
     status := default (status current) (setStatus updates);
     startTime := startTime current;
     endTime := if setEndTime updates is Some e then Some e else endTime current;
     progress := if setProgress updates is Some p then Some p else progress current;
     result := if setResult updates is Some r then Some r else result current;
     error := if setError updates is Some e then Some e else error current;
     remainingTime := remainingTime current |}.

Definition updateSyncStatus (syncStatuses : gmap Z SyncStatus)
    (chain : Z) (updates : Updates) : gmap Z SyncStatus :=
  match syncStatuses !! chain with
  | Some current => <[chain := merge current updates]> syncStatuses
  | None => syncStatuses
  end.

Definition RATE_LIMIT_MINUTES : Z := 1.
Definition rateLimitMs : Z := RATE_LIMIT_MINUTES * 60 * 1000.

(** [Math.ceil(x / d)] for a positive [d]. *)
Definition ceilDiv (x d : Z) : Z := - ((- x) / d).

Definition stateString (st : State) : string :=
  match st with
  | running => "running"
  | completed => "completed"
  | failed => "failed"
  end.

(** [checkRateLimit(chainId)] with [now = Date.now()]. *)
Definition checkRateLimit (syncStatuses : gmap Z SyncStatus) (now : Z) (chain : Z)
    : option RateLimitError :=
  let currentStatus := syncStatuses !! chain in
  let whileRunning :=
    match currentStatus with
    | Some st =>
        match status st with
        | running =>
            let timeDiff := now - startTime st in
            if timeDiff <? rateLimitMs then
              let remaining := rateLimitMs - timeDiff in
              Some {| rateLimitedChainId := chain;
                      rateLimitRemainingTime := remaining;
                      message := "Sync is currently running. Started "
                                 +:+ pretty (timeDiff / (60 * 1000))
                                 +:+ " minute(s) ago." |}
            else None
        | _ => None
        end
    | None => None
    end in
  match whileRunning with
  | Some e => Some e
  | None =>
      match currentStatus with
      | Some st =>
          match status st with
          | completed | failed =>
              let relevantTime := Js.orNumber (endTime st) (startTime st) in
              let timeDiff := now - relevantTime in
              if timeDiff <? rateLimitMs then
                let remaining := rateLimitMs - timeDiff in
                let remainingMinutes := ceilDiv remaining (60 * 1000) in
                Some {| rateLimitedChainId := chain;
                        rateLimitRemainingTime := remaining;
                        message := "Rate limit exceeded. Last sync "
                                   +:+ stateString (status st) +:+ " "
                                   +:+ pretty (timeDiff / (60 * 1000))
                                   +:+ " minute(s) ago. Please wait "
                                   +:+ pretty remainingMinutes
                                   +:+ " more minute(s)." |}
              else None
          | running => None
          end
      | None => None
      end
  end.

(** [calculateRemainingTime(chainId)] with [now = Date.now()]. *)
Definition calculateRemainingTime (syncStatuses : gmap Z SyncStatus) (now : Z)
    (chain : Z) : Z :=
  match syncStatuses !! chain with
  | None => 0
  | Some currentStatus =>
      match status currentStatus with
      | running =>
          let timeDiff := now - startTime currentStatus in
          Z.max 0 (rateLimitMs - timeDiff)
      | completed | failed =>
          let relevantTime :=
            Js.orNumber (endTime currentStatus) (startTime currentStatus) in
          let timeDiff := now - relevantTime in
          Z.max 0 (rateLimitMs - timeDiff)
      end
  end.

(** ** What the sync pipeline asks of its collaborators *)

Inductive TokensJson :=
| JsonNull
| JsonArray (tokens : list TokenInfo).

(** The answer to [fetch(`${eulerApiUrl}/v1/tokens?chainId=${chainId}`)]:
    a rejected promise, or a response with [ok] and what
    [response.json()] gives. *)
Inductive RegistryResponse :=
| RegistryUnreachable
| RegistryResponded (ok : bool) (json : Outcome TokensJson).

(** The answer to [fetch(url)] for an image. *)
Inductive ImageResponse :=
| ImageUnreachable
| ImageResponded (ok : bool) (arrayBuffer : Outcome (list byte)).

(** The collaborators, over an environment [World] that every call may
    change: the clock, the token registry, the storage service, the
    image providers as they would answer right now, the image hosts and
    the timers. *)
Record Env := {
  World : Type;
  dateNow : World → Z * World;
  toISOString : Z → string;
  STORAGE_MODE : string;
  fetchTokens : Z → World → RegistryResponse * World;
  checkImageExistsInStorage : Z → string → World → Outcome bool * World;
  uploadImageToStorage :
    Z → string → list byte → string → Storage.UploadMetadata → World
    → Outcome bool * World;
  imageProviders : World → list ImageProvider;
  latency : World → nat → nat;
  fetchImageUrl : string → World → ImageResponse * World;
  delay : Z → World → World;
}.

End Sync.

(** ** services/sync-service.ts: the pipeline of [performSync] *)

Module Pipeline.
Import Sync.

Record MigrationResults := {
  migrated : Z;
  migrationFailed : Z;
  migrationDetails : list Detail;
}.

Record DownloadResults := {
  downloaded : Z;
  downloadFailed : Z;
  downloadDetails : list Detail;
}.

(** [performSync] between two of its [await]s: what it is waiting for
    and the locals it holds. *)
Inductive Awaiting :=
| AwaitTokens (startTime : Z)
| AwaitStorageCheck (startTime : Z) (tokens : list TokenInfo)
    (tokenList : list Storage.Token)
| AwaitLocalCheck (startTime : Z) (tokens : list TokenInfo)
    (existenceChecks missingFromStorage : list Storage.ExistenceCheck)
    (existingInStorageCount : Z)
| AwaitMigration (startTime : Z) (tokens : list TokenInfo)
    (existenceChecks : list Storage.ExistenceCheck) (existingInStorageCount : Z)
    (hasLocalImages stillMissingTokens : list LocalImagesProvider.LocalCheck)
| AwaitDownload (startTime : Z) (tokens : list TokenInfo)
    (existenceChecks : list Storage.ExistenceCheck) (existingInStorageCount : Z)
    (migrationResults : MigrationResults)
    (stillMissingTokens : list LocalImagesProvider.LocalCheck).

Definition typeErrorLength : string := "null is not an object (evaluating 'tokens.length')".
Definition typeErrorAddress : string :=
  "undefined is not an object (evaluating 'token.address.toLowerCase')".

(** [tokens.map(token => ({ chainId, address: token.address.toLowerCase() }))] *)
Fixpoint lowercaseTokens (chain : Z) (tokens : list TokenInfo)
    : Outcome (list Storage.Token) :=
  match tokens with
  | [] => Returns []
  | token :: rest =>
      match address token with
      | None => Throws typeErrorAddress
      | Some a =>
          match lowercaseTokens chain rest with
          | Returns l =>
              Returns ({| Storage.tokenChainId := chain;
                          Storage.tokenAddress := Js.toLowerCase a |} :: l)
          | Throws m => Throws m
          end
      end
  end.

Definition asToken (c : Storage.ExistenceCheck) : Storage.Token :=
  {| Storage.tokenChainId := Storage.checkChainId c;
     Storage.tokenAddress := Storage.checkAddress c |}.

Definition progressUpdate (phase : string) (current total : Z) : Updates :=
  {| setStatus := None; setEndTime := None;
     setProgress := Some {| phase := phase; current := current; total := total |};
     setResult := None; setError := None |}.

Definition failedUpdate (now : Z) (msg : string) : Updates :=
  {| setStatus := Some failed; setEndTime := Some now; setProgress := None;
     setResult := None; setError := Some msg |}.

(** The outcome of a token: its own address, tagged [good] on success
    and [st_failed] otherwise. *)
Definition taggedWith (good : DetailStatus)
    (token : LocalImagesProvider.LocalCheck) (r : Detail * bool) : Prop :=
  detailAddress r.1 = LocalImagesProvider.localAddress token ∧
  detailStatus r.1 = (if r.2 then good else st_failed).

(** The lowercased addresses of a token list, in its order. *)
Definition lowerAddresses (tokens : list TokenInfo) : list string :=
  omap (λ t, Js.toLowerCase <$> address t) tokens.

(** What the locals of a suspended [performSync] owe to the token list
    it fetched. *)
Definition consistent (chain : Z) (pc : Awaiting) : Prop :=
  match pc with
  | AwaitTokens _ => True
  | AwaitStorageCheck _ tokens tokenList =>
      tokens ≠ [] ∧ lowercaseTokens chain tokens = Returns tokenList
  | AwaitLocalCheck _ tokens checks missing existing =>
      tokens ≠ [] ∧
      lowercaseTokens chain tokens = Returns (asToken <$> checks) ∧
      missing = List.filter (λ c, negb (Storage.exists_ c)) checks ∧
      existing = Z.of_nat (length (List.filter Storage.exists_ checks))
  | AwaitMigration _ tokens checks existing hasLocal stillMissing =>
      tokens ≠ [] ∧
      lowercaseTokens chain tokens = Returns (asToken <$> checks) ∧
      existing = Z.of_nat (length (List.filter Storage.exists_ checks)) ∧
      LocalImagesProvider.localAddress <$> (hasLocal ++ stillMissing)%list
        ≡ₚ Storage.checkAddress
             <$> List.filter (λ c, negb (Storage.exists_ c)) checks
  | AwaitDownload _ tokens checks existing mig stillMissing =>
      tokens ≠ [] ∧
      lowercaseTokens chain tokens = Returns (asToken <$> checks) ∧
      existing = Z.of_nat (length (List.filter Storage.exists_ checks)) ∧
      ∃ hasLocal outcomes,
        LocalImagesProvider.localAddress <$> (hasLocal ++ stillMissing)%list
          ≡ₚ Storage.checkAddress
               <$> List.filter (λ c, negb (Storage.exists_ c)) checks ∧
        Forall2 (taggedWith st_migrated) hasLocal outcomes ∧
        migrationDetails mig ≡ₚ outcomes.*1 ∧
        migrated mig = Z.of_nat (length (List.filter snd outcomes)) ∧
        migrationFailed mig
          = Z.of_nat (length (List.filter (λ r, negb r.2) outcomes))
  end.

(** The token list a suspended [performSync] holds. *)
Definition tokensOf (pc : Awaiting) : option (list TokenInfo) :=
  match pc with
  | AwaitTokens _ => None
  | AwaitStorageCheck _ tokens _ | AwaitLocalCheck _ tokens _ _ _
  | AwaitMigration _ tokens _ _ _ _ | AwaitDownload _ tokens _ _ _ _ => Some tokens
  end.

(** The counters of a result add up and agree with its detail list. *)
Definition resultSound (res : SyncResult) : Prop :=
  existingImages res + migratedFromLocal res + downloadedImages res
    + failedDownloads res = totalTokens res ∧
  Z.of_nat (length (details res)) = totalTokens res ∧
  countStatus st_exists (details res) = existingImages res ∧
  countStatus st_migrated (details res) = migratedFromLocal res ∧
  countStatus st_downloaded (details res) = downloadedImages res ∧
  countStatus st_failed (details res) = failedDownloads res.

(** The detail list has one entry per token of [tokens]. *)
Definition oneEntryPerToken (tokens : list TokenInfo) (res : SyncResult) : Prop :=
  totalTokens res = Z.of_nat (length tokens) ∧
  detailAddress <$> details res ≡ₚ lowerAddresses tokens.

(** An update that only reports progress, and one that ends the sync. *)
Definition isProgress (u : Updates) : Prop :=
  setStatus u = None ∧ setEndTime u = None ∧ setResult u = None ∧ setError u = None.

Definition isTerminal (u : Updates) : Prop :=
  is_Some (setEndTime u) ∧
  ((setStatus u = Some completed ∧ is_Some (setResult u) ∧ setError u = None) ∨
   (setStatus u = Some failed ∧ setResult u = None ∧ is_Some (setError u))).

Definition batchSize : nat := 20.
Definition FETCH_IMAGE_DELAY_MS : Z := 2000.

Section WithEnv.
Context (E : Env).

Definition fetchTokensFromEuler (chain : Z) (w : World E) : TokensJson * World E :=
  let '(response, w1) := fetchTokens E chain w in
  match response with
  | RegistryUnreachable => (JsonArray [], w1)
  | RegistryResponded ok json =>
      if negb ok then (JsonArray [], w1)
      else match json with
           | Returns tokens => (tokens, w1)
           | Throws _ => (JsonArray [], w1)
           end
  end.

(** The async arrow of [migrateLocalImages]: the detail it pushes and
    the [success] it resolves with. *)
Definition migrateOne (token : LocalImagesProvider.LocalCheck) (w : World E)
    : (Detail * bool) * World E :=
  let a := LocalImagesProvider.localAddress token in
  let c := LocalImagesProvider.localChainId token in
  let failedPlain :=
    {| detailAddress := a; detailStatus := st_failed; detailProvider := None |} in
  let failedMigration :=
    {| detailAddress := a; detailStatus := st_failed;
       detailProvider := Some "local-migration" |} in
  match Manager.getLocalProvider (imageProviders E w) with
  | None => ((failedPlain, false), w)
  | Some localProvider =>
      match Provider.fetchImage localProvider c a with
      | Throws _ => ((failedMigration, false), w)
      | Returns None => ((failedPlain, false), w)
      | Returns (Some localImage) =>
          match buffer localImage with
          | None => ((failedPlain, false), w)
          | Some buf =>
              let '(now, w1) := dateNow E w in
              let '(uploadSuccess, w2) :=
                uploadImageToStorage E c a buf (extension localImage)
                  {| Storage.metaProvider := "local-migration";
                     Storage.downloadDate := toISOString E now;
                     Storage.originalUrl :=
                       Some (Js.orDefault (path localImage) "unknown") |} w1 in
              match uploadSuccess with
              | Returns true =>
                  (({| detailAddress := a; detailStatus := st_migrated;
                       detailProvider := Some "local-migration" |}, true), w2)
              | Returns false => ((failedMigration, false), w2)
              | Throws _ => ((failedMigration, false), w2)
              end
          end
      end
  end.

(** [batch.map(async (token) => ...)] run to the end, promise by
    promise in the order of the batch. *)
Fixpoint migrateBatch (batch : list LocalImagesProvider.LocalCheck) (w : World E)
    : list (Detail * bool) * World E :=
  match batch with
  | [] => ([], w)
  | token :: rest =>
      let '(r, w1) := migrateOne token w in
      let '(rs, w2) := migrateBatch rest w1 in
      (r :: rs, w2)
  end.

(** The details in the order in which the promises of a batch push
    them: the order in which they finish. *)
Definition pushedDetails (w : World E) (settled : list (Detail * bool)) : list Detail :=
  (λ s, (s.2).1) <$> Manager.settleOrder (latency E w) (imap (λ i r, (i, r)) settled).

Definition countIf {A} (f : A → bool) (l : list A) : Z :=
  Z.of_nat (length (List.filter f l)).

(** The [for (let i = 0; i < tokensWithLocal.length; i += batchSize)]
    loop; [fuel] bounds the number of iterations. *)
Fixpoint migrateLoop (fuel : nat) (i : nat)
    (tokensWithLocal : list LocalImagesProvider.LocalCheck)
    (acc : MigrationResults) (w : World E) : MigrationResults * World E :=
  match fuel with
  | O => (acc, w)
  | S fuel' =>
      if (i <? length tokensWithLocal)%nat then
        let batch := take batchSize (drop i tokensWithLocal) in
        let '(batchResults, w1) := migrateBatch batch w in
        let acc' :=
          {| migrated := migrated acc + countIf snd batchResults;
             migrationFailed :=
               migrationFailed acc + countIf (λ r, negb r.2) batchResults;
             migrationDetails :=
               (migrationDetails acc ++ pushedDetails w batchResults)%list |} in
        let w2 :=
          if (i + batchSize <? length tokensWithLocal)%nat then delay E 100 w1 else w1 in
        migrateLoop fuel' (i + batchSize) tokensWithLocal acc' w2
      else (acc, w)
  end.

Definition migrateLocalImages (tokensWithLocal : list LocalImagesProvider.LocalCheck)
    (w : World E) : MigrationResults * World E :=
  migrateLoop (length tokensWithLocal) 0 tokensWithLocal
    {| migrated := 0; migrationFailed := 0; migrationDetails := [] |} w.

Definition downloadImageBuffer (u : string) (w : World E) : option (list byte) * World E :=
  let '(response, w1) := fetchImageUrl E u w in
  match response with
  | ImageUnreachable => (None, w1)
  | ImageResponded ok arrayBuffer =>
      if negb ok then (None, w1)
      else match arrayBuffer with
           | Returns bytes => (Some bytes, w1)
           | Throws _ => (None, w1)
           end
  end.

(** One round of the loop of [downloadMissingImages]: the detail pushed
    and whether [downloaded] (rather than [failed]) is incremented.
    [None] when the provider fan-out never resolves. *)
Definition downloadOne (token : LocalImagesProvider.LocalCheck) (w : World E)
    : option ((Detail * bool) * World E) :=
  let a := LocalImagesProvider.localAddress token in
  let c := LocalImagesProvider.localChainId token in
  let failedPlain :=
    {| detailAddress := a; detailStatus := st_failed; detailProvider := None |} in
  let w0 := delay E FETCH_IMAGE_DELAY_MS w in
  match Manager.fetchImage (latency E w0) (imageProviders E w0) c a with
  | None => None
  | Some None => Some ((failedPlain, false), w0)
  | Some (Some imageResult) =>
      let failedBy :=
        {| detailAddress := a; detailStatus := st_failed;
           detailProvider := Some (provider imageResult) |} in
      let '(imageBuffer, w1) :=
        match buffer imageResult with
        | Some buf => (Some buf, w0)
        | None =>
            match url imageResult with
            | Some u => if Js.truthy u then downloadImageBuffer u w0 else (None, w0)
            | None => (None, w0)
            end
        end in
      match imageBuffer with
      | None => Some ((failedBy, false), w1)
      | Some bytes =>
          let '(now, w2) := dateNow E w1 in
          let '(uploadSuccess, w3) :=
            uploadImageToStorage E c a bytes (extension imageResult)
              {| Storage.metaProvider := provider imageResult;
                 Storage.downloadDate := toISOString E now;
                 Storage.originalUrl :=
                   Some (Js.orDefault (Js.orElse (url imageResult) (path imageResult))
                           "unknown") |} w2 in
          match uploadSuccess with
          | Returns true =>
              Some (({| detailAddress := a; detailStatus := st_downloaded;
                        detailProvider := Some (provider imageResult) |}, true), w3)
          | Returns false => Some ((failedBy, false), w3)
          | Throws _ => Some ((failedPlain, false), w3)
          end
      end
  end.

Fixpoint downloadLoop (missingTokens : list LocalImagesProvider.LocalCheck)
    (acc : DownloadResults) (w : World E) : option (DownloadResults * World E) :=
  match missingTokens with
  | [] => Some (acc, w)
  | token :: rest =>
      match downloadOne token w with
      | None => None
      | Some ((detail, ok), w1) =>
          downloadLoop rest
            {| downloaded := if ok then downloaded acc + 1 else downloaded acc;
               downloadFailed := if ok then downloadFailed acc else downloadFailed acc + 1;
               downloadDetails := (downloadDetails acc ++ [detail])%list |} w1
      end
  end.

Definition downloadMissingImages (missingTokens : list LocalImagesProvider.LocalCheck)
    (w : World E) : option (DownloadResults * World E) :=
  downloadLoop missingTokens
    {| downloaded := 0; downloadFailed := 0; downloadDetails := [] |} w.

(** A token handled by [migrateOne], respectively by one round of the
    download loop, in some state of the environment, with outcome [r]. *)
Definition migratedAs (token : LocalImagesProvider.LocalCheck)
    (r : Detail * bool) : Prop :=
  ∃ wi wi', migrateOne token wi = (r, wi').

Definition downloadedAs (token : LocalImagesProvider.LocalCheck)
    (r : Detail * bool) : Prop :=
  ∃ wi wi', downloadOne token wi = Some (r, wi').

Definition existsDetail (check : Storage.ExistenceCheck) : Detail :=
  {| detailAddress := Storage.checkAddress check; detailStatus := st_exists;
     detailProvider := None |}.

(** [performSync] from one [await] to the next: the [updateSyncStatus]
    calls it makes, in order, and what it awaits next ([None] once it
    has returned).  The outer [None] stands for an awaited promise that
    never resolves. *)
Definition resume (chain : Z) (pc : Awaiting) (w : World E)
    : option (list Updates * option Awaiting * World E) :=
  match pc with
  | AwaitTokens startTime =>
      let '(tokens, w1) := fetchTokensFromEuler chain w in
      match tokens with
      | JsonNull =>
          (* [tokens.length] throws; the [catch] of [performSync] *)
          let '(now, w2) := dateNow E w1 in
          Some ([failedUpdate now typeErrorLength], None, w2)
      | JsonArray tokens =>
          if (length tokens =? 0)%nat then
            let '(now1, w2) := dateNow E w1 in
            let '(now2, w3) := dateNow E w2 in
            let result :=
              {| resultChainId := chain; totalTokens := 0; existingImages := 0;
                 migratedFromLocal := 0; downloadedImages := 0; failedDownloads := 0;
                 duration := now1 - startTime; details := [] |} in
            Some ([ {| setStatus := Some completed; setEndTime := Some now2;
                       setProgress := None; setResult := Some result;
                       setError := None |} ], None, w3)
          else
            let checking :=
              progressUpdate ("checking " +:+ STORAGE_MODE E +:+ " storage") 0
                (Z.of_nat (length tokens)) in
            match lowercaseTokens chain tokens with
            | Throws msg =>
                let '(now, w2) := dateNow E w1 in
                Some ([checking; failedUpdate now msg], None, w2)
            | Returns tokenList =>
                Some ([checking], Some (AwaitStorageCheck startTime tokens tokenList), w1)
            end
      end
  | AwaitStorageCheck startTime tokens tokenList =>
      let '(existenceChecks, w1) :=
        Storage.bulkCheckImagesInStorage (checkImageExistsInStorage E) tokenList w in
      let missingFromStorage :=
        List.filter (λ check, negb (Storage.exists_ check)) existenceChecks in
      let existingInStorageCount :=
        Z.of_nat (length existenceChecks) - Z.of_nat (length missingFromStorage) in
      Some ([progressUpdate "checking local source images" 0
               (Z.of_nat (length missingFromStorage))],
            Some (AwaitLocalCheck startTime tokens existenceChecks missingFromStorage
                    existingInStorageCount), w1)
  | AwaitLocalCheck startTime tokens existenceChecks missingFromStorage
      existingInStorageCount =>
      let localChecks :=
        match Manager.getLocalProvider (imageProviders E w) with
        | Some localProvider =>
            LocalImagesProvider.bulkCheckLocalImages localProvider
              (asToken <$> missingFromStorage)
        | None =>
            (λ token,
               {| LocalImagesProvider.localChainId := Storage.checkChainId token;
                  LocalImagesProvider.localAddress := Storage.checkAddress token;
                  LocalImagesProvider.hasLocal := false |}) <$> missingFromStorage
        end in
      let hasLocalImages := List.filter LocalImagesProvider.hasLocal localChecks in
      let stillMissingTokens :=
        List.filter (λ check, negb (LocalImagesProvider.hasLocal check)) localChecks in
      Some ([progressUpdate "migrating local source images" 0
               (Z.of_nat (length hasLocalImages))],
            Some (AwaitMigration startTime tokens existenceChecks existingInStorageCount
                    hasLocalImages stillMissingTokens), w)
  | AwaitMigration startTime tokens existenceChecks existingInStorageCount
      hasLocalImages stillMissingTokens =>
      let '(migrationResults, w1) := migrateLocalImages hasLocalImages w in
      Some ([progressUpdate "downloading missing images" 0
               (Z.of_nat (length stillMissingTokens))],
            Some (AwaitDownload startTime tokens existenceChecks existingInStorageCount
                    migrationResults stillMissingTokens), w1)
  | AwaitDownload startTime tokens existenceChecks existingInStorageCount
      migrationResults stillMissingTokens =>
      match downloadMissingImages stillMissingTokens w with
      | None => None
      | Some (downloadResults, w1) =>
          let '(now1, w2) := dateNow E w1 in
          let result :=
            {| resultChainId := chain;
               totalTokens := Z.of_nat (length tokens);
               existingImages := existingInStorageCount;
               migratedFromLocal := migrated migrationResults;
               downloadedImages := downloaded downloadResults;
               failedDownloads :=
                 migrationFailed migrationResults + downloadFailed downloadResults;
               duration := now1 - startTime;
               details :=
                 ((existsDetail <$> List.filter Storage.exists_ existenceChecks)
                  ++ migrationDetails migrationResults
                  ++ downloadDetails downloadResults)%list |} in
          let '(now2, w3) := dateNow E w2 in
          Some ([ {| setStatus := Some completed; setEndTime := Some now2;
                     setProgress :=
                       Some {| phase := "completed";
                               current := Z.of_nat (length tokens);
                               total := Z.of_nat (length tokens) |};
                     setResult := Some result; setError := None |} ], None, w3)
      end
  end.


(** What [startSync] answers: the status, or the rate-limit signal. *)
Inductive StartAnswer :=
| Started (st : SyncStatus)
| RateLimited (e : RateLimitError).

Record StartOutcome := {
  answer : StartAnswer;
  statusesAfter : gmap Z SyncStatus;
  worldAfter : World E;
  spawned : option Awaiting;
}.

(** The second half of [startSync], from "Start a new sync" to the
    [return]: [performSync] has then run to its first [await].
    [performSync] catches what its body throws, so its promise does not
    reject and the [.catch] attached here never runs. *)
Definition startNewSync (chain : Z) (syncStatuses : gmap Z SyncStatus) (w1 : World E)
    : StartOutcome :=
  let '(now, w2) := dateNow E w1 in
  let syncStatus :=
    {| chainId := chain; status := running; startTime := now; endTime := None;
       progress := Some {| phase := "initializing"; current := 0; total := 0 |};
       result := None; error := None;
       remainingTime := Some (RATE_LIMIT_MINUTES * 60 * 1000) |} in
  let statuses1 := <[chain := syncStatus]> syncStatuses in
  (* this.performSync(chainId), up to its first await *)
  let '(startTime, w3) := dateNow E w2 in
  let statuses2 :=
    updateSyncStatus statuses1 chain (progressUpdate "fetching tokens" 0 1) in
  {| answer := Started syncStatus; statusesAfter := statuses2;
     worldAfter := w3; spawned := Some (AwaitTokens startTime) |}.

(** [startSync(chainId)] *)
Definition startSync (chain : Z) (syncStatuses : gmap Z SyncStatus) (w : World E)
    : StartOutcome :=
  let '(now0, w1) := dateNow E w in
  match checkRateLimit syncStatuses now0 chain with
  | Some rateLimitCheck =>
      {| answer := RateLimited rateLimitCheck; statusesAfter := syncStatuses;
         worldAfter := w1; spawned := None |}
  | None =>
      match syncStatuses !! chain with
      | Some existingStatus =>
          match status existingStatus with
          | running =>
              let '(now, w2) := dateNow E w1 in
              {| answer :=
                   Started
                     {| chainId := chainId existingStatus;
                        status := status existingStatus;
                        startTime := startTime existingStatus;
                        endTime := endTime existingStatus;
                        progress := progress existingStatus;
                        result := result existingStatus;
                        error := error existingStatus;
                        remainingTime :=
                          Some (calculateRemainingTime syncStatuses now chain) |};
                 statusesAfter := syncStatuses; worldAfter := w2; spawned := None |}
          | _ => startNewSync chain syncStatuses w1
          end
      | None => startNewSync chain syncStatuses w1
      end
  end.

(** [getSyncStatus(chainId)] *)
Definition getSyncStatus (chain : Z) (syncStatuses : gmap Z SyncStatus) (w : World E)
    : option SyncStatus * World E :=
  match syncStatuses !! chain with
  | None => (None, w)
  | Some st =>
      let '(now, w1) := dateNow E w in
      (Some {| chainId := chainId st; status := status st; startTime := startTime st;
               endTime := endTime st; progress := progress st; result := result st;
               error := error st;
               remainingTime := Some (calculateRemainingTime syncStatuses now chain) |},
       w1)
  end.

(** ** The service as a transition system *)

(** The service between two turns of the event loop: the status map,
    the environment, and the [performSync] calls that are suspended at
    an [await], each with the chain it runs for. *)
Record System := {
  syncStatuses : gmap Z SyncStatus;
  world : World E;
  pipelines : list (Z * Awaiting);
}.

Definition applyUpdates (statuses : gmap Z SyncStatus) (chain : Z)
    (updates : list Updates) : gmap Z SyncStatus :=
  foldl (λ σ u, updateSyncStatus σ chain u) statuses updates.

Inductive Label :=
| CallStartSync (chain : Z)
| Resume (chain : Z)
| Environment.

(** One turn: a [startSync] call, a suspended [performSync] that
    continues to its next [await], or a change of the environment. *)
Inductive step : System → Label → System → Prop :=
| step_startSync chain s :
    step s (CallStartSync chain)
      (let out := startSync chain (syncStatuses s) (world s) in
       {| syncStatuses := statusesAfter out;
          world := worldAfter out;
          pipelines :=
            match spawned out with
            | Some pc => (pipelines s ++ [(chain, pc)])%list
            | None => pipelines s
            end |})
| step_resume i chain pc updates next w' s :
    pipelines s !! i = Some (chain, pc) →
    resume chain pc (world s) = Some (updates, next, w') →
    step s (Resume chain)
      {| syncStatuses := applyUpdates (syncStatuses s) chain updates;
         world := w';
         pipelines :=
           match next with
           | Some pc' => <[i := (chain, pc')]> (pipelines s)
           | None => delete i (pipelines s)
           end |}
| step_environment w' s :
    step s Environment
      {| syncStatuses := syncStatuses s; world := w'; pipelines := pipelines s |}.

(** [performSync] for [chain] is suspended at [pc] after the registry
    answered the token list [tokens]. *)
Inductive holds (chain : Z) : list TokenInfo → Awaiting → Prop :=
| holds_fetched t w tokens updates pc w' :
    (fetchTokensFromEuler chain w).1 = JsonArray tokens →
    resume chain (AwaitTokens t) w = Some (updates, Some pc, w') →
    holds chain tokens pc
| holds_next tokens pc w updates pc' w' :
    holds chain tokens pc →
    resume chain pc w = Some (updates, Some pc', w') →
    holds chain tokens pc'.

(** A suspended [performSync]: still waiting for the registry, or
    holding the token list it answered. *)
Definition suspended (chain : Z) (pc : Awaiting) : Prop :=
  (∃ t, pc = AwaitTokens t) ∨ ∃ tokens, holds chain tokens pc.

(** What holds of a status of the map, given the suspended pipelines. *)
Definition statusSound (s : System) (chain : Z) (st : SyncStatus) : Prop :=
  chainId st = chain ∧
  match status st with
  | running =>
      endTime st = None ∧ result st = None ∧ error st = None ∧
      ∃ pc, (chain, pc) ∈ pipelines s
  | completed =>
      is_Some (endTime st) ∧ error st = None ∧
      ∃ res, result st = Some res ∧ resultSound res
  | failed =>
      is_Some (endTime st) ∧ result st = None ∧ is_Some (error st)
  end.

(** The invariant of the service: at most one suspended pipeline per
    chain, each with consistent locals and a running status; every
    status of the map is sound. *)
Definition invariant (s : System) : Prop :=
  NoDup (pipelines s).*1 ∧
  (∀ chain pc, (chain, pc) ∈ pipelines s →
     (consistent chain pc ∧ suspended chain pc) ∧
     ∃ st, syncStatuses s !! chain = Some st ∧ status st = running) ∧
  (∀ chain st, syncStatuses s !! chain = Some st → statusSound s chain st).

Definition initial (w : World E) : System :=
  {| syncStatuses := ∅; world := w; pipelines := [] |}.

(** The states the service can be in. *)
Inductive reachable : System → Prop :=
| reachable_initial w : reachable (initial w)
| reachable_step s l s' : reachable s → step s l s' → reachable s'.

End WithEnv.

End Pipeline.

(** ** The shape of an [ImageResult] *)

Module Shape.

(** Exactly one of [buffer] and [url] is populated. *)
Definition exactlyOneOfBufferUrl (r : ImageResult) : Prop :=
  (is_Some (buffer r) ∧ url r = None) ∨ (buffer r = None ∧ is_Some (url r)).

(** The closed set of extensions of the data model, with [jpeg]. *)
Definition closedSet : list string :=
  ["png"; "jpg"; "webp"; "svg"; "gif"; "bmp"; "ico"; "tiff"; "jpeg"].

(** The extensions a URL-based provider can answer. *)
Definition urlExtensions : list string := ["png"; "jpg"; "jpeg"; "webp"; "svg"; "gif"].

End Shape.

(** ** services/sync-service.ts: the queries of [SyncService] and the
    deprecated [syncTokenImages] *)

Module Service.
Import Sync.

(** The answer of [getRateLimitInfo]. *)
Record RateLimitInfo := {
  canSync : bool;
  infoRemainingTime : Z;
  infoMessage : string;
}.

(** What one run of [checkStatus] does with the promise of
    [syncTokenImages]: it resolves it, rejects it, or arms the next
    [setTimeout(checkStatus, 1000)]. *)
Inductive Poll :=
| Resolve (r : SyncResult)
| Reject (msg : string)
| PollAgain.

(** The body of [checkStatus], given what [getSyncStatus] answered. *)
Definition checkStatus (currentStatus : option SyncStatus) : Poll :=
  match currentStatus with
  | None => Reject "Sync status lost"
  | Some st =>
      match status st, result st with
      | completed, Some r => Resolve r
      | failed, _ => Reject (Js.orDefault (error st) "Sync failed")
      | _, _ => PollAgain
      end
  end.


Section WithEnv.
Context (E : Env).

(** [getRateLimitInfo(chainId)]: [checkRateLimit] and
    [calculateRemainingTime] read the clock one after the other. *)
Definition getRateLimitInfo (chain : Z) (syncStatuses : gmap Z SyncStatus)
    (w : World E) : RateLimitInfo * World E :=
  let '(now0, w1) := dateNow E w in
  let rateLimitCheck := checkRateLimit syncStatuses now0 chain in
  let '(now1, w2) := dateNow E w1 in
  let remainingTime := calculateRemainingTime syncStatuses now1 chain in
  match rateLimitCheck with
  | Some e =>
      ({| canSync := false; infoRemainingTime := remainingTime;
          infoMessage := message e |}, w2)
  | None =>
      ({| canSync := true; infoRemainingTime := remainingTime;
          infoMessage :=
            if 0 <? remainingTime
            then "Can sync now, but next sync will be available in "
                 +:+ pretty (ceilDiv remainingTime (60 * 1000)) +:+ " minute(s)."
            else "Can sync immediately." |}, w2)
  end.

(** [syncTokenImages(chainId)] up to the promise it returns: [startSync],
    the throw on a rate limit, and the first run of [checkStatus] inside
    the promise executor. *)
Definition syncTokenImages (chain : Z) (syncStatuses : gmap Z SyncStatus) (w : World E)
    : Outcome Poll * Pipeline.StartOutcome E :=
  let out := Pipeline.startSync E chain syncStatuses w in
  match Pipeline.answer E out with
  | Pipeline.RateLimited e => (Throws (message e), out)
  | Pipeline.Started _ =>
      let '(currentStatus, w1) :=
        Pipeline.getSyncStatus E chain (Pipeline.statusesAfter E out)
          (Pipeline.worldAfter E out) in
      (Returns (checkStatus currentStatus),
       {| Pipeline.answer := Pipeline.answer E out;
          Pipeline.statusesAfter := Pipeline.statusesAfter E out;
          Pipeline.worldAfter := w1;
          Pipeline.spawned := Pipeline.spawned E out |})
  end.

(** A later run of [checkStatus], armed by [setTimeout]. *)
Definition pollStatus (chain : Z) (syncStatuses : gmap Z SyncStatus) (w : World E)
    : Poll * World E :=
  let '(currentStatus, w1) := Pipeline.getSyncStatus E chain syncStatuses w in
  (checkStatus currentStatus, w1).

End WithEnv.
End Service.

(** ** index.ts: the two sync routes, after the [chainId] parameter
    passed its validation *)

Module Routes.
Import Sync.

(** The JSON answers of [GET /sync/:chainId]: [{ success: true, data }]
    with status 200, or the rate-limit body with status 429. *)
Inductive SyncResponse :=
| Ok (data : SyncStatus)
| TooManyRequests (chain : Z) (remaining : Z) (msg : string).

Definition statusCode (r : SyncResponse) : Z :=
  match r with
  | Ok _ => 200
  | TooManyRequests _ _ _ => 429
  end.

Section WithEnv.
Context (E : Env).

Record Handled := {
  response : SyncResponse;
  statusesAfter : gmap Z SyncStatus;
  worldAfter : World E;
  spawned : option Pipeline.Awaiting;
}.

(** The handler of [GET /sync/:chainId]. *)
Definition syncRoute (chain : Z) (syncStatuses : gmap Z SyncStatus) (w : World E)
    : Handled :=
  let '(existingStatus, w1) := Pipeline.getSyncStatus E chain syncStatuses w in
  let attempt :=
    let out := Pipeline.startSync E chain syncStatuses w1 in
    {| response :=
         match Pipeline.answer E out with
         | Pipeline.RateLimited syncResult =>
             TooManyRequests (rateLimitedChainId syncResult)
               (rateLimitRemainingTime syncResult) (message syncResult)
         | Pipeline.Started syncResult => Ok syncResult
         end;
       statusesAfter := Pipeline.statusesAfter E out;
       worldAfter := Pipeline.worldAfter E out;
       spawned := Pipeline.spawned E out |} in
  match existingStatus with
  | Some st =>
      match status st with
      | running =>
          {| response := Ok st; statusesAfter := syncStatuses; worldAfter := w1;
             spawned := None |}
      | _ => attempt
      end
  | None => attempt
  end.

(** The handler of [GET /sync/:chainId/status]: the status, or [None]
    for [{ success: true, data: null, message }]. *)
Definition syncStatusRoute (chain : Z) (syncStatuses : gmap Z SyncStatus) (w : World E)
    : option SyncStatus * World E :=
  Pipeline.getSyncStatus E chain syncStatuses w.

End WithEnv.
End Routes.
(** ** services/fetch-image-service.ts: the registry of providers and
    the sequential resolver of the earlier manager *)

Module Registry.

(** [addProvider(provider)]: [this.providers.push(provider)] *)
Definition addProvider (provider : ImageProvider) (providers : list ImageProvider)
    : list ImageProvider :=
  providers ++ [provider].

(** [getProviderNames()] *)
Definition getProviderNames (providers : list ImageProvider) : list string :=
  name <$> providers.

(** [fetchImage] of the manager before the fan-out was introduced: the
    providers are awaited one after the other, a throw is logged and the
    loop continues, the first truthy result is returned.  It does not
    ask [isAvailable]. *)
Fixpoint fetchImageSequential (providers : list ImageProvider)
    (chainId : Z) (address : string) : option ImageResult :=
  match providers with
  | [] => None
  | provider :: rest =>
      match Provider.fetchImage provider chainId address with
      | Returns (Some result) => Some result
      | Returns None | Throws _ => fetchImageSequential rest chainId address
      end
  end.

End Registry.
(** ** services/image-storage-service.ts: the local storage mode and the
    unified interface *)

Module LocalStorage.

(** What the local mode takes from outside: the directory
    [join(process.cwd(), "local-storage")], and JSON for the metadata
    file, namely [JSON.stringify({ extension, ...metadata }, null, 2)] as
    bytes and [JSON.parse(content).extension] (a throw when the content
    is no JSON or parses to [null]; [None] when the object has no such
    field). *)
Record Env := {
  LOCAL_STORAGE_DIR : string;
  stringify : string → Storage.UploadMetadata → list byte;
  parseExtension : list byte → Outcome (option string);
}.

(** *** node:fs, the writing half *)

Definition isDirectory (fs : Fs.t) (p : string) : bool :=
  bool_decide (is_Some (Fs.dirs fs !! p)).

Definition isFile (fs : Fs.t) (p : string) : bool :=
  bool_decide (is_Some (Fs.files fs !! p)).

(** The entry [child] appears in the listing of the directory
    [parent]. *)
Definition link (parent child : string) (fs : Fs.t) : Fs.t :=
  match Fs.dirs fs !! parent with
  | Some entries =>
      if bool_decide (child ∈ entries) then fs
      else {| Fs.dirs := <[parent := (entries ++ [child])%list]> (Fs.dirs fs);
              Fs.files := Fs.files fs |}
  | None => fs
  end.

(** One level of [mkdir(..., { recursive: true })]: the directory
    [parent/child] exists afterwards, unless a file is in the way. *)
Definition mkdirUnder (parent child : string) (fs : Fs.t) : Outcome Fs.t :=
  let p := Fs.join [parent; child] in
  if isFile fs p then Throws "EEXIST"
  else if isDirectory fs p then Returns fs
  else Returns (link parent child
                  {| Fs.dirs := <[p := []]> (Fs.dirs fs); Fs.files := Fs.files fs |}).

(** [writeFile(join(dir, file), data)], for a [file] that is one path
    segment. *)
Definition writeFile (dir file : string) (data : list byte) (fs : Fs.t) : Outcome Fs.t :=
  let p := Fs.join [dir; file] in
  if negb (isDirectory fs dir) then Throws "ENOENT"
  else if isDirectory fs p then Throws "EISDIR"
  else Returns (link dir file
                  {| Fs.dirs := Fs.dirs fs; Fs.files := <[p := data]> (Fs.files fs) |}).

Section WithEnv.
Context (env : Env).

(** [getLocalStoragePath], [getLocalImageFilePath] (its last segment)
    and [getLocalMetadataPath] (its last segment). *)
Definition getLocalStoragePath (chainId : Z) (address : string) : string :=
  Fs.join [LOCAL_STORAGE_DIR env; pretty chainId; Js.toLowerCase address].

Definition imageFileName (extension : option string) : string :=
  "image" +:+ (match extension with
               | Some e => if Js.truthy e then "." +:+ e else ""
               | None => ""
               end).

Definition metadataFileName : string := "metadata.json".

(** [mkdir(tokenDir, { recursive: true })] *)
Definition mkdirTokenDir (chainId : Z) (address : string) (fs : Fs.t) : Outcome Fs.t :=
  let root := LOCAL_STORAGE_DIR env in
  if isFile fs root then Throws "EEXIST"
  else
    let fs0 :=
      if isDirectory fs root then fs
      else {| Fs.dirs := <[root := []]> (Fs.dirs fs); Fs.files := Fs.files fs |} in
    match mkdirUnder root (pretty chainId) fs0 with
    | Throws m => Throws m
    | Returns fs1 =>
        mkdirUnder (Fs.join [root; pretty chainId]) (Js.toLowerCase address) fs1
    end.

Definition getImageFromLocalStorage (fs : Fs.t) (chainId : Z) (address : string)
    : option Storage.StoredImage :=
  let tokenDir := getLocalStoragePath chainId address in
  let fromMetadata : option string :=
    match Fs.readFile fs (Fs.join [tokenDir; metadataFileName]) with
    | Returns metadataContent =>
        match parseExtension env metadataContent with
        | Returns extension => extension
        | Throws _ => None
        end
    | Throws _ => None
    end in
  match Fs.readdir fs tokenDir with
  | Throws _ => None
  | Returns files =>
      match Js.find (Js.startsWith "image.") files with
      | None => None
      | Some imageFile =>
          let extension :=
            if Js.truthyOpt fromMetadata then default "" fromMetadata
            else Js.afterLastDot imageFile in
          match Fs.readFile fs (Fs.join [tokenDir; imageFile]) with
          | Throws _ => None
          | Returns buffer =>
              Some {| Storage.storedBuffer := buffer;
                      Storage.contentType :=
                        if Js.truthy extension then Storage.getMimeType extension
                        else "application/octet-stream";
                      Storage.storedExtension := Some extension |}
          end
      end
  end.

Definition checkImageExistsInLocalStorage (fs : Fs.t) (chainId : Z) (address : string)
    : bool :=
  match Fs.readdir fs (getLocalStoragePath chainId address) with
  | Returns files => existsb (Js.startsWith "image.") files
  | Throws _ => false
  end.

Definition uploadImageToLocalStorage (fs : Fs.t) (chainId : Z) (address : string)
    (imageBuffer : list byte) (extension : string) (metadata : Storage.UploadMetadata)
    : bool * Fs.t :=
  let tokenDir := getLocalStoragePath chainId address in
  match mkdirTokenDir chainId address fs with
  | Throws _ => (false, fs)
  | Returns fs1 =>
      match writeFile tokenDir (imageFileName (Some extension)) imageBuffer fs1 with
      | Throws _ => (false, fs1)
      | Returns fs2 =>
          match writeFile tokenDir metadataFileName (stringify env extension metadata)
                  fs2 with
          | Throws _ => (false, fs2)
          | Returns fs3 => (true, fs3)
          end
      end
  end.

(** *** The unified interface *)

(** The two stores; [STORAGE_MODE] is "s3" exactly when the credentials
    are set, which is when [s3Client] exists. *)
Record Store := { s3 : Storage.S3; disk : Fs.t }.

Definition STORAGE_MODE (st : Store) : string :=
  if Storage.s3Client (s3 st) then "s3" else "local".

Definition getImageFromStorage (st : Store) (chainId : Z) (address : string)
    : option Storage.StoredImage :=
  if String.eqb (STORAGE_MODE st) "s3" then Storage.getImageFromS3 (s3 st) chainId address
  else getImageFromLocalStorage (disk st) chainId address.

Definition checkImageExistsInStorage (st : Store) (chainId : Z) (address : string)
    : bool :=
  if String.eqb (STORAGE_MODE st) "s3"
  then Storage.checkImageExistsInS3 (s3 st) chainId address
  else checkImageExistsInLocalStorage (disk st) chainId address.

Definition uploadImageToStorage (st : Store) (chainId : Z) (address : string)
    (imageBuffer : list byte) (extension : string) (metadata : Storage.UploadMetadata)
    : bool * Store :=
  if String.eqb (STORAGE_MODE st) "s3" then
    let '(ok, s') :=
      Storage.uploadImageToS3 (s3 st) chainId address imageBuffer extension metadata in
    (ok, {| s3 := s'; disk := disk st |})
  else
    let '(ok, fs') :=
      uploadImageToLocalStorage (disk st) chainId address imageBuffer extension
        metadata in
    (ok, {| s3 := s3 st; disk := fs' |}).

(** [bulkCheckImagesInStorage(tokens)] over the unified interface. *)
Definition bulkCheckImagesInStorage (st : Store) (tokens : list Storage.Token)
    : list Storage.ExistenceCheck :=
  (Storage.bulkCheckImagesInStorage
     (λ chainId address st, (Returns (checkImageExistsInStorage st chainId address), st))
     tokens st).1.

End WithEnv.
End LocalStorage.

(** ** index.ts: the route that serves a token image, after its
    parameters passed their validation *)

Module ImageRoute.

Inductive Response :=
| Image (body : list byte) (contentType : string) (cacheControl : string)
| InternalServerError.

Definition statusCode (r : Response) : Z :=
  match r with
  | Image _ _ _ => 200
  | InternalServerError => 500
  end.

(** The handler of [GET /:chainId/:address]; [cwd] is [process.cwd()]. *)
Definition serve (env : LocalStorage.Env) (cwd : string) (st : LocalStorage.Store)
    (chainId : Z) (address : string) : Response :=
  match LocalStorage.getImageFromStorage env st chainId address with
  | Some storedImage =>
      Image (Storage.storedBuffer storedImage) (Storage.contentType storedImage)
        "public, max-age=86400"
  | None =>
      let defaultImagePath := Fs.join [cwd; "images"; "default.png"] in
      match Fs.readFile (LocalStorage.disk st) defaultImagePath with
      | Throws _ => InternalServerError
      | Returns defaultImageBuffer =>
          let fileExtension :=
            Js.orDefault (Some (Js.afterLastDot defaultImagePath)) "png" in
          Image defaultImageBuffer (Storage.getMimeType fileExtension)
            "public, max-age=86400"
      end
  end.

End ImageRoute.
(** ** providers/pendle-provider.ts *)

Module PendleProvider.

Definition providerName : string := "pendle".
Definition baseUrl : string := "https://api-v2.pendle.finance/core/v3".
Definition cacheExpiry : Z := 5 * 60 * 1000.
Definition supportedChains : list Z := [1; 42161].

(** A [PendleAsset], as far as the provider reads it. *)
Record PendleAsset := {
  assetAddress : string;
  assetSymbol : string;
  proIcon : option string;
}.

(** [data.assets] of the parsed body: missing or no array, or the
    array. *)
Inductive AssetsField :=
| NoArray
| Assets (assets : list PendleAsset).

(** The answer to [fetch(url, ...)]: a rejected promise, or a response
    with [ok] and what [response.json()] gives. *)
Inductive Response :=
| Unreachable
| Responded (ok : bool) (json : Outcome AssetsField).

Record Env := {
  fetch : string → Response;
  urlPathname : string → Outcome string;
}.

(** [this.cache]: per chain the assets and the time they were fetched
    at. *)
Abbreviation Cache := (gmap Z (list PendleAsset * Z)).

(** [fetchPendleAssets(chainId)] with [now = Date.now()]: the answer
    and the cache afterwards. *)
Definition fetchPendleAssets (env : Env) (now : Z) (cache : Cache) (chainId : Z)
    : option (list PendleAsset) * Cache :=
  let refetch :=
    match fetch env (baseUrl +:+ "/" +:+ pretty chainId +:+ "/assets/all") with
    | Unreachable => (None, cache)
    | Responded ok json =>
        if negb ok then (None, cache)
        else
          match json with
          | Throws _ => (None, cache)
          | Returns NoArray => (None, cache)
          | Returns (Assets assets) =>
              (Some assets, <[chainId := (assets, now)]> cache)
          end
    end in
  match cache !! chainId with
  | Some cached =>
      if now - cached.2 <? cacheExpiry then (Some cached.1, cache) else refetch
  | None => refetch
  end.

Definition getExtensionFromUrl (env : Env) (u : string) : string :=
  RemoteProvider.getExtensionFromUrl RemoteProvider.withGif "svg" (urlPathname env) u.

Definition isChainSupported (chainId : Z) : bool :=
  existsb (Z.eqb chainId) supportedChains.

(** [fetchImage(chainId, address)] *)
Definition fetchImage (env : Env) (now : Z) (cache : Cache)
    (chainId : Z) (address : string) : option ImageResult * Cache :=
  if negb (isChainSupported chainId) then (None, cache)
  else
    match fetchPendleAssets env now cache chainId with
    | (None, cache') => (None, cache')
    | (Some assets, cache') =>
        match Js.find (λ a, String.eqb (Js.toLowerCase (assetAddress a))
                              (Js.toLowerCase address)) assets with
        | None => (None, cache')
        | Some asset =>
            match proIcon asset with
            | None => (None, cache')
            | Some icon =>
                if negb (Js.truthy icon) then (None, cache')
                else (Some {| url := Some icon; provider := providerName;
                              extension := getExtensionFromUrl env icon;
                              buffer := None; path := None |}, cache')
            end
        end
    end.

(** [clearCache()] *)
Definition clearCache (cache : Cache) : Cache := ∅.

(** [getCacheStats()] with [now = Date.now()].  [Math.min] runs over
    the ages of all entries. *)
Record CacheStats := {
  totalChains : Z;
  cachedChains : Z;
  oldestCache : option Z;
}.

Definition getCacheStats (now : Z) (cache : Cache) : CacheStats :=
  let cachedEntries := (map_to_list cache).*2 in
  {| totalChains := Z.of_nat (length supportedChains);
     cachedChains := Z.of_nat (length cachedEntries);
     oldestCache :=
       match (λ c : list PendleAsset * Z, now - c.2) <$> cachedEntries with
       | [] => None
       | age :: ages => Some (foldl Z.min age ages)
       end |}.

End PendleProvider.
(** ** providers/sim-dune-provider.ts *)

Module SimDuneProvider.

Definition providerName : string := "sim-dune".

(** A [SimDuneTokenInfo], as far as the provider reads it. *)
Record SimDuneTokenInfo := {
  chain_id : option Z;
  logo_uri : option string;
}.

(** [data.data] of the parsed body: missing, a single object, or an
    array. *)
Inductive Data :=
| DataMissing
| DataObject (tokenInfo : SimDuneTokenInfo)
| DataArray (tokenInfos : list SimDuneTokenInfo).

Record Body := { error : option string; data : Data }.

Inductive Response :=
| Unreachable
| Responded (ok : bool) (json : Outcome Body).

(** [fetch] is asked for the lowercased address and the [chain_ids]
    query parameter. *)
Record Env := {
  apiKey : string;
  fetch : string → Z → Response;
  urlPathname : string → Outcome string;
}.

Definition getExtensionFromUrl (env : Env) (u : string) : string :=
  RemoteProvider.getExtensionFromUrl RemoteProvider.withGif "png" (urlPathname env) u.

(** The token info the provider settles on: for an array the entry of
    the requested chain, or else its first entry. *)
Definition chosen (chainId : Z) (d : Data) : option SimDuneTokenInfo :=
  match d with
  | DataArray tokenInfos =>
      match Js.find (λ token, bool_decide (chain_id token = Some chainId)) tokenInfos with
      | Some token => Some token
      | None => head tokenInfos
      end
  | DataObject tokenInfo => Some tokenInfo
  | DataMissing => None
  end.

Definition fetchImage (env : Env) (chainId : Z) (address : string) : option ImageResult :=
  if negb (Js.truthy (apiKey env)) then None
  else
    match fetch env (Js.toLowerCase address) chainId with
    | Unreachable => None
    | Responded ok json =>
        if negb ok then None
        else
          match json with
          | Throws _ => None
          | Returns body =>
              if Js.truthyOpt (error body) then None
              else
                match chosen chainId (data body) with
                | None => None
                | Some tokenInfo =>
                    match logo_uri tokenInfo with
                    | None => None
                    | Some logo =>
                        if negb (Js.truthy logo) then None
                        else Some {| url := Some logo; provider := providerName;
                                     extension := getExtensionFromUrl env logo;
                                     buffer := None; path := None |}
                    end
                end
          end
    end.

Definition isAvailable (env : Env) : bool := Js.truthy (apiKey env).

Definition make (env : Env) : ImageProvider :=
  {| Provider.name := providerName;
     Provider.isAvailable := isAvailable env;
     Provider.fetchImage := λ chainId address, Returns (fetchImage env chainId address) |}.

End SimDuneProvider.
(** ** services/image-processing-service.ts *)

Module ImageProcessing.

(** [metadata.width] and [metadata.height]: a number, or [None] for
    [undefined]. *)
Record Metadata := { width : option Z; height : option Z }.

(** What the function asks of [sharp]: the metadata of a buffer, the
    resized and masked inner image of a given size as PNG, and the ring
    background of a given size with the inner image composed at a given
    offset, as PNG.  Each may throw. *)
Record Sharp := {
  metadata : list byte → Outcome Metadata;
  innerImage : list byte → Z → Outcome (list byte);
  composite : Z → list byte → Z → Outcome (list byte);
}.

(** [Math.round(size / 15)] for an integer [size]: the quotient, plus
    one when the remainder is 8 or more. *)
Definition roundFifteenth (size : Z) : Z := (2 * size + 15) / 30.

Definition ringSizeOf (size : Z) : Z := Z.max 1 (roundFifteenth size).

(** [!x] for [x: number | undefined] *)
Definition falsyNumber (x : option Z) : bool :=
  match x with
  | Some n => n =? 0
  | None => true
  end.

(** [applyPendlePTRing(imageBuffer, extension)] *)
Definition applyPendlePTRing (sharp : Sharp) (imageBuffer : list byte)
    (extension : string) : list byte * string :=
  match metadata sharp imageBuffer with
  | Throws _ => (imageBuffer, extension)
  | Returns m =>
      if (falsyNumber (width m) || falsyNumber (height m))%bool
      then (imageBuffer, extension)
      else
        let size := Z.min (default 0 (width m)) (default 0 (height m)) in
        let ringSize := ringSizeOf size in
        let innerSize := size - ringSize * 2 in
        if innerSize <=? 0 then (imageBuffer, extension)
        else
          match innerImage sharp imageBuffer innerSize with
          | Throws _ => (imageBuffer, extension)
          | Returns inner =>
              match composite sharp size inner ringSize with
              | Throws _ => (imageBuffer, extension)
              | Returns result => (result, "png")
              end
          end
  end.

End ImageProcessing.
(** ** scripts/migration.ts *)

Module Migration.

(** [contentTypeToExtension(contentType)], for content types that name
    no property every object inherits. *)
Definition contentTypes : list (string * string) :=
  [ ("image/png", "png"); ("image/jpeg", "jpg"); ("image/webp", "webp");
    ("image/svg+xml", "svg"); ("image/gif", "gif"); ("image/bmp", "bmp");
    ("image/x-icon", "ico"); ("image/tiff", "tiff") ].

Definition contentTypeToExtension (contentType : string) : string :=
  Js.orDefault (Storage.lookupRecord contentTypes (Js.toLowerCase contentType)) "png".

Definition knownExtensions : list string :=
  ["png"; "jpg"; "jpeg"; "webp"; "svg"; "gif"; "bmp"; "ico"; "tiff"].

(** [urlToExtension(url)]; [urlPathname] stands for
    [new URL(url).pathname], which throws on a malformed URL. *)
Definition urlToExtension (urlPathname : string → Outcome string) (u : string) : string :=
  match urlPathname u with
  | Throws _ => "png"
  | Returns pathname =>
      let ext := Js.toLowerCase (Js.afterLastDot pathname) in
      if negb (Js.truthy ext) then "png"
      else if existsb (String.eqb ext) knownExtensions
           then (if String.eqb ext "jpeg" then "jpg" else ext)
           else "png"
  end.

(** [convertToAbsoluteUrl(url)] *)
Definition convertToAbsoluteUrl (u : string) : string :=
  if Js.startsWith "/tokens" u then "https://app.euler.finance" +:+ u else u.

(** The directory [join(process.cwd(), "images", chainId.toString(),
    toLowerAddress(address))], with [imagesDir] for
    [join(process.cwd(), "images")]. *)
Definition tokenDir (imagesDir : string) (chainId : Z) (address : string) : string :=
  Fs.join [imagesDir; pretty chainId; Js.toLowerCase address].

(** [mkdir(path, { recursive: true })] for a token directory; the
    parent of [imagesDir] lies outside the model. *)
Definition mkdirRecursive (imagesDir : string) (chainId : Z) (address : string)
    (fs : Fs.t) : Outcome Fs.t :=
  if LocalStorage.isFile fs imagesDir then Throws "EEXIST"
  else
    let fs0 :=
      if LocalStorage.isDirectory fs imagesDir then fs
      else {| Fs.dirs := <[imagesDir := []]> (Fs.dirs fs); Fs.files := Fs.files fs |} in
    match LocalStorage.mkdirUnder imagesDir (pretty chainId) fs0 with
    | Throws m => Throws m
    | Returns fs1 =>
        LocalStorage.mkdirUnder (Fs.join [imagesDir; pretty chainId])
          (Js.toLowerCase address) fs1
    end.

(** [ensureDir(path)] for a token directory. *)
Definition ensureDir (imagesDir : string) (chainId : Z) (address : string) (fs : Fs.t)
    : Outcome Fs.t :=
  if Fs.existsSync fs (tokenDir imagesDir chainId address) then Returns fs
  else mkdirRecursive imagesDir chainId address fs.

(** [writeImage(chainId, address, buffer, extension)] *)
Definition writeImage (imagesDir : string) (chainId : Z) (address : string)
    (buffer : list byte) (extension : string) (fs : Fs.t) : Outcome Fs.t :=
  match ensureDir imagesDir chainId address fs with
  | Throws m => Throws m
  | Returns fs1 =>
      LocalStorage.writeFile (tokenDir imagesDir chainId address)
        ("image." +:+ extension) buffer fs1
  end.

(** [hasLocalImage(chainId, address)] *)
Definition hasLocalImage (imagesDir : string) (chainId : Z) (address : string)
    (fs : Fs.t) : bool :=
  existsb (λ e, Fs.existsSync fs
                  (Fs.join [tokenDir imagesDir chainId address; "image." +:+ e]))
    knownExtensions.

End Migration.
(** ** The Pendle PT helpers: the tokenlists on disk and the local override *)

Module PendlePTUtils.

Definition CHAIN_ID_TO_TOKENLIST : list (Z * string) :=
  [ (1, "ethereumTokenList.json"); (42161, "arbitrumTokenList.json");
    (8453, "baseTokenList.json"); (43114, "avalancheTokenList.json");
    (56, "bscTokenList.json"); (146, "sonicTokenList.json");
    (1923, "plasmaTokenList.json"); (80084, "bartioTokenList.json");
    (80094, "berachainTokenList.json"); (60808, "bobTokenList.json");
    (59144, "lineaTokenList.json"); (5000, "mantleTokenList.json");
    (1868, "swellTokenList.json"); (130, "unichainTokenList.json");
    (2741, "tacTokenList.json"); (57073, "inkTokenList.json");
    (2911, "hyperevmTokenList.json"); (10143, "monadTokenList.json") ].

Definition CACHE_TTL_MS : Z := 5 * 60 * 1000.

Definition PENDLE_PT_EXCEPTIONS : list string :=
  ["0xb6168f597cd37a232cb7cb94cd1786be20ead156"].

(** What [JSON.parse(content)] gives: a throw when the content is no
    JSON, a value that is no array, or the array of entries. *)
Inductive Parsed :=
| NoArray
| Entries (entries : list PendlePT.TokenListEntry).

Record Env := {
  cwd : string;
  parse : list byte → Outcome Parsed;
}.

(** [tokenListCache] *)
Abbreviation Cache := (gmap Z (Parsed * Z)).

Fixpoint lookupChain (table : list (Z * string)) (chainId : Z) : option string :=
  match table with
  | [] => None
  | (c, filename) :: rest => if c =? chainId then Some filename else lookupChain rest chainId
  end.

(** [loadTokenList(chainId)] with [now = Date.now()]: the answer and
    the cache afterwards. *)
Definition loadTokenList (env : Env) (fs : Fs.t) (now : Z) (cache : Cache) (chainId : Z)
    : Parsed * Cache :=
  let load :=
    match lookupChain CHAIN_ID_TO_TOKENLIST chainId with
    | None => (Entries [], cache)
    | Some filename =>
        let filePath := Fs.join [cwd env; ".data"; filename] in
        if negb (Fs.existsSync fs filePath) then (Entries [], cache)
        else
          match Fs.readFile fs filePath with
          | Throws _ => (Entries [], cache)
          | Returns content =>
              match parse env content with
              | Throws _ => (Entries [], cache)
              | Returns data => (data, <[chainId := (data, now)]> cache)
              end
          end
    end in
  match cache !! chainId with
  | Some cached => if now - cached.2 <? CACHE_TTL_MS then (cached.1, cache) else load
  | None => load
  end.

(** [isPendlePT(chainId, address)]; [tokenList.find] throws on a value
    that is no array. *)
Definition isPendlePT (env : Env) (fs : Fs.t) (now : Z) (cache : Cache)
    (chainId : Z) (address : string) : Outcome bool * Cache :=
  let normalizedAddress := Js.toLowerCase address in
  if existsb (String.eqb normalizedAddress) PENDLE_PT_EXCEPTIONS then (Returns true, cache)
  else
    match loadTokenList env fs now cache chainId with
    | (NoArray, cache') => (Throws "tokenList.find is not a function", cache')
    | (Entries tokenList, cache') =>
        (Returns
           match Js.find (λ t, String.eqb (Js.toLowerCase (PendlePT.addressInfo t))
                                 normalizedAddress) tokenList with
           | Some token =>
               match PendlePT.metaIsPendlePT token with Some true => true | _ => false end
           | None => false
           end, cache')
    end.

(** [hasLocalImageOverride(chainId, address)] *)
Definition hasLocalImageOverride (env : Env) (fs : Fs.t) (chainId : Z) (address : string)
    : bool :=
  Fs.existsSync fs (Fs.join [cwd env; "images"; pretty chainId; Js.toLowerCase address]).

(** [isPendlePTWithLocalOverride(chainId, address)] *)
Definition isPendlePTWithLocalOverride (env : Env) (fs : Fs.t) (now : Z) (cache : Cache)
    (chainId : Z) (address : string) : Outcome bool * Cache :=
  if negb (hasLocalImageOverride env fs chainId address) then (Returns false, cache)
  else isPendlePT env fs now cache chainId address.

End PendlePTUtils.
(** ** providers/alchemy-provider.ts *)

Module AlchemyProvider.

Definition providerName : string := "alchemy".

Definition ignoreChains : list Z := [80094; 43114].

Definition chainIdToNetwork : list (Z * string) :=
  [ (1, "eth-mainnet"); (42161, "arb-mainnet"); (141, "sonic-mainnet");
    (80094, "berachain-mainnet"); (5000, "mantle-mainnet"); (59144, "linea-mainnet");
    (9745, "plasma-mainnet"); (60808, "bob-mainnet"); (999, "hyperliquid-mainnet");
    (8453, "base-mainnet"); (43114, "avax-mainnet"); (56, "bnb-mainnet") ].

(** [this.chainIdToNetwork[chainId]] *)
Fixpoint lookupNetwork (table : list (Z * string)) (chainId : Z) : option string :=
  match table with
  | [] => None
  | (c, network) :: rest => if c =? chainId then Some network else lookupNetwork rest chainId
  end.

(** The parsed body, as far as the provider reads it: whether
    [data.error] is there, and [data.result?.logo]. *)
Record Body := { error : bool; logo : option string }.

Inductive Response :=
| Unreachable
| Responded (ok : bool) (json : Outcome Body).

(** [fetch] is asked for the URL of the network and, in the body of the
    request, the lowercased address. *)
Record Env := {
  apiKey : string;
  fetch : string → string → Response;
  urlPathname : string → Outcome string;
}.

(** [baseUrl] with [{network}] and [{apiKey}] replaced, for a key that
    holds no [$]. *)
Definition endpoint (network key : string) : string :=
  "https://" +:+ network +:+ ".g.alchemy.com/v2/" +:+ key.

Definition getExtensionFromUrl (env : Env) (u : string) : string :=
  RemoteProvider.getExtensionFromUrl RemoteProvider.withGif "png" (urlPathname env) u.

Definition fetchImage (env : Env) (chainId : Z) (address : string) : option ImageResult :=
  if negb (Js.truthy (apiKey env)) then None
  else if existsb (Z.eqb chainId) ignoreChains then None
  else
    match lookupNetwork chainIdToNetwork chainId with
    | None => None
    | Some network =>
        match fetch env (endpoint network (apiKey env)) (Js.toLowerCase address) with
        | Unreachable => None
        | Responded ok json =>
            if negb ok then None
            else
              match json with
              | Throws _ => None
              | Returns data =>
                  if error data then None
                  else
                    match logo data with
                    | None => None
                    | Some l =>
                        if negb (Js.truthy l) then None
                        else Some {| url := Some l; provider := providerName;
                                     extension := getExtensionFromUrl env l;
                                     buffer := None; path := None |}
                    end
              end
        end
    end.

Definition isAvailable (env : Env) : bool := Js.truthy (apiKey env).

(** [chainId in this.chainIdToNetwork] *)
Definition isChainSupported (chainId : Z) : bool :=
  bool_decide (is_Some (lookupNetwork chainIdToNetwork chainId)).

(** [this.chainIdToNetwork[chainId] || null] *)
Definition getNetworkName (chainId : Z) : option string :=
  lookupNetwork chainIdToNetwork chainId.

End AlchemyProvider.

(** ** providers/oneinch-provider.ts *)

Module OneInchProvider.

Definition providerName : string := "1inch".
Definition baseUrl : string := "https://tokens.1inch.io/v1.2".
Definition cacheExpiry : Z := 5 * 60 * 1000.
Definition ignoreChains : list Z := [239; 80094; 60808; 1923].

(** A [OneInchToken], as far as the provider reads it. *)
Record OneInchToken := { logoURI : option string }.

(** A [OneInchTokenList]: its keys with their tokens, in the order of
    [Object.entries]; the keys are distinct. *)
Abbreviation OneInchTokenList := (list (string * OneInchToken)).

(** What [response.json()] gives: a throw, a value that is no object,
    or the token list. *)
Inductive Json :=
| NoObject
| TokenList (tokenList : OneInchTokenList).

Inductive Response :=
| Unreachable
| Responded (ok : bool) (json : Outcome Json).

Record Env := {
  fetch : string → Response;
  urlPathname : string → Outcome string;
}.

Abbreviation Cache := (gmap Z (OneInchTokenList * Z)).

(** [fetchTokenList(chainId)] with [now = Date.now()] *)
Definition fetchTokenList (env : Env) (now : Z) (cache : Cache) (chainId : Z)
    : option OneInchTokenList * Cache :=
  let refetch :=
    match fetch env (baseUrl +:+ "/" +:+ pretty chainId) with
    | Unreachable => (None, cache)
    | Responded ok json =>
        if negb ok then (None, cache)
        else
          match json with
          | Throws _ => (None, cache)
          | Returns NoObject => (None, cache)
          | Returns (TokenList tokenList) =>
              (Some tokenList, <[chainId := (tokenList, now)]> cache)
          end
    end in
  match cache !! chainId with
  | Some cached =>
      if now - cached.2 <? cacheExpiry then (Some cached.1, cache) else refetch
  | None => refetch
  end.

(** [tokenList[key]] *)
Fixpoint property (tokenList : OneInchTokenList) (key : string) : option OneInchToken :=
  match tokenList with
  | [] => None
  | (addr, token) :: rest => if String.eqb addr key then Some token else property rest key
  end.

(** The token the provider settles on: the one under the lowercased
    address, or else the first whose key equals it up to case. *)
Definition tokenFor (tokenList : OneInchTokenList) (address : string)
    : option OneInchToken :=
  let normalizedAddress := Js.toLowerCase address in
  match property tokenList normalizedAddress with
  | Some token => Some token
  | None =>
      match Js.find (λ entry : string * OneInchToken,
                       String.eqb (Js.toLowerCase entry.1) normalizedAddress) tokenList with
      | Some entry => Some entry.2
      | None => None
      end
  end.

Definition getExtensionFromUrl (env : Env) (u : string) : string :=
  RemoteProvider.getExtensionFromUrl RemoteProvider.withGif "png" (urlPathname env) u.

Definition fetchImage (env : Env) (now : Z) (cache : Cache)
    (chainId : Z) (address : string) : option ImageResult * Cache :=
  if existsb (Z.eqb chainId) ignoreChains then (None, cache)
  else
    match fetchTokenList env now cache chainId with
    | (None, cache') => (None, cache')
    | (Some tokenList, cache') =>
        match tokenFor tokenList address with
        | None => (None, cache')
        | Some token =>
            match logoURI token with
            | None => (None, cache')
            | Some logo =>
                if negb (Js.truthy logo) then (None, cache')
                else (Some {| url := Some logo; provider := providerName;
                              extension := getExtensionFromUrl env logo;
                              buffer := None; path := None |}, cache')
            end
        end
    end.

End OneInchProvider.

(** ** Sample data used to exercise the model *)

Module Sample.

Definition pngAt (who u : string) : ImageResult :=
  {| url := Some u; buffer := None; provider := who; extension := "png"; path := None |}.

Definition remote (who u : string) : ImageProvider :=
  {| Provider.name := who;
     Provider.isAvailable := true;
     Provider.fetchImage := λ _ _, Returns (Some (pngAt who u)) |}.

Definition throwing (who : string) : ImageProvider :=
  {| Provider.name := who;
     Provider.isAvailable := true;
     Provider.fetchImage := λ _ _, Throws "ECONNRESET" |}.

Definition providerA : ImageProvider := remote "coingecko" "https://a.example/logo.png".
Definition providerB : ImageProvider := remote "1inch" "https://b.example/logo.png".

(** Provider B (index 1) answers before provider A (index 0). *)
Definition bFaster (i : nat) : nat := match i with O => 900%nat | _ => 10%nat end.

Definition usdc : string := "0xA0b86991c6218b36c1d19D4a2e9Eb0cE3606eB48".

Definition emptyBucket : Storage.S3 :=
  {| Storage.s3Client := true; Storage.reachable := true; Storage.bucket := ∅ |}.

Definition pngBytes : list byte := [x89; x50; x4e; x47].

(** A token directory of the local images folder that holds a text
    file named like an image. *)
Definition notesFs : Fs.t :=
  {| Fs.dirs := {[ "images/1/0xabc" := ["image.txt"] ]};
     Fs.files := {[ "images/1/0xabc/image.txt" := [x68; x69] ]} |}.

Definition logoFs : Fs.t :=
  {| Fs.dirs := {[ "images/1/0xabc" := ["metadata.json"; "image.svg"] ]};
     Fs.files := {[ "images/1/0xabc/image.svg" := [x3c; x73] ]} |}.

(** A chain on which every token is flagged as a Pendle PT and the
    underlying asset of every PT is the PT [0x01]: the underlying asset is
    itself flagged. *)
Definition ptOfPt : PendlePT.Env :=
  {| PendlePT.loadTokenList := λ _,
       Some [ {| PendlePT.addressInfo := "0x01"; PendlePT.metaIsPendlePT := Some true |};
              {| PendlePT.addressInfo := "0x02"; PendlePT.metaIsPendlePT := Some true |} ];
     PendlePT.getRpcUrl := λ _, Some "https://rpc.example";
     PendlePT.readSY := λ _ _, Returns (Some "0x5e");
     PendlePT.readAssetInfo := λ _ _, Returns (Some "0x01");
     PendlePT.s3 := emptyBucket |}.

(** A concrete environment: the bucket, the local images folder, a
    clock, the registry and the image hosts. *)
Record World := {
  clock : Z;
  s3 : Storage.S3;
  images : Fs.t;
  registry : Z → Sync.RegistryResponse;
  remotes : list ImageProvider;
  imageHost : string → Sync.ImageResponse;
}.

Definition withS3 (w : World) (s : Storage.S3) : World :=
  {| clock := clock w; s3 := s; images := images w; registry := registry w;
     remotes := remotes w; imageHost := imageHost w |}.

Definition withClock (w : World) (t : Z) : World :=
  {| clock := t; s3 := s3 w; images := images w; registry := registry w;
     remotes := remotes w; imageHost := imageHost w |}.

Definition env : Sync.Env :=
  {| Sync.World := World;
     Sync.dateNow := λ w, (clock w, w);
     Sync.toISOString := λ t, pretty t;
     Sync.STORAGE_MODE := "s3";
     Sync.fetchTokens := λ chain w, (registry w chain, w);
     Sync.checkImageExistsInStorage := λ chain a w,
       (Returns (Storage.checkImageExistsInS3 (s3 w) chain a), w);
     Sync.uploadImageToStorage := λ chain a bytes ext meta w,
       let '(ok, s') := Storage.uploadImageToS3 (s3 w) chain a bytes ext meta in
       (Returns ok, withS3 w s');
     Sync.imageProviders := λ w, LocalImagesProvider.make (images w) "images" :: remotes w;
     Sync.latency := λ _ i, i;
     Sync.fetchImageUrl := λ u w, (imageHost w u, w);
     Sync.delay := λ ms w, withClock w (clock w + ms) |}.

Definition token (a : string) : Sync.TokenInfo :=
  {| Sync.address := Some a; Sync.symbol := "TKN"; Sync.tokenName := "Token";
     Sync.decimals := 18 |}.

(** Chain 999 has no tokens; chain 1 lists three tokens: one with a
    local image, one known to provider A, one whose host is down; for
    chain 7 the registry answers [null]. *)
Definition world0 : World :=
  {| clock := 1000000;
     s3 := emptyBucket;
     images := logoFs;
     registry := λ chain,
       if chain =? 1
       then Sync.RegistryResponded true
              (Returns (Sync.JsonArray [token "0xABC"; token "0xDEF"; token "0x123"]))
       else if chain =? 7
       then Sync.RegistryResponded true (Returns Sync.JsonNull)
       else Sync.RegistryResponded true (Returns (Sync.JsonArray []));
     remotes :=
       [ {| Provider.name := "coingecko"; Provider.isAvailable := true;
            Provider.fetchImage := λ _ a,
              if String.eqb a "0xdef"
              then Returns (Some (pngAt "coingecko" "https://a.example/def.png"))
              else if String.eqb a "0x123"
              then Returns (Some (pngAt "coingecko" "https://down.example/123.png"))
              else Returns None |} ];
     imageHost := λ u,
       if String.eqb u "https://a.example/def.png"
       then Sync.ImageResponded true (Returns pngBytes)
       else Sync.ImageUnreachable |}.

(** A status map in which chain 1 completed at time 940001 and chain 2
    at time 939999. *)
Definition finishedAt (chain t : Z) : Sync.SyncStatus :=
  {| Sync.chainId := chain; Sync.status := Sync.completed; Sync.startTime := t - 500;
     Sync.endTime := Some t; Sync.progress := None;
     Sync.result :=
       Some {| Sync.resultChainId := chain; Sync.totalTokens := 0;
               Sync.existingImages := 0; Sync.migratedFromLocal := 0;
               Sync.downloadedImages := 0; Sync.failedDownloads := 0;
               Sync.duration := 500; Sync.details := [] |};
     Sync.error := None; Sync.remainingTime := None |}.

Definition statuses0 : gmap Z Sync.SyncStatus :=
  {[ 1 := finishedAt 1 940001; 2 := finishedAt 2 939999 ]}.

(** The sample environment with a bucket that cannot be reached, and
    with a storage service that throws. *)
Definition offline (w : World) : World :=
  withS3 w {| Storage.s3Client := true; Storage.reachable := false;
              Storage.bucket := Storage.bucket (s3 w) |}.

Definition envThrowing : Sync.Env :=
  {| Sync.World := World;
     Sync.dateNow := Sync.dateNow env;
     Sync.toISOString := Sync.toISOString env;
     Sync.STORAGE_MODE := Sync.STORAGE_MODE env;
     Sync.fetchTokens := Sync.fetchTokens env;
     Sync.checkImageExistsInStorage := Sync.checkImageExistsInStorage env;
     Sync.uploadImageToStorage := λ _ _ _ _ _ w, (Throws "EPIPE", w);
     Sync.imageProviders := Sync.imageProviders env;
     Sync.latency := Sync.latency env;
     Sync.fetchImageUrl := Sync.fetchImageUrl env;
     Sync.delay := Sync.delay env |}.

Definition missing (a : string) : LocalImagesProvider.LocalCheck :=
  {| LocalImagesProvider.localChainId := 1; LocalImagesProvider.localAddress := a;
     LocalImagesProvider.hasLocal := false |}.

Definition failedDetail (a : string) (by_ : option string) : Sync.Detail :=
  {| Sync.detailAddress := a; Sync.detailStatus := Sync.st_failed;
     Sync.detailProvider := by_ |}.


Definition uploadMeta : Storage.UploadMetadata :=
  {| Storage.metaProvider := "coingecko";
     Storage.downloadDate := "2025-01-01T00:00:00.000Z";
     Storage.originalUrl := Some "https://a.example/logo.png" |}.

End Sample.

(** ** More sample data *)

Module Scenario.

(** A sync of [chain] that started at [t] and is still running. *)
Definition runningSince (chain t : Z) : Sync.SyncStatus :=
  {| Sync.chainId := chain; Sync.status := Sync.running; Sync.startTime := t;
     Sync.endTime := None;
     Sync.progress :=
       Some {| Sync.phase := "downloading missing images"; Sync.current := 0;
               Sync.total := 40 |};
     Sync.result := None; Sync.error := None; Sync.remainingTime := Some 60000 |}.

(** Chain 1 has been running for 100 seconds at the time of
    [Sample.world0]; chain 2 has been running for 10 seconds. *)
Definition stuck : gmap Z Sync.SyncStatus :=
  {[ 1 := runningSince 1 900000; 2 := runningSince 2 990000 ]}.

End Scenario.

(** A disk without a local-storage directory, for a service without S3
    credentials.  In this sample the metadata file holds the extension
    only. *)
Module LocalScenario.

Definition env : LocalStorage.Env :=
  {| LocalStorage.LOCAL_STORAGE_DIR := "local-storage";
     LocalStorage.stringify := λ ext _, list_byte_of_string ext;
     LocalStorage.parseExtension := λ content,
       Returns (Some (string_of_list_byte content)) |}.

Definition store : LocalStorage.Store :=
  {| LocalStorage.s3 :=
       {| Storage.s3Client := false; Storage.reachable := false; Storage.bucket := ∅ |};
     LocalStorage.disk := {| Fs.dirs := ∅; Fs.files := ∅ |} |}.

End LocalScenario.

(** The Pendle API with one asset on chain 1, and a network that is
    down. *)
Module PendleScenario.

Definition ptAsset : PendleProvider.PendleAsset :=
  {| PendleProvider.assetAddress := "0xAbC1";
     PendleProvider.assetSymbol := "PT-sUSDe";
     PendleProvider.proIcon := Some "https://storage.example/pt-susde.svg" |}.

Definition pathOf (u : string) : Outcome string :=
  if String.eqb u "https://storage.example/pt-susde.svg"
  then Returns "/pt-susde.svg" else Throws "Invalid URL".

Definition online : PendleProvider.Env :=
  {| PendleProvider.fetch := λ _,
       PendleProvider.Responded true (Returns (PendleProvider.Assets [ptAsset]));
     PendleProvider.urlPathname := pathOf |}.

Definition down : PendleProvider.Env :=
  {| PendleProvider.fetch := λ _, PendleProvider.Unreachable;
     PendleProvider.urlPathname := pathOf |}.

End PendleScenario.

(** Sim Dune answers an array whose only entry is for chain 10. *)
Module SimDuneScenario.

Definition onOptimism : SimDuneProvider.SimDuneTokenInfo :=
  {| SimDuneProvider.chain_id := Some 10;
     SimDuneProvider.logo_uri := Some "https://cdn.example/op-usdc.png" |}.

Definition env : SimDuneProvider.Env :=
  {| SimDuneProvider.apiKey := "sim-key";
     SimDuneProvider.fetch := λ _ _,
       SimDuneProvider.Responded true
         (Returns {| SimDuneProvider.error := None;
                     SimDuneProvider.data := SimDuneProvider.DataArray [onOptimism] |});
     SimDuneProvider.urlPathname := λ _, Returns "/op-usdc.png" |}.

End SimDuneScenario.

(** An images folder that holds nothing yet. *)
Module MigrationScenario.

Definition emptyDisk : Fs.t := {| Fs.dirs := ∅; Fs.files := ∅ |}.

End MigrationScenario.

(** [startSync] for [chain] in the sample environment, followed by [n]
    steps of the [performSync] it spawned; the state is evaluated after
    every step. *)
Ltac evaluate_state H :=
  lazymatch type of H with
  | Pipeline.reachable ?E ?s =>
      let s' := eval vm_compute in s in
      let H' := fresh in
      assert (H' : Pipeline.reachable E s') by (vm_cast_no_check H);
      clear H; rename H' into H
  end.

Ltac sample_run H n chain :=
  lazymatch n with
  | O =>
      pose proof (Pipeline.reachable_step Sample.env _ _ _
                    (Pipeline.reachable_initial Sample.env Sample.world0)
                    (Pipeline.step_startSync Sample.env chain _)) as H;
      evaluate_state H
  | S ?m =>
      sample_run H m chain;
      eapply Pipeline.reachable_step in H;
      [|eapply (Pipeline.step_resume Sample.env 0%nat chain);
        [vm_compute; reflexivity|vm_compute; reflexivity]];
      evaluate_state H
  end.

(* ===================================================================== *)
(** * Part II: properties *)
(* ===================================================================== *)

(** ** Promise.all fills every slot, whatever the order of settlement *)

Section PromiseAll.
Context {A : Type}.
Implicit Types (slots : list (option A)) (ev : list (nat * A)).

Lemma fillSlots_length slots ev :
  length (foldl Manager.fillSlot slots ev) = length slots.
Proof.
  revert slots. induction ev as [|s ev IH]; intros slots; simpl; [done|].
  rewrite IH. apply length_insert.
Qed.

Lemma fillSlots_untouched slots ev (j : nat) :
  j ∉ ev.*1 → foldl Manager.fillSlot slots ev !! j = slots !! j.
Proof.
  revert slots. induction ev as [|[i v] ev IH]; intros slots Hj; simpl; [done|].
  rewrite fmap_cons in Hj. apply not_elem_of_cons in Hj as [Hne Hj].
  rewrite IH by done. unfold Manager.fillSlot. simpl in *.
  by rewrite list_lookup_insert_ne.
Qed.

Lemma fillSlots_written slots ev (j : nat) (v : A) :
  (j < length slots)%nat →
  (j, v) ∈ ev →
  (∀ v', (j, v') ∈ ev → v' = v) →
  foldl Manager.fillSlot slots ev !! j = Some (Some v).
Proof.
  revert slots. induction ev as [|[i w] ev IH]; intros slots Hlt Hin Huniq; simpl.
  { by apply elem_of_nil in Hin. }
  destruct (decide (j ∈ ev.*1)) as [Hlater|Hlater].
  - apply list_elem_of_fmap in Hlater as [[j' v'] [-> Hin']]. simpl in *.
    assert (v' = v) as -> by (apply Huniq; by right).
    apply IH; [unfold Manager.fillSlot; by rewrite length_insert|done|].
    intros v'' ?. apply Huniq. by right.
  - rewrite fillSlots_untouched by done.
    apply elem_of_cons in Hin as [Heq|Hin].
    + injection Heq as -> ->. unfold Manager.fillSlot; simpl.
      by apply list_lookup_insert_eq.
    + exfalso. apply Hlater. apply list_elem_of_fmap. by exists (j, v).
Qed.

Lemma promiseAll_resolves (values : list A) ev :
  ev ≡ₚ imap (λ i v, (i, v)) values →
  Manager.promiseAll (length values) ev = Some values.
Proof.
  intros Hperm. unfold Manager.promiseAll.
  assert (foldl Manager.fillSlot (replicate (length values) None) ev
          = Some <$> values) as ->.
  { apply list_eq. intros j. rewrite list_lookup_fmap.
    destruct (values !! j) as [v|] eqn:Hj; simpl.
    - apply fillSlots_written.
      + rewrite length_replicate. by eapply lookup_lt_Some.
      + rewrite Hperm. apply list_elem_of_lookup. exists j.
        by rewrite list_lookup_imap, Hj.
      + intros v' Hin. rewrite Hperm in Hin.
        apply list_elem_of_lookup in Hin as [k Hk].
        rewrite list_lookup_imap in Hk.
        destruct (values !! k) eqn:Hk'; simpl in Hk; [|done].
        injection Hk as -> ->. congruence.
    - apply lookup_ge_None. rewrite fillSlots_length, length_replicate.
      by apply lookup_ge_None. }
  by apply mapM_fmap_Some.
Qed.

End PromiseAll.

(** ** The provider chain resolver *)

Section Resolver.
Implicit Types (p : ImageProvider) (providers : list ImageProvider).

Lemma joinSettled_resolves latency (promises : list Manager.Settled) :
  Manager.joinSettled latency promises = Some (Manager.firstResult promises).
Proof.
  unfold Manager.joinSettled.
  rewrite promiseAll_resolves; [done|].
  unfold Manager.settleOrder. by rewrite merge_sort_Permutation.
Qed.

Lemma fetchImage_resolves latency providers chainId address :
  Manager.fetchImage latency providers chainId address
  = Some (Manager.firstResult (Manager.settle chainId address <$> providers)).
Proof.
  unfold Manager.fetchImage. by rewrite joinSettled_resolves.
Qed.

Lemma settle_result_Some chainId address p r :
  Manager.result (Manager.settle chainId address p) = Some r
  ↔ Manager.produced chainId address p r.
Proof.
  unfold Manager.settle, Manager.produced.
  destruct (isAvailable p); simpl; [|by split; [|intros []]].
  destruct (Provider.fetchImage p chainId address); simpl;
    split; try done; try (intros []; congruence); intros; split; congruence.
Qed.

Lemma settle_result_None chainId address p :
  Manager.result (Manager.settle chainId address p) = None
  ↔ Manager.absent chainId address p.
Proof.
  unfold Manager.settle, Manager.absent.
  destruct (isAvailable p); simpl; [|by split; [left|]].
  destruct (Provider.fetchImage p chainId address) as [r|msg]; simpl; split.
  - intros ->. by right; right.
  - intros [?|[[? ?]|?]]; congruence.
  - intros _. right; left. by exists msg.
  - done.
Qed.

Lemma firstResult_Some (results : list Manager.Settled) r :
  Manager.firstResult results = Some r
  ↔ ∃ i s, results !! i = Some s ∧ Manager.result s = Some r ∧
      ∀ j s', (j < i)%nat → results !! j = Some s' → Manager.result s' = None.
Proof.
  induction results as [|s results IH]; simpl.
  { split; [done|]. by intros (i & s & Hi & _). }
  destruct (Manager.result s) as [img|] eqn:Hs.
  - split.
    + intros [= ->]. exists 0%nat, s. split_and!; [done..|]. intros; lia.
    + intros (i & s0 & Hi & Hr & Hbefore). destruct i as [|i].
      * simpl in Hi. congruence.
      * specialize (Hbefore 0%nat s ltac:(lia) eq_refl). congruence.
  - rewrite IH. split.
    + intros (i & s0 & Hi & Hr & Hbefore). exists (S i), s0. split_and!; [done..|].
      intros [|j] s' Hj Hs'; simpl in Hs'; [congruence|].
      eapply Hbefore; [|done]. lia.
    + intros (i & s0 & Hi & Hr & Hbefore). destruct i as [|i].
      * simpl in Hi. congruence.
      * exists i, s0. split_and!; [done..|].
        intros j s' Hj Hs'. apply (Hbefore (S j) s'); [lia|done].
Qed.

Lemma firstResult_None (results : list Manager.Settled) :
  Manager.firstResult results = None
  ↔ Forall (λ s, Manager.result s = None) results.
Proof.
  induction results as [|s results IH]; simpl.
  { split; [by constructor|done]. }
  destruct (Manager.result s) eqn:Hs.
  - split; [done|]. intros H. apply Forall_cons in H as [? _]. congruence.
  - rewrite IH. split; [by constructor|]. intros H. by apply Forall_cons in H as [_ ?].
Qed.

Lemma fetchImage_Some latency providers chainId address r :
  Manager.fetchImage latency providers chainId address = Some (Some r) ↔
  ∃ i p, providers !! i = Some p ∧ Manager.produced chainId address p r ∧
    ∀ j q, (j < i)%nat → providers !! j = Some q → Manager.absent chainId address q.
Proof.
  rewrite fetchImage_resolves. split.
  - intros [= Hfirst]. apply firstResult_Some in Hfirst as (i & s & Hi & Hr & Hbefore).
    rewrite list_lookup_fmap in Hi.
    destruct (providers !! i) as [p|] eqn:Hp; simpl in Hi; [|done].
    injection Hi as <-. exists i, p. split_and!; [done|by apply settle_result_Some|].
    intros j q Hj Hq. apply settle_result_None. apply (Hbefore j); [done|].
    by rewrite list_lookup_fmap, Hq.
  - intros (i & p & Hp & Hr & Hbefore). f_equal. apply firstResult_Some.
    exists i, (Manager.settle chainId address p). split_and!.
    + by rewrite list_lookup_fmap, Hp.
    + by apply settle_result_Some.
    + intros j s' Hj Hs'. rewrite list_lookup_fmap in Hs'.
      destruct (providers !! j) as [q|] eqn:Hq; simpl in Hs'; [|done].
      injection Hs' as <-. apply settle_result_None. by eapply Hbefore.
Qed.

(** C1. [ImageProviderManager.fetchImage] waits for all provider promises
    and resolves, for every settlement order, with the result of the
    earliest registered provider that produced one; of two providers that
    both produce a result the earlier registered one is returned, whatever
    their response times. *)
Theorem fetchImage_earliest_registered latency providers chainId address :
  (∃ outcome,
      Manager.fetchImage latency providers chainId address = Some outcome ∧
      ∀ latency', Manager.fetchImage latency' providers chainId address = Some outcome) ∧
  (∀ r, Manager.fetchImage latency providers chainId address = Some (Some r) ↔
      ∃ i p, providers !! i = Some p ∧ Manager.produced chainId address p r ∧
        ∀ j q, (j < i)%nat → providers !! j = Some q →
               Manager.absent chainId address q) ∧
  (∀ i j pA pB rA rB,
      (i < j)%nat → providers !! i = Some pA → providers !! j = Some pB →
      Manager.produced chainId address pA rA →
      Manager.produced chainId address pB rB →
      (∀ k q, (k < i)%nat → providers !! k = Some q →
              Manager.absent chainId address q) →
      Manager.fetchImage latency providers chainId address = Some (Some rA)).
Proof.
  split_and!.
  - eexists. split; [apply fetchImage_resolves|]. intros. apply fetchImage_resolves.
  - apply fetchImage_Some.
  - intros i j pA pB rA rB _ HpA _ HrA _ Hbefore. apply fetchImage_Some. by exists i, pA.
Qed.

(** B answers first, A is registered first: the result is A's. *)
Lemma fetchImage_earliest_registered_witness :
  Manager.fetchImage Sample.bFaster [Sample.providerA; Sample.providerB] 1 Sample.usdc
  = Some (Some (Sample.pngAt "coingecko" "https://a.example/logo.png")).
Proof.
  apply (proj2 (proj2 (fetchImage_earliest_registered Sample.bFaster
           [Sample.providerA; Sample.providerB] 1 Sample.usdc))
         0%nat 1%nat Sample.providerA Sample.providerB
         (Sample.pngAt "coingecko" "https://a.example/logo.png")
         (Sample.pngAt "1inch" "https://b.example/logo.png")).
  - lia.
  - reflexivity.
  - reflexivity.
  - split; reflexivity.
  - split; reflexivity.
  - intros k q Hk. lia.
Defined.

(** C4. A provider whose [fetchImage] throws is treated as one that
    returned absent: the resolver still returns the result of another
    provider, and it returns absent exactly when every registered
    provider settled to absent (unavailable, threw, or returned null). *)
Theorem fetchImage_tolerates_throwing latency providers chainId address :
  (∀ before p after msg,
      providers = (before ++ p :: after)%list →
      Provider.fetchImage p chainId address = Throws msg →
      Manager.fetchImage latency providers chainId address
      = Manager.fetchImage latency
          (before ++ Manager.returningAbsent p :: after)%list chainId address) ∧
  (∀ i p msg j q r,
      providers !! i = Some p →
      Provider.fetchImage p chainId address = Throws msg →
      providers !! j = Some q →
      Manager.produced chainId address q r →
      (∃ r', Manager.fetchImage latency providers chainId address = Some (Some r')) ∧
      ((∀ k q', (k < j)%nat → providers !! k = Some q' →
                Manager.absent chainId address q') →
       Manager.fetchImage latency providers chainId address = Some (Some r))) ∧
  (Manager.fetchImage latency providers chainId address = Some None ↔
   Forall (Manager.absent chainId address) providers).
Proof.
  assert (Manager.fetchImage latency providers chainId address = Some None ↔
          Forall (Manager.absent chainId address) providers) as Hnone.
  { rewrite fetchImage_resolves. split.
    - intros [= H]. apply firstResult_None in H.
      rewrite Forall_fmap in H. eapply Forall_impl; [exact H|].
      intros p Hp. by apply settle_result_None.
    - intros H. f_equal. apply firstResult_None. rewrite Forall_fmap.
      eapply Forall_impl; [exact H|]. intros p Hp. by apply settle_result_None. }
  split_and!.
  - intros before p after msg -> Hthrow. rewrite !fetchImage_resolves.
    rewrite !fmap_app, !fmap_cons. do 4 f_equal.
    unfold Manager.settle, Manager.returningAbsent; simpl.
    rewrite Hthrow. by destruct (isAvailable p).
  - intros i p msg j q r Hp Hthrow Hq Hr. split.
    + revert Hnone. rewrite fetchImage_resolves.
      destruct (Manager.firstResult _) as [r'|]; intros Hnone.
      * by exists r'.
      * destruct Hnone as [Hall _]. specialize (Hall eq_refl).
        rewrite Forall_lookup in Hall.
        specialize (Hall j q Hq). destruct Hr as [Hav Hret].
        destruct Hall as [?|[[? ?]|?]]; congruence.
    + intros Hbefore. apply fetchImage_Some. by exists j, q.
  - exact Hnone.
Qed.

End Resolver.

(** ** Storage keys ignore the case of the address *)

Section StorageKeys.
Implicit Types (s : Storage.S3) (a b : string).

Lemma bulkCheckS3 tokenList s :
  Storage.bulkCheckImagesInStorage Storage.checkImageExistsInStorageS3 tokenList s
  = ((λ token,
        {| Storage.checkChainId := Storage.tokenChainId token;
           Storage.checkAddress := Storage.tokenAddress token;
           Storage.exists_ :=
             Storage.checkImageExistsInS3 s (Storage.tokenChainId token)
               (Storage.tokenAddress token) |}) <$> tokenList, s).
Proof.
  induction tokenList as [|token tokenList IH]; [done|].
  cbn [Storage.bulkCheckImagesInStorage].
  unfold Storage.checkImageExistsInStorageS3 at 1. by rewrite IH.
Qed.

Lemma lowercaseTokens_lookup chain tokens tokenList (i : nat) token a :
  Pipeline.lowercaseTokens chain tokens = Returns tokenList →
  tokens !! i = Some token → Sync.address token = Some a →
  tokenList !! i = Some {| Storage.tokenChainId := chain;
                           Storage.tokenAddress := Js.toLowerCase a |}.
Proof.
  revert tokenList i. induction tokens as [|t tokens IH]; intros tokenList i; [done|].
  simpl. destruct (Sync.address t) as [a'|] eqn:Ha'; [|done].
  destruct (Pipeline.lowercaseTokens chain tokens) as [l|]; [|done].
  intros [= <-]. destruct i as [|i]; simpl.
  - intros [= ->] Ha. by rewrite Ha in Ha'; injection Ha' as ->.
  - intros Hi Ha. by eapply IH.
Qed.

Lemma putMetadata_extension ext meta :
  Storage.putMetadata ext meta !! "extension" = Some ext.
Proof.
  unfold Storage.putMetadata.
  destruct (Storage.originalUrl meta) as [u|]; [destruct (Js.truthy u)|];
    by simplify_map_eq.
Qed.

Lemma upload_stored s chainId a bytes ext meta s' :
  Storage.uploadImageToS3 s chainId a bytes ext meta = (true, s') →
  Storage.s3Client s' = true ∧ Storage.reachable s' = true ∧
  Storage.bucket s' !! Storage.key chainId a
  = Some {| Storage.Body := Some bytes;
            Storage.ContentType := Some (Storage.getMimeType ext);
            Storage.Metadata := Storage.putMetadata ext meta |}.
Proof.
  unfold Storage.uploadImageToS3.
  destruct (Storage.s3Client s) eqn:Hclient; simpl; [|done].
  destruct (Storage.reachable s) eqn:Hreach; [|done].
  intros [= <-]. simpl. split_and!; [done..|]. apply lookup_insert_eq.
Qed.

(** C8. Two addresses that differ only in letter case have the same
    object key, so the existence check, the read and the write of the
    bucket treat them alike: what is written under one casing is found
    and read under the other; a bulk check answers the same [exists] for
    both, and the bulk check of [performSync], which lowercases the
    addresses first, reports the same entry for both. *)
Theorem storage_key_ignores_case chainId a b :
  Js.toLowerCase a = Js.toLowerCase b →
  Storage.key chainId a = Storage.key chainId b ∧
  (∀ s, Storage.checkImageExistsInS3 s chainId a
        = Storage.checkImageExistsInS3 s chainId b) ∧
  (∀ s, Storage.getImageFromS3 s chainId a = Storage.getImageFromS3 s chainId b) ∧
  (∀ s bytes ext meta,
      Storage.uploadImageToS3 s chainId a bytes ext meta
      = Storage.uploadImageToS3 s chainId b bytes ext meta) ∧
  (∀ s bytes ext meta s',
      Storage.uploadImageToS3 s chainId a bytes ext meta = (true, s') →
      Storage.checkImageExistsInS3 s' chainId b = true ∧
      ∃ img, Storage.getImageFromS3 s' chainId b = Some img ∧
             Storage.storedBuffer img = bytes) ∧
  (∀ s tokenList (i j : nat) ea eb,
      tokenList !! i = Some {| Storage.tokenChainId := chainId;
                               Storage.tokenAddress := a |} →
      tokenList !! j = Some {| Storage.tokenChainId := chainId;
                               Storage.tokenAddress := b |} →
      (Storage.bulkCheckImagesInStorage Storage.checkImageExistsInStorageS3
         tokenList s).1 !! i = Some ea →
      (Storage.bulkCheckImagesInStorage Storage.checkImageExistsInStorageS3
         tokenList s).1 !! j = Some eb →
      Storage.exists_ ea = Storage.exists_ eb) ∧
  (∀ s tokens tokenList (i j : nat) ta tb,
      Pipeline.lowercaseTokens chainId tokens = Returns tokenList →
      tokens !! i = Some ta → Sync.address ta = Some a →
      tokens !! j = Some tb → Sync.address tb = Some b →
      ∃ entry,
        (Storage.bulkCheckImagesInStorage Storage.checkImageExistsInStorageS3
           tokenList s).1 !! i = Some entry ∧
        (Storage.bulkCheckImagesInStorage Storage.checkImageExistsInStorageS3
           tokenList s).1 !! j = Some entry ∧
        Storage.checkAddress entry = Js.toLowerCase a).
Proof.
  intros Hcase.
  assert (Storage.key chainId a = Storage.key chainId b) as Hkey.
  { unfold Storage.key. by rewrite Hcase. }
  split_and!.
  - done.
  - intros s. unfold Storage.checkImageExistsInS3. by rewrite Hkey.
  - intros s. unfold Storage.getImageFromS3. by rewrite Hkey.
  - intros s bytes ext meta. unfold Storage.uploadImageToS3. by rewrite Hkey.
  - intros s bytes ext meta s' Hupload.
    destruct (upload_stored s chainId a bytes ext meta s' Hupload)
      as (Hclient & Hreach & Hobject).
    rewrite Hkey in Hobject.
    unfold Storage.checkImageExistsInS3, Storage.getImageFromS3, Storage.sendGet.
    rewrite Hclient, Hreach, Hobject. cbn [negb Storage.Body Storage.Metadata].
    split; [done|]. rewrite putMetadata_extension.
    destruct (Js.truthy ext); by eexists.
  - intros s tokenList i j ea eb Hi Hj. rewrite bulkCheckS3. simpl.
    rewrite !list_lookup_fmap, Hi, Hj. simpl. intros [= <-] [= <-]. simpl.
    unfold Storage.checkImageExistsInS3. by rewrite Hkey.
  - intros s tokens tokenList i j ta tb Hlow Hi Ha Hj Hb.
    rewrite bulkCheckS3. simpl. rewrite !list_lookup_fmap.
    rewrite (lowercaseTokens_lookup chainId tokens tokenList i ta a Hlow Hi Ha).
    rewrite (lowercaseTokens_lookup chainId tokens tokenList j tb b Hlow Hj Hb).
    simpl. rewrite <-Hcase. by eexists.
Qed.

(** An image written for [0xABC] is found and read under [0xabc]. *)
Lemma storage_key_ignores_case_witness :
  Storage.checkImageExistsInS3
    (Storage.uploadImageToS3 Sample.emptyBucket 1 "0xABC" Sample.pngBytes "png"
       Sample.uploadMeta).2 1 "0xabc" = true ∧
  ∃ img,
    Storage.getImageFromS3
      (Storage.uploadImageToS3 Sample.emptyBucket 1 "0xABC" Sample.pngBytes "png"
         Sample.uploadMeta).2 1 "0xabc" = Some img ∧
    Storage.storedBuffer img = Sample.pngBytes.
Proof.
  apply (proj1 (proj2 (proj2 (proj2 (proj2
           (storage_key_ignores_case 1 "0xABC" "0xabc" eq_refl)))))
         Sample.emptyBucket Sample.pngBytes "png" Sample.uploadMeta).
  vm_compute. reflexivity.
Defined.

End StorageKeys.

(** ** The shape of the results the providers build *)

Section ResultShape.

Lemma getExtensionFromUrl_known known fallback urlPathname u :
  RemoteProvider.getExtensionFromUrl known fallback urlPathname u ∈ fallback :: known.
Proof.
  unfold RemoteProvider.getExtensionFromUrl.
  destruct (urlPathname u) as [pathname|]; [|by left].
  destruct (existsb _ known) eqn:Hex; [|by left].
  apply existsb_exists in Hex as (x & Hin & Heq).
  apply String.eqb_eq in Heq. subst x. right. by apply list_elem_of_In.
Qed.

Lemma find_elem_of {A} (pred : A → bool) (l : list A) x :
  Js.find pred l = Some x → x ∈ l ∧ pred x = true.
Proof.
  unfold Js.find. intros H. apply find_some in H as [Hin Hp].
  split; [by apply list_elem_of_In|done].
Qed.

Lemma local_result fs baseImagePath chainId address r :
  LocalImagesProvider.fetchImage fs baseImagePath chainId address = Some r →
  ∃ entries imageFile content,
    Fs.readdir fs (Fs.join [baseImagePath; pretty chainId; Js.toLowerCase address])
      = Returns entries ∧
    imageFile ∈ entries ∧ Js.startsWith "image." imageFile = true ∧
    Js.truthy (Js.afterLastDot imageFile) = true ∧
    r = {| buffer := Some content; provider := "local";
           extension := Js.afterLastDot imageFile;
           path := Some (Fs.join [Fs.join [baseImagePath; pretty chainId;
                                           Js.toLowerCase address]; imageFile]);
           url := None |}.
Proof.
  unfold LocalImagesProvider.fetchImage.
  destruct (Fs.existsSync _ _); simpl; [|done].
  destruct (Fs.readdir _ _) as [entries|]; [|done].
  destruct (Js.find _ entries) as [imageFile|] eqn:Hfind; [|done].
  apply find_elem_of in Hfind as [Hin Hprefix].
  destruct (Js.truthy (Js.afterLastDot imageFile)) eqn:Hext; simpl; [|done].
  destruct (Fs.readFile _ _) as [content|]; [|done].
  intros [= <-]. by exists entries, imageFile, content.
Qed.

Lemma urlExtensions_closed e : e ∈ Shape.urlExtensions → e ∈ Shape.closedSet.
Proof.
  unfold Shape.urlExtensions, Shape.closedSet. intros Hin.
  repeat (apply elem_of_cons in Hin as [->|Hin];
          [repeat (first [by left|right])|]).
  by apply elem_of_nil in Hin.
Qed.

Lemma orDefault_truthy o fallback :
  Js.truthy fallback = true → Js.truthy (Js.orDefault o fallback) = true.
Proof.
  intros Hfallback. unfold Js.orDefault. destruct o as [x|]; [|done].
  by destruct (Js.truthy x) eqn:Hx.
Qed.

(** C9, as the code has it.  Every result a provider builds populates
    exactly one of [buffer] and [url] and carries a non-empty extension.
    The URL-based providers draw it from png, jpg, jpeg, webp, svg, gif
    (coingecko: without gif), all in the closed set; the Local provider
    takes whatever follows the last dot of the on-disk file name, with no
    closed set; the underlying-asset provider passes on the extension of
    the result it re-tags, or of the stored object. *)
Theorem imageResult_shape :
  (∀ fs baseImagePath chainId address r,
      LocalImagesProvider.fetchImage fs baseImagePath chainId address = Some r →
      Shape.exactlyOneOfBufferUrl r ∧ is_Some (buffer r) ∧
      Js.truthy (extension r) = true ∧
      ∃ entries imageFile,
        Fs.readdir fs (Fs.join [baseImagePath; pretty chainId; Js.toLowerCase address])
          = Returns entries ∧
        imageFile ∈ entries ∧ Js.startsWith "image." imageFile = true ∧
        extension r = Js.afterLastDot imageFile) ∧
  (∀ env chainId address r,
      CoinGeckoProvider.fetchImage env chainId address = Some r →
      Shape.exactlyOneOfBufferUrl r ∧ is_Some (url r) ∧
      extension r ∈ ["png"; "jpg"; "jpeg"; "webp"; "svg"] ∧
      extension r ∈ Shape.closedSet) ∧
  (∀ build,
      build ∈ [RemoteProvider.alchemy; RemoteProvider.simDune; RemoteProvider.oneInch;
               RemoteProvider.pendle; RemoteProvider.tokenLists] →
      ∀ urlPathname logo r,
        build urlPathname logo = Some r →
        Shape.exactlyOneOfBufferUrl r ∧ is_Some (url r) ∧
        extension r ∈ Shape.urlExtensions ∧ extension r ∈ Shape.closedSet) ∧
  (∀ env callback chainId address r,
      (∀ c a d, callback c a = Some (Some d) →
                Shape.exactlyOneOfBufferUrl d ∧ Js.truthy (extension d) = true) →
      PendlePT.fetchImage env (Some callback) chainId address = Some (Some r) →
      Shape.exactlyOneOfBufferUrl r ∧ Js.truthy (extension r) = true ∧
      provider r = "pendle-pt-underlying").
Proof.
  assert (∀ who fallback urlPathname logo r,
      fallback ∈ Shape.urlExtensions →
      RemoteProvider.resultFor who RemoteProvider.withGif fallback urlPathname logo
        = Some r →
      Shape.exactlyOneOfBufferUrl r ∧ is_Some (url r) ∧
      extension r ∈ Shape.urlExtensions ∧ extension r ∈ Shape.closedSet) as Hremote.
  { intros who fallback urlPathname logo r Hfallback. unfold RemoteProvider.resultFor.
    destruct logo as [[u|]|]; try done.
    destruct (Js.truthy u); simpl; [|done].
    intros [= <-]. simpl.
    assert (RemoteProvider.getExtensionFromUrl RemoteProvider.withGif fallback
              urlPathname u ∈ Shape.urlExtensions) as Hext.
    { pose proof (getExtensionFromUrl_known RemoteProvider.withGif fallback
                    urlPathname u) as Hin.
      apply elem_of_cons in Hin as [->|Hin]; done. }
    split_and!; [right; by split; [|eexists] |by eexists|done|].
    by apply urlExtensions_closed. }
  split_and!.
  - intros fs base chainId address r Hr.
    apply local_result in Hr as (entries & imageFile & content & Hdir & Hin & Hpre & Hext & ->).
    simpl. split_and!; [left; by split; [eexists|] |by eexists|done|].
    by exists entries, imageFile.
  - intros env chainId address r. unfold CoinGeckoProvider.fetchImage.
    destruct (Js.truthy (CoinGeckoProvider.apiKey env)); simpl; [|done].
    destruct (CoinGeckoProvider.chainIdToCoingeckoId chainId); [|done].
    destruct (CoinGeckoProvider.fetch env _) as [response|]; [|done].
    destruct (CoinGeckoProvider.ok response); simpl; [|done].
    destruct (CoinGeckoProvider.imageLarge response) as [[imageUrl|]|]; try done.
    destruct (Js.truthy imageUrl); simpl; [|done].
    intros [= <-]. simpl.
    assert (CoinGeckoProvider.getExtensionFromUrl env imageUrl
              ∈ ["png"; "jpg"; "jpeg"; "webp"; "svg"]) as Hext.
    { unfold CoinGeckoProvider.getExtensionFromUrl.
      pose proof (getExtensionFromUrl_known ["png"; "jpg"; "jpeg"; "webp"; "svg"] "png"
                    (CoinGeckoProvider.urlPathname env) imageUrl) as Hin.
      apply elem_of_cons in Hin as [->|Hin]; [by left|done]. }
    split_and!; [right; by split; [|eexists] |by eexists|done|].
    apply urlExtensions_closed. unfold Shape.urlExtensions.
    repeat (apply elem_of_cons in Hext as [->|Hext];
            [repeat (first [by left|right])|]).
    by apply elem_of_nil in Hext.
  - intros build Hbuild urlPathname logo r.
    repeat (apply elem_of_cons in Hbuild as [->|Hbuild];
            [apply Hremote; unfold Shape.urlExtensions;
             repeat (first [by left|right])|]).
    by apply elem_of_nil in Hbuild.
  - intros env callback chainId address r Hcallback. unfold PendlePT.fetchImage.
    destruct (PendlePT.isPendlePT env chainId address); simpl; [|done].
    destruct (PendlePT.getUnderlyingAssetAddress env chainId address) as [u|]; [|done].
    destruct (Storage.getImageFromS3 _ _ _) as [img|].
    + intros [= <-]. simpl. split_and!; [left; by split; [eexists|] | |done].
      by apply orDefault_truthy.
    + destruct (callback chainId u) as [[d|]|] eqn:Hd; try done.
      intros [= <-]. destruct (Hcallback chainId u d Hd) as [Hone Hext].
      split_and!; [|done|done].
      destruct Hone as [[? ?]|[? ?]]; [by left|by right].
Qed.

(** The Local provider answers for a directory that holds [image.svg]. *)
Lemma imageResult_shape_witness :
  ∃ r, LocalImagesProvider.fetchImage Sample.logoFs "images" 1 "0xABC" = Some r ∧
       Shape.exactlyOneOfBufferUrl r ∧ extension r = "svg".
Proof.
  eexists. split; [vm_compute; reflexivity|].
  split.
  - apply (proj1 imageResult_shape Sample.logoFs "images" 1 "0xABC").
    vm_compute. reflexivity.
  - reflexivity.
Defined.

(** C9 as stated fails for the Local provider: a file [image.txt] in the
    token directory yields a result whose extension is outside the closed
    set. *)
Lemma local_extension_outside_closed_set :
  ∃ r, LocalImagesProvider.fetchImage Sample.notesFs "images" 1 "0xABC" = Some r ∧
       extension r = "txt" ∧ extension r ∉ Shape.closedSet.
Proof.
  eexists. split; [vm_compute; reflexivity|]. split; [reflexivity|].
  simpl. intros Hin. repeat (apply elem_of_cons in Hin as [Heq|Hin]; [discriminate Heq|]).
  by apply elem_of_nil in Hin.
Qed.

End ResultShape.

(** ** The underlying-asset provider never calls itself *)

Section Underlying.
Implicit Types (providers ps : list PendlePT.Registered) (r : PendlePT.Registered).

Lemma providersForUnderlying_spec providers r :
  r ∈ PendlePT.providersForUnderlying providers ↔
  r ∈ providers ∧ PendlePT.registeredName r ≠ "pendle-pt-underlying".
Proof.
  unfold PendlePT.providersForUnderlying.
  rewrite list_elem_of_In, filter_In, <-list_elem_of_In.
  rewrite negb_true_iff, String.eqb_neq. done.
Qed.

Lemma providersForUnderlying_direct providers :
  Forall (λ r, ∃ p, r = PendlePT.Direct p) (PendlePT.providersForUnderlying providers).
Proof.
  apply Forall_forall. intros r Hr.
  apply providersForUnderlying_spec in Hr as [_ Hname].
  destruct r as [p|env cb]; [by exists p|]. by destruct Hname.
Qed.

Lemma mapM_cons {A B} (f : A → option B) (x : A) (l : list A) :
  mapM f (x :: l) = y ← f x; k ← mapM f l; Some (y :: k).
Proof. reflexivity. Qed.

Lemma settleWith_direct latency fuel providers ps chainId address :
  Forall (λ r, ∃ p, r = PendlePT.Direct p) ps →
  mapM (PendlePT.settleWith (PendlePT.invoke (S fuel) latency providers)
          chainId address) ps
  = Some (Manager.settle chainId address <$> PendlePT.directsOf ps).
Proof.
  intros Hdirect. induction Hdirect as [|r ps [p ->] _ IH]; [done|].
  rewrite mapM_cons, IH. unfold PendlePT.settleWith, Manager.settle. simpl.
  destruct (isAvailable p); simpl; [|done].
  by destruct (Provider.fetchImage p chainId address).
Qed.

Lemma fanOut_direct latency fuel providers ps chainId address :
  Forall (λ r, ∃ p, r = PendlePT.Direct p) ps →
  PendlePT.fanOut latency (PendlePT.invoke (S fuel) latency providers) ps chainId address
  = Manager.fetchImage latency (PendlePT.directsOf ps) chainId address.
Proof.
  intros Hdirect. unfold PendlePT.fanOut, Manager.fetchImage.
  by rewrite (settleWith_direct latency fuel providers ps chainId address Hdirect).
Qed.

(** The delegated fan-out, one level below a call with fuel [S (S _)]. *)
Lemma fetchImageForUnderlying_resolves latency fuel providers chainId address :
  PendlePT.fetchImageForUnderlying (S fuel) latency providers chainId address
  = Some (Manager.firstResult
            (Manager.settle chainId address
               <$> PendlePT.directsOf (PendlePT.providersForUnderlying providers))).
Proof.
  unfold PendlePT.fetchImageForUnderlying.
  rewrite fanOut_direct by apply providersForUnderlying_direct.
  apply fetchImage_resolves.
Qed.

Lemma invoke_underlying latency fuel providers env callbackSet chainId address :
  PendlePT.invoke (S fuel) latency providers (PendlePT.Underlying env callbackSet)
    chainId address
  = Returns <$>
      PendlePT.fetchImage env
        (if callbackSet
         then Some (PendlePT.fetchImageForUnderlying fuel latency providers)
         else None) chainId address.
Proof. reflexivity. Qed.

(** What the provider answers once it delegates. *)
Lemma fetchImage_delegates env callback chainId address u :
  PendlePT.isPendlePT env chainId address = true →
  PendlePT.getUnderlyingAssetAddress env chainId address = Some u →
  Storage.getImageFromS3 (PendlePT.s3 env) chainId u = None →
  PendlePT.fetchImage env (Some callback) chainId address
  = (λ res : option ImageResult, PendlePT.retag <$> res)
      <$> (callback chainId u : option (option ImageResult)).
Proof.
  intros HisPT Hu Hs3. unfold PendlePT.fetchImage. rewrite HisPT, Hu, Hs3. simpl.
  by destruct (callback chainId u) as [[d|]|].
Qed.

Lemma underlying_fetchImage_resolves latency fuel providers env (callbackSet : bool)
    chainId address :
  ∃ res,
    PendlePT.fetchImage env
      (if callbackSet
       then Some (PendlePT.fetchImageForUnderlying (S fuel) latency providers)
       else None) chainId address = Some res ∧
    PendlePT.fetchImage env
      (if callbackSet
       then Some (PendlePT.fetchImageForUnderlying 1 latency providers)
       else None) chainId address = Some res.
Proof.
  destruct callbackSet; [|exists None; by split].
  destruct (PendlePT.isPendlePT env chainId address) eqn:HisPT;
    [|exists None; unfold PendlePT.fetchImage; rewrite HisPT; by split].
  destruct (PendlePT.getUnderlyingAssetAddress env chainId address) as [u|] eqn:Hu;
    [|exists None; unfold PendlePT.fetchImage; rewrite HisPT, Hu; by split].
  destruct (Storage.getImageFromS3 (PendlePT.s3 env) chainId u) as [img|] eqn:Hs3;
    [unfold PendlePT.fetchImage; rewrite HisPT, Hu, Hs3; eexists; by split|].
  rewrite !(fetchImage_delegates env _ chainId address u) by done.
  rewrite !fetchImageForUnderlying_resolves. eexists; by split.
Qed.

Lemma invoke_fuel_irrelevant latency fuel providers r chainId address :
  PendlePT.invoke (S (S fuel)) latency providers r chainId address
  = PendlePT.invoke 2 latency providers r chainId address.
Proof.
  destruct r as [p|env cb]; [done|]. rewrite !invoke_underlying.
  destruct (underlying_fetchImage_resolves latency fuel providers env cb chainId address)
    as (res & -> & ->). done.
Qed.

Lemma invoke_resolves latency providers r chainId address :
  ∃ res, PendlePT.invoke 2 latency providers r chainId address = Some res.
Proof.
  destruct r as [p|env cb]; [by eexists|]. rewrite invoke_underlying.
  destruct (underlying_fetchImage_resolves latency 0 providers env cb chainId address)
    as (res & -> & _). by eexists.
Qed.

Lemma settleWith_resolves latency providers ps chainId address :
  ∃ promises,
    mapM (PendlePT.settleWith (PendlePT.invoke 2 latency providers) chainId address) ps
    = Some promises.
Proof.
  induction ps as [|r ps [promises IH]]; [by eexists|].
  rewrite mapM_cons, IH. unfold PendlePT.settleWith.
  destruct (invoke_resolves latency providers r chainId address) as [res ->].
  destruct (PendlePT.registeredAvailable r); simpl; [|by eexists].
  destruct res; by eexists.
Qed.

Lemma managerFetchImage_resolves latency providers chainId address :
  ∃ outcome,
    PendlePT.managerFetchImage 2 latency providers chainId address = Some outcome.
Proof.
  unfold PendlePT.managerFetchImage, PendlePT.fanOut.
  destruct (settleWith_resolves latency providers providers chainId address)
    as [promises ->].
  simpl. rewrite joinSettled_resolves. by eexists.
Qed.

Lemma managerFetchImage_fuel_irrelevant latency fuel providers chainId address :
  PendlePT.managerFetchImage (S (S fuel)) latency providers chainId address
  = PendlePT.managerFetchImage 2 latency providers chainId address.
Proof.
  unfold PendlePT.managerFetchImage, PendlePT.fanOut. f_equal.
  apply mapM_ext. intros r. unfold PendlePT.settleWith.
  by rewrite invoke_fuel_irrelevant.
Qed.

Lemma elem_of_directsOf ps (p : ImageProvider) :
  p ∈ PendlePT.directsOf ps ↔ PendlePT.Direct p ∈ ps.
Proof.
  unfold PendlePT.directsOf. rewrite list_elem_of_omap. split.
  - intros ([q|env cb] & Hin & Heq); simpl in Heq; [|done]. by injection Heq as ->.
  - intros Hin. by exists (PendlePT.Direct p).
Qed.

(** C7. The delegated fan-out runs over the provider list without the
    provider named "pendle-pt-underlying", so the provider never calls
    itself; every resolution finishes within a nesting of two calls (the
    provider and one delegated fan-out), also when the underlying asset is
    itself flagged as a PT; once the provider delegates, it answers absent
    or the result of a direct provider re-tagged "pendle-pt-underlying". *)
Theorem underlying_delegation_excludes_itself latency providers chainId address :
  (∀ r, r ∈ PendlePT.providersForUnderlying providers ↔
        r ∈ providers ∧ PendlePT.registeredName r ≠ "pendle-pt-underlying") ∧
  (∀ env callbackSet,
      PendlePT.Underlying env callbackSet ∉ PendlePT.providersForUnderlying providers) ∧
  (∃ outcome,
      PendlePT.managerFetchImage 2 latency providers chainId address = Some outcome ∧
      ∀ fuel, PendlePT.managerFetchImage (S (S fuel)) latency providers chainId address
              = Some outcome) ∧
  (∀ env callbackSet, ∃ res,
      PendlePT.invoke 2 latency providers (PendlePT.Underlying env callbackSet)
        chainId address = Some (Returns res) ∧
      ∀ fuel, PendlePT.invoke (S (S fuel)) latency providers
                (PendlePT.Underlying env callbackSet) chainId address
              = Some (Returns res)) ∧
  (∀ env u,
      PendlePT.isPendlePT env chainId address = true →
      PendlePT.getUnderlyingAssetAddress env chainId address = Some u →
      Storage.getImageFromS3 (PendlePT.s3 env) chainId u = None →
      ∃ res,
        PendlePT.invoke 2 latency providers (PendlePT.Underlying env true)
          chainId address = Some (Returns res) ∧
        (res = None ∨
         ∃ p d, PendlePT.Direct p ∈ providers ∧ name p ≠ "pendle-pt-underlying" ∧
                Manager.produced chainId u p d ∧
                res = Some (PendlePT.retag d) ∧
                provider (PendlePT.retag d) = "pendle-pt-underlying")).
Proof.
  split_and!.
  - apply providersForUnderlying_spec.
  - intros env cb Hin. apply providersForUnderlying_spec in Hin as [_ Hname].
    by destruct Hname.
  - destruct (managerFetchImage_resolves latency providers chainId address)
      as [outcome Hres].
    exists outcome. split; [done|]. intros fuel.
    by rewrite managerFetchImage_fuel_irrelevant.
  - intros env cb.
    destruct (underlying_fetchImage_resolves latency 0 providers env cb chainId address)
      as (res & Hres & _).
    exists res. split.
    + by rewrite invoke_underlying, Hres.
    + intros fuel. by rewrite invoke_fuel_irrelevant, invoke_underlying, Hres.
  - intros env u HisPT Hu Hs3. rewrite invoke_underlying.
    rewrite (fetchImage_delegates env _ chainId address u) by done.
    rewrite fetchImageForUnderlying_resolves. simpl.
    destruct (Manager.firstResult _) as [d|] eqn:Hfirst; simpl.
    + eexists. split; [done|]. right.
      apply firstResult_Some in Hfirst as (i & s & Hi & Hr & _).
      rewrite list_lookup_fmap in Hi.
      destruct (PendlePT.directsOf _ !! i) as [p|] eqn:Hp; simpl in Hi; [|done].
      injection Hi as <-. apply settle_result_Some in Hr.
      apply list_elem_of_lookup_2, elem_of_directsOf in Hp.
      apply providersForUnderlying_spec in Hp as [Hin Hname].
      by exists p, d.
    + eexists. split; [done|]. by left.
Qed.

(** The token [0x02] is a PT whose underlying asset [0x01] is flagged as
    a PT too: the call answers provider A's image for [0x01], re-tagged. *)
Lemma underlying_delegation_witness :
  ∃ res,
    PendlePT.invoke 2 Sample.bFaster
      (PendlePT.constructor [Sample.providerA] Sample.ptOfPt)
      (PendlePT.Underlying Sample.ptOfPt true) 1 "0x02" = Some (Returns res) ∧
    (res = None ∨
     ∃ p d, PendlePT.Direct p ∈ PendlePT.constructor [Sample.providerA] Sample.ptOfPt ∧
            name p ≠ "pendle-pt-underlying" ∧
            Manager.produced 1 "0x01" p d ∧
            res = Some (PendlePT.retag d) ∧
            provider (PendlePT.retag d) = "pendle-pt-underlying").
Proof.
  apply (proj2 (proj2 (proj2 (proj2 (underlying_delegation_excludes_itself
           Sample.bFaster (PendlePT.constructor [Sample.providerA] Sample.ptOfPt)
           1 "0x02")))) Sample.ptOfPt "0x01"); vm_compute; reflexivity.
Defined.

(** With a nesting bound of one call the delegated fan-out cannot run:
    the bound of two is the least one. *)
Example underlying_needs_one_delegation :
  PendlePT.invoke 1 Sample.bFaster
    (PendlePT.constructor [Sample.providerA] Sample.ptOfPt)
    (PendlePT.Underlying Sample.ptOfPt true) 1 "0x02" = None ∧
  PendlePT.invoke 2 Sample.bFaster
    (PendlePT.constructor [Sample.providerA] Sample.ptOfPt)
    (PendlePT.Underlying Sample.ptOfPt true) 1 "0x02"
  = Some (Returns (Some (PendlePT.retag
            (Sample.pngAt "coingecko" "https://a.example/logo.png")))).
Proof. split; vm_compute; reflexivity. Qed.

End Underlying.

(** ** The rate-limit gate of [startSync] *)

Section RateLimit.
Context (E : Sync.Env).
Implicit Types (statuses : gmap Z Sync.SyncStatus) (st : Sync.SyncStatus).

(** The time from which the cool-down window of a status is measured. *)
Lemma checkRateLimit_running statuses now chain st :
  statuses !! chain = Some st → Sync.status st = Sync.running →
  Sync.checkRateLimit statuses now chain =
    if now - Sync.startTime st <? Sync.rateLimitMs
    then Some {| Sync.rateLimitedChainId := chain;
                 Sync.rateLimitRemainingTime :=
                   Sync.rateLimitMs - (now - Sync.startTime st);
                 Sync.message := "Sync is currently running. Started "
                   +:+ pretty ((now - Sync.startTime st) / (60 * 1000))
                   +:+ " minute(s) ago." |}
    else None.
Proof.
  intros Hst Hrun. unfold Sync.checkRateLimit. rewrite Hst, Hrun.
  by destruct (_ <? _).
Qed.

Lemma checkRateLimit_terminal statuses now chain st :
  statuses !! chain = Some st → Sync.status st ≠ Sync.running →
  Sync.checkRateLimit statuses now chain =
    let timeDiff := now - Js.orNumber (Sync.endTime st) (Sync.startTime st) in
    if timeDiff <? Sync.rateLimitMs
    then Some {| Sync.rateLimitedChainId := chain;
                 Sync.rateLimitRemainingTime := Sync.rateLimitMs - timeDiff;
                 Sync.message := "Rate limit exceeded. Last sync "
                   +:+ Sync.stateString (Sync.status st) +:+ " "
                   +:+ pretty (timeDiff / (60 * 1000))
                   +:+ " minute(s) ago. Please wait "
                   +:+ pretty (Sync.ceilDiv (Sync.rateLimitMs - timeDiff) (60 * 1000))
                   +:+ " more minute(s)." |}
    else None.
Proof.
  intros Hst Hrun. unfold Sync.checkRateLimit. rewrite Hst.
  destruct (Sync.status st); done.
Qed.

Lemma checkRateLimit_no_status statuses now chain :
  statuses !! chain = None → Sync.checkRateLimit statuses now chain = None.
Proof. intros Hst. unfold Sync.checkRateLimit. by rewrite Hst. Qed.

Lemma startSync_fresh_branch chain statuses (w1 : Sync.World E) :
  (statuses !! chain = None ∨
   ∃ st, statuses !! chain = Some st ∧ Sync.status st ≠ Sync.running) →
  match statuses !! chain with
  | Some existingStatus =>
      match Sync.status existingStatus with
      | Sync.running =>
          let '(now, w2) := Sync.dateNow E w1 in
          {| Pipeline.answer :=
               Pipeline.Started
                 {| Sync.chainId := Sync.chainId existingStatus;
                    Sync.status := Sync.status existingStatus;
                    Sync.startTime := Sync.startTime existingStatus;
                    Sync.endTime := Sync.endTime existingStatus;
                    Sync.progress := Sync.progress existingStatus;
                    Sync.result := Sync.result existingStatus;
                    Sync.error := Sync.error existingStatus;
                    Sync.remainingTime :=
                      Some (Sync.calculateRemainingTime statuses now chain) |};
             Pipeline.statusesAfter := statuses; Pipeline.worldAfter := w2;
             Pipeline.spawned := None |}
      | _ => Pipeline.startNewSync E chain statuses w1
      end
  | None => Pipeline.startNewSync E chain statuses w1
  end = Pipeline.startNewSync E chain statuses w1.
Proof.
  intros [->|(st & -> & Hterm)]; [done|]. by destruct (Sync.status st).
Qed.

(** C2. A [startSync] call inside the cool-down window (counted from
    the start time of a running sync, from the end time of a completed
    or failed one) answers the rate-limit signal with the remaining wait
    and leaves the status map as it was; a call strictly after the window
    of a finished sync, or for a chain that never ran, creates and
    answers a fresh running status in phase "initializing". *)
Theorem startSync_cooldown chain statuses (w : Sync.World E) :
  let now := (Sync.dateNow E w).1 in
  let out := Pipeline.startSync E chain statuses w in
  (∀ st since,
      statuses !! chain = Some st →
      (Sync.status st = Sync.running ∧ since = Sync.startTime st) ∨
      (Sync.status st ≠ Sync.running ∧ Sync.endTime st = Some since ∧ since ≠ 0) →
      now - since < Sync.rateLimitMs →
      ∃ e, Pipeline.answer E out = Pipeline.RateLimited e ∧
           Sync.rateLimitedChainId e = chain ∧
           Sync.rateLimitRemainingTime e = Sync.rateLimitMs - (now - since) ∧
           0 < Sync.rateLimitRemainingTime e ∧
           Pipeline.statusesAfter E out = statuses ∧
           Pipeline.spawned E out = None) ∧
  ((statuses !! chain = None ∨
    ∃ st since, statuses !! chain = Some st ∧ Sync.status st ≠ Sync.running ∧
                Sync.endTime st = Some since ∧ since ≠ 0 ∧
                Sync.rateLimitMs < now - since) →
   ∃ fresh stored,
     Pipeline.answer E out = Pipeline.Started fresh ∧
     Sync.chainId fresh = chain ∧ Sync.status fresh = Sync.running ∧
     Sync.progress fresh
       = Some {| Sync.phase := "initializing"; Sync.current := 0; Sync.total := 0 |} ∧
     Sync.endTime fresh = None ∧ Sync.result fresh = None ∧
     Sync.error fresh = None ∧
     Pipeline.statusesAfter E out !! chain = Some stored ∧
     Sync.status stored = Sync.running ∧
     Sync.startTime stored = Sync.startTime fresh ∧
     Sync.result stored = None ∧ Sync.error stored = None ∧
     is_Some (Pipeline.spawned E out)).
Proof.
  intros now out. subst now out. unfold Pipeline.startSync.
  destruct (Sync.dateNow E w) as [now w1]. simpl. split.
  - intros st since Hst Hsince Hwindow.
    assert (Sync.checkRateLimit statuses now chain = Some
              {| Sync.rateLimitedChainId := chain;
                 Sync.rateLimitRemainingTime := Sync.rateLimitMs - (now - since);
                 Sync.message := Sync.message
                   (default {| Sync.rateLimitedChainId := chain;
                               Sync.rateLimitRemainingTime := 0; Sync.message := "" |}
                      (Sync.checkRateLimit statuses now chain)) |}) as ->.
    { destruct Hsince as [[Hrun ->]|(Hterm & Hend & Hnz)].
      - rewrite (checkRateLimit_running statuses now chain st) by done.
        apply Z.ltb_lt in Hwindow. by rewrite Hwindow.
      - rewrite (checkRateLimit_terminal statuses now chain st) by done.
        assert (Js.orNumber (Sync.endTime st) (Sync.startTime st) = since) as ->.
        { rewrite Hend. simpl. apply Z.eqb_neq in Hnz. by rewrite Hnz. }
        simpl. apply Z.ltb_lt in Hwindow. by rewrite Hwindow. }
    eexists. split_and!; try done. simpl. lia.
  - intros Hfree.
    assert (Sync.checkRateLimit statuses now chain = None) as ->.
    { destruct Hfree as [Hnone|(st & since & Hst & Hterm & Hend & Hnz & Hafter)].
      - by apply checkRateLimit_no_status.
      - rewrite (checkRateLimit_terminal statuses now chain st) by done.
        assert (Js.orNumber (Sync.endTime st) (Sync.startTime st) = since) as ->.
        { rewrite Hend. simpl. apply Z.eqb_neq in Hnz. by rewrite Hnz. }
        simpl. destruct (_ <? _) eqn:Hlt; [|done]. apply Z.ltb_lt in Hlt. lia. }
    rewrite (startSync_fresh_branch chain statuses w1) by
      (destruct Hfree as [?|(st & since & ? & ? & _)]; [by left|right; by exists st]).
    unfold Pipeline.startNewSync.
    destruct (Sync.dateNow E w1) as [t w2]. destruct (Sync.dateNow E w2) as [t0 w3].
    simpl.
    match goal with
    | |- context [Pipeline.Started ?f] =>
        exists f, (Sync.merge f (Pipeline.progressUpdate "fetching tokens" 0 1))
    end.
    split_and!; try done.
    unfold Sync.updateSyncStatus. rewrite lookup_insert_eq.
    by rewrite lookup_insert_eq.
Qed.

End RateLimit.

(** One millisecond before the end of the window the call for chain 1
    is rejected; one millisecond after it the call for chain 2 starts a
    new sync. *)
Lemma startSync_cooldown_witness :
  (∃ e, Pipeline.answer Sample.env (Pipeline.startSync Sample.env 1 Sample.statuses0
                                      Sample.world0) = Pipeline.RateLimited e ∧
        Sync.rateLimitRemainingTime e = 1 ∧
        Pipeline.statusesAfter Sample.env
          (Pipeline.startSync Sample.env 1 Sample.statuses0 Sample.world0)
        = Sample.statuses0) ∧
  (∃ fresh, Pipeline.answer Sample.env (Pipeline.startSync Sample.env 2 Sample.statuses0
                                          Sample.world0) = Pipeline.Started fresh ∧
            Sync.status fresh = Sync.running).
Proof.
  split.
  - destruct (proj1 (startSync_cooldown Sample.env 1 Sample.statuses0 Sample.world0)
                (Sample.finishedAt 1 940001) 940001)
      as (e & Hanswer & _ & Hremaining & _ & Hsame & _).
    + vm_compute; reflexivity.
    + right. split; [discriminate|]. split; [reflexivity|lia].
    + vm_compute; reflexivity.
    + exists e. split; [exact Hanswer|]. split; [|exact Hsame].
      rewrite Hremaining. vm_compute; reflexivity.
  - destruct (proj2 (startSync_cooldown Sample.env 2 Sample.statuses0 Sample.world0))
      as (fresh & stored & Hanswer & _ & Hrunning & _).
    + right. exists (Sample.finishedAt 2 939999), 939999.
      split; [vm_compute; reflexivity|]. split; [discriminate|].
      split; [reflexivity|]. split; [lia|vm_compute; reflexivity].
    + exists fresh. split; [exact Hanswer|exact Hrunning].
Defined.

(** ** The pipeline of [performSync] *)

Section PipelineFacts.
Context (E : Sync.Env).
Implicit Types (w : Sync.World E) (statuses : gmap Z Sync.SyncStatus).

Lemma fetchTokensFromEuler_empty chain w :
  (Sync.fetchTokens E chain w).1 = Sync.RegistryUnreachable ∨
  (∃ json, (Sync.fetchTokens E chain w).1 = Sync.RegistryResponded false json) ∨
  (∃ msg, (Sync.fetchTokens E chain w).1 = Sync.RegistryResponded true (Throws msg)) ∨
  (Sync.fetchTokens E chain w).1
    = Sync.RegistryResponded true (Returns (Sync.JsonArray [])) →
  Pipeline.fetchTokensFromEuler E chain w
  = (Sync.JsonArray [], (Sync.fetchTokens E chain w).2).
Proof.
  unfold Pipeline.fetchTokensFromEuler.
  destruct (Sync.fetchTokens E chain w) as [response w1]. simpl.
  by intros [->|[[json ->]|[[msg ->]| ->]]].
Qed.

Lemma applyUpdates_single statuses chain st u :
  statuses !! chain = Some st →
  Pipeline.applyUpdates statuses chain [u] !! chain = Some (Sync.merge st u).
Proof.
  intros Hst. unfold Pipeline.applyUpdates. simpl. unfold Sync.updateSyncStatus.
  rewrite Hst. by rewrite lookup_insert_eq.
Qed.

(** C6. When the registry answers with an empty list, with a
    non-success response, with a body that is no JSON, or not at all,
    [performSync] goes straight to
    "completed": all counters of the result are 0, its detail list is
    empty, and its duration is the clock reading at that moment minus
    the start time, which is not negative unless the clock went back. *)
Theorem empty_registry_completes chain startTime w :
  (Sync.fetchTokens E chain w).1 = Sync.RegistryUnreachable ∨
  (∃ json, (Sync.fetchTokens E chain w).1 = Sync.RegistryResponded false json) ∨
  (∃ msg, (Sync.fetchTokens E chain w).1 = Sync.RegistryResponded true (Throws msg)) ∨
  (Sync.fetchTokens E chain w).1
    = Sync.RegistryResponded true (Returns (Sync.JsonArray [])) →
  ∃ now endT res w',
    now = (Sync.dateNow E (Sync.fetchTokens E chain w).2).1 ∧
    Pipeline.resume E chain (Pipeline.AwaitTokens startTime) w
    = Some ([ {| Sync.setStatus := Some Sync.completed; Sync.setEndTime := Some endT;
                 Sync.setProgress := None; Sync.setResult := Some res;
                 Sync.setError := None |} ], None, w') ∧
    Sync.totalTokens res = 0 ∧ Sync.existingImages res = 0 ∧
    Sync.migratedFromLocal res = 0 ∧ Sync.downloadedImages res = 0 ∧
    Sync.failedDownloads res = 0 ∧ Sync.details res = [] ∧
    Sync.duration res = now - startTime ∧
    (startTime ≤ now → 0 ≤ Sync.duration res) ∧
    (∀ statuses st,
        statuses !! chain = Some st →
        ∃ st',
          Pipeline.applyUpdates statuses chain
            [ {| Sync.setStatus := Some Sync.completed; Sync.setEndTime := Some endT;
                 Sync.setProgress := None; Sync.setResult := Some res;
                 Sync.setError := None |} ] !! chain = Some st' ∧
          Sync.status st' = Sync.completed ∧ Sync.result st' = Some res ∧
          Sync.error st' = Sync.error st).
Proof.
  intros Hempty. unfold Pipeline.resume.
  rewrite (fetchTokensFromEuler_empty chain w Hempty). simpl.
  destruct (Sync.dateNow E (Sync.fetchTokens E chain w).2) as [now w2]. simpl.
  destruct (Sync.dateNow E w2) as [endT w3].
  eexists now, endT, _, w3. split_and!; try done.
  - simpl. lia.
  - intros statuses st Hst. eexists. split; [by apply applyUpdates_single|done].
Qed.

(** *** One token *)

Lemma migrateOne_tagged token w d ok w' :
  Pipeline.migrateOne E token w = ((d, ok), w') →
  Sync.detailAddress d = LocalImagesProvider.localAddress token ∧
  Sync.detailStatus d = (if ok then Sync.st_migrated else Sync.st_failed).
Proof.
  unfold Pipeline.migrateOne.
  destruct (Manager.getLocalProvider _) as [localProvider|]; [|by intros [= <- <- <-]].
  destruct (Provider.fetchImage localProvider _ _) as [[localImage|]|];
    [|by intros [= <- <- <-]..].
  destruct (buffer localImage) as [buf|]; [|by intros [= <- <- <-]].
  destruct (Sync.dateNow E w) as [now w1].
  destruct (Sync.uploadImageToStorage E _ _ _ _ _ w1) as [[[]|] w2];
    by intros [= <- <- <-].
Qed.

Lemma downloadImageBuffer_total u w :
  ∃ bytes w', Pipeline.downloadImageBuffer E u w = (bytes, w').
Proof. destruct (Pipeline.downloadImageBuffer E u w); by eexists _, _. Qed.

Lemma downloadOne_resolves token w :
  ∃ d ok w', Pipeline.downloadOne E token w = Some ((d, ok), w').
Proof.
  unfold Pipeline.downloadOne. rewrite fetchImage_resolves.
  destruct (Manager.firstResult _) as [imageResult|]; [|by eexists _, _, _].
  destruct (match buffer imageResult with Some _ => _ | None => _ end)
    as [[bytes|] w1]; [|by eexists _, _, _].
  destruct (Sync.dateNow E w1) as [now w2].
  destruct (Sync.uploadImageToStorage E _ _ _ _ _ w2) as [[[]|] w3];
    by eexists _, _, _.
Qed.

Lemma downloadOne_tagged token w d ok w' :
  Pipeline.downloadOne E token w = Some ((d, ok), w') →
  Sync.detailAddress d = LocalImagesProvider.localAddress token ∧
  Sync.detailStatus d = (if ok then Sync.st_downloaded else Sync.st_failed).
Proof.
  unfold Pipeline.downloadOne. rewrite fetchImage_resolves.
  destruct (Manager.firstResult _) as [imageResult|]; [|by intros [= <- <- <-]].
  destruct (match buffer imageResult with Some _ => _ | None => _ end)
    as [[bytes|] w1]; [|by intros [= <- <- <-]].
  destruct (Sync.dateNow E w1) as [now w2].
  destruct (Sync.uploadImageToStorage E _ _ _ _ _ w2) as [[[]|] w3];
    by intros [= <- <- <-].
Qed.

(** *** Migration batches *)

Lemma countIf_app {A} (f : A → bool) (l k : list A) :
  Pipeline.countIf f (l ++ k) = Pipeline.countIf f l + Pipeline.countIf f k.
Proof.
  unfold Pipeline.countIf. rewrite List.filter_app, length_app. lia.
Qed.

Lemma filter_length_Permutation {A} (f : A → bool) (l k : list A) :
  l ≡ₚ k → length (List.filter f l) = length (List.filter f k).
Proof.
  induction 1 as [|x l k _ IH|x y l|l k m _ IH1 _ IH2]; simpl.
  - done.
  - destruct (f x); simpl; by rewrite IH.
  - by destruct (f x), (f y).
  - by rewrite IH1.
Qed.

Lemma countStatus_Permutation tag (l k : list Sync.Detail) :
  l ≡ₚ k → Sync.countStatus tag l = Sync.countStatus tag k.
Proof.
  intros Hperm. unfold Sync.countStatus.
  by rewrite (filter_length_Permutation _ l k Hperm).
Qed.

Lemma countStatus_app tag (l k : list Sync.Detail) :
  Sync.countStatus tag (l ++ k) = Sync.countStatus tag l + Sync.countStatus tag k.
Proof.
  unfold Sync.countStatus. rewrite List.filter_app, length_app. lia.
Qed.

Lemma pushedDetails_Permutation w (settled : list (Sync.Detail * bool)) :
  Pipeline.pushedDetails E w settled ≡ₚ settled.*1.
Proof.
  unfold Pipeline.pushedDetails, Manager.settleOrder.
  rewrite merge_sort_Permutation, fmap_imap.
  rewrite (imap_ext _ (const fst)) by done. by rewrite imap_const.
Qed.

Lemma migrateBatch_outcomes batch w rs w' :
  Pipeline.migrateBatch E batch w = (rs, w') → Forall2 (Pipeline.migratedAs E) batch rs.
Proof.
  revert w rs w'. induction batch as [|token batch IH]; intros w rs w'; simpl.
  { intros [= <- <-]. constructor. }
  destruct (Pipeline.migrateOne E token w) as [r w1] eqn:Hone.
  destruct (Pipeline.migrateBatch E batch w1) as [rs0 w2] eqn:Hrest.
  intros [= <- <-]. constructor; [by exists w, w1|by eapply IH].
Qed.

Lemma migrateLoop_step fuel i tokens acc w :
  Pipeline.migrateLoop E (S fuel) i tokens acc w =
  if (i <? length tokens)%nat then
    let batch := take Pipeline.batchSize (drop i tokens) in
    let '(batchResults, w1) := Pipeline.migrateBatch E batch w in
    let acc' :=
      {| Pipeline.migrated := Pipeline.migrated acc + Pipeline.countIf snd batchResults;
         Pipeline.migrationFailed :=
           Pipeline.migrationFailed acc
           + Pipeline.countIf (λ r, negb r.2) batchResults;
         Pipeline.migrationDetails :=
           (Pipeline.migrationDetails acc
            ++ Pipeline.pushedDetails E w batchResults)%list |} in
    let w2 :=
      if (i + Pipeline.batchSize <? length tokens)%nat
      then Sync.delay E 100 w1 else w1 in
    Pipeline.migrateLoop E fuel (i + Pipeline.batchSize) tokens acc' w2
  else (acc, w).
Proof. reflexivity. Qed.

Lemma migrateLoop_outcomes fuel i tokens acc w res w' :
  (length tokens ≤ i + fuel)%nat →
  Pipeline.migrateLoop E fuel i tokens acc w = (res, w') →
  ∃ outcomes,
    Forall2 (Pipeline.migratedAs E) (drop i tokens) outcomes ∧
    Pipeline.migrationDetails res
      ≡ₚ (Pipeline.migrationDetails acc ++ outcomes.*1)%list ∧
    Pipeline.migrated res = Pipeline.migrated acc + Pipeline.countIf snd outcomes ∧
    Pipeline.migrationFailed res
      = Pipeline.migrationFailed acc + Pipeline.countIf (λ r, negb r.2) outcomes.
Proof.
  revert i acc w. induction fuel as [|fuel IH]; intros i acc w Hfuel.
  - simpl. intros [= <- <-]. exists []. rewrite drop_ge by lia.
    split_and!; [constructor|by rewrite app_nil_r|unfold Pipeline.countIf; simpl; lia..].
  - rewrite migrateLoop_step. destruct (i <? length tokens)%nat eqn:Hi.
    + cbv zeta.
      destruct (Pipeline.migrateBatch E _ w) as [rs w1] eqn:Hbatch.
      intros Hloop. apply IH in Hloop as (outs & Hall & Hdetails & Hmig & Hfail);
        [|unfold Pipeline.batchSize; lia].
      simpl in Hdetails, Hmig, Hfail.
      apply migrateBatch_outcomes in Hbatch.
      exists (rs ++ outs)%list. split_and!.
      * rewrite <-(take_drop Pipeline.batchSize (drop i tokens)).
        apply Forall2_app; [done|]. by rewrite drop_drop.
      * rewrite Hdetails, fmap_app, pushedDetails_Permutation.
        by rewrite <-(assoc_L (++)).
      * rewrite Hmig, countIf_app. lia.
      * rewrite Hfail, countIf_app. lia.
    + intros [= <- <-]. apply Nat.ltb_ge in Hi. exists []. rewrite drop_ge by lia.
      split_and!; [constructor|by rewrite app_nil_r|unfold Pipeline.countIf; simpl; lia..].
Qed.

Lemma migrateLocalImages_outcomes tokens w res w' :
  Pipeline.migrateLocalImages E tokens w = (res, w') →
  ∃ outcomes,
    Forall2 (Pipeline.migratedAs E) tokens outcomes ∧
    Pipeline.migrationDetails res ≡ₚ outcomes.*1 ∧
    Pipeline.migrated res = Pipeline.countIf snd outcomes ∧
    Pipeline.migrationFailed res = Pipeline.countIf (λ r, negb r.2) outcomes.
Proof.
  unfold Pipeline.migrateLocalImages. intros Hloop.
  apply migrateLoop_outcomes in Hloop as (outcomes & Hall & Hdetails & Hmig & Hfail);
    [|lia].
  exists outcomes. simpl in *. rewrite drop_0 in Hall.
  split_and!; [done|done|lia|lia].
Qed.

(** *** The download loop *)

Lemma downloadLoop_outcomes tokens acc w :
  ∃ res w' outcomes,
    Pipeline.downloadLoop E tokens acc w = Some (res, w') ∧
    Forall2 (Pipeline.downloadedAs E) tokens outcomes ∧
    Pipeline.downloadDetails res = (Pipeline.downloadDetails acc ++ outcomes.*1)%list ∧
    Pipeline.downloaded res = Pipeline.downloaded acc + Pipeline.countIf snd outcomes ∧
    Pipeline.downloadFailed res
      = Pipeline.downloadFailed acc + Pipeline.countIf (λ r, negb r.2) outcomes.
Proof.
  revert acc w. induction tokens as [|token tokens IH]; intros acc w; simpl.
  { exists acc, w, []. split_and!;
      [done|constructor|by rewrite app_nil_r|unfold Pipeline.countIf; simpl; lia..]. }
  destruct (downloadOne_resolves token w) as (d & ok & w1 & Hone). rewrite Hone.
  edestruct IH as (res & w' & outs & -> & Hall & Hdetails & Hdl & Hfail).
  exists res, w', ((d, ok) :: outs). simpl in Hdetails, Hdl, Hfail.
  split_and!.
  - done.
  - constructor; [by exists w, w1|done].
  - rewrite Hdetails. simpl. by rewrite <-(assoc_L (++)).
  - rewrite Hdl. unfold Pipeline.countIf. destruct ok; simpl; lia.
  - rewrite Hfail. unfold Pipeline.countIf. destruct ok; simpl; lia.
Qed.

Lemma downloadMissingImages_outcomes tokens w :
  ∃ res w' outcomes,
    Pipeline.downloadMissingImages E tokens w = Some (res, w') ∧
    Forall2 (Pipeline.downloadedAs E) tokens outcomes ∧
    Pipeline.downloadDetails res = outcomes.*1 ∧
    Pipeline.downloaded res = Pipeline.countIf snd outcomes ∧
    Pipeline.downloadFailed res = Pipeline.countIf (λ r, negb r.2) outcomes.
Proof.
  unfold Pipeline.downloadMissingImages.
  destruct (downloadLoop_outcomes tokens
              {| Pipeline.downloaded := 0; Pipeline.downloadFailed := 0;
                 Pipeline.downloadDetails := [] |} w)
    as (res & w' & outcomes & Hloop & Hall & Hdetails & Hdl & Hfail).
  exists res, w', outcomes. simpl in *. split_and!; [done|done|done|lia|lia].
Qed.

(** *** Counting outcomes *)

Lemma countIf_split {A} (f : A → bool) (l : list A) :
  Pipeline.countIf f l + Pipeline.countIf (λ x, negb (f x)) l = Z.of_nat (length l).
Proof.
  unfold Pipeline.countIf. induction l as [|x l IH]; simpl; [done|].
  destruct (f x); simpl; lia.
Qed.

Lemma migratedAs_tagged token r :
  Pipeline.migratedAs E token r → Pipeline.taggedWith Sync.st_migrated token r.
Proof. destruct r as [d ok]. intros (wi & wi' & H). by eapply migrateOne_tagged. Qed.

Lemma downloadedAs_tagged token r :
  Pipeline.downloadedAs E token r → Pipeline.taggedWith Sync.st_downloaded token r.
Proof. destruct r as [d ok]. intros (wi & wi' & H). by eapply downloadOne_tagged. Qed.

Lemma tagged_counts good tokens (outcomes : list (Sync.Detail * bool)) :
  good ≠ Sync.st_failed →
  Forall2 (Pipeline.taggedWith good) tokens outcomes →
  Sync.detailAddress <$> outcomes.*1 = LocalImagesProvider.localAddress <$> tokens ∧
  Sync.countStatus Sync.st_failed outcomes.*1
    = Pipeline.countIf (λ r, negb r.2) outcomes ∧
  Sync.countStatus good outcomes.*1 = Pipeline.countIf snd outcomes ∧
  (∀ tag, tag ≠ good → tag ≠ Sync.st_failed →
          Sync.countStatus tag outcomes.*1 = 0).
Proof.
  intros Hgood. unfold Sync.countStatus, Pipeline.countIf.
  induction 1 as [|token [d ok] tokens outcomes [Haddr Htag] _ IH]; [done|].
  destruct IH as (IHaddr & IHfail & IHgood & IHother). simpl in Haddr, Htag.
  rewrite !fmap_cons. cbn [fst snd List.filter length negb].
  split_and!.
  - by rewrite Haddr, IHaddr.
  - rewrite Htag. destruct ok; cbn [negb].
    + rewrite bool_decide_eq_false_2 by done. done.
    + rewrite bool_decide_eq_true_2 by done. cbn [length]. lia.
  - rewrite Htag. destruct ok.
    + rewrite bool_decide_eq_true_2 by done. cbn [length]. lia.
    + rewrite bool_decide_eq_false_2 by done. done.
  - intros tag Hne1 Hne2. rewrite Htag.
    rewrite bool_decide_eq_false_2 by (by destruct ok). by apply IHother.
Qed.

(** *** From the token list to the detail list *)

Lemma lowercaseTokens_addresses chain tokens tokenList :
  Pipeline.lowercaseTokens chain tokens = Returns tokenList →
  Storage.tokenAddress <$> tokenList = Pipeline.lowerAddresses tokens ∧
  length tokenList = length tokens.
Proof.
  revert tokenList. induction tokens as [|token tokens IH]; intros tokenList; simpl.
  { by intros [= <-]. }
  unfold Pipeline.lowerAddresses in *. cbn [omap list_omap].
  destruct (Sync.address token) as [a|]; [|done].
  destruct (Pipeline.lowercaseTokens chain tokens) as [l|]; [|done].
  intros [= <-]. destruct (IH l eq_refl) as [IHaddr IHlen].
  rewrite fmap_cons, IHaddr. cbn [length]. by rewrite IHlen.
Qed.

Lemma bulkCheck_tokens {W} (check : Z → string → W → Outcome bool * W) tokenList
    (x : W) checks (x' : W) :
  Storage.bulkCheckImagesInStorage check tokenList x = (checks, x') →
  Pipeline.asToken <$> checks = tokenList.
Proof.
  revert x checks x'. induction tokenList as [|token tokenList IH]; intros x checks x'.
  { simpl. by intros [= <- <-]. }
  simpl. destruct (check _ _ x) as [settled x1].
  destruct (Storage.bulkCheckImagesInStorage check tokenList x1) as [cs x2] eqn:Hrest.
  intros [= <- <-]. rewrite fmap_cons, (IH _ _ _ Hrest).
  by destruct token.
Qed.

Lemma filter_partition {A} (f : A → bool) (l : list A) :
  (List.filter f l ++ List.filter (λ x, negb (f x)) l)%list ≡ₚ l.
Proof.
  induction l as [|x l IH]; simpl; [done|].
  destruct (f x); simpl.
  - by rewrite IH.
  - by rewrite <-Permutation_middle, IH.
Qed.

Lemma bulkCheckLocalImages_addresses this tokens :
  LocalImagesProvider.localAddress
    <$> LocalImagesProvider.bulkCheckLocalImages this tokens
  = Storage.tokenAddress <$> tokens.
Proof.
  unfold LocalImagesProvider.bulkCheckLocalImages.
  rewrite <-list_fmap_compose. by apply list_fmap_ext.
Qed.

Lemma existsDetail_count tag (l : list Storage.ExistenceCheck) :
  Sync.countStatus tag (Pipeline.existsDetail <$> l)
  = if bool_decide (tag = Sync.st_exists) then Z.of_nat (length l) else 0.
Proof.
  unfold Sync.countStatus. destruct (decide (tag = Sync.st_exists)) as [->|Htag].
  - rewrite bool_decide_eq_true_2 by done.
    induction l as [|c l IH]; [done|].
    rewrite fmap_cons. cbn [List.filter Pipeline.existsDetail Sync.detailStatus].
    rewrite bool_decide_eq_true_2 by done. cbn [length]. lia.
  - rewrite bool_decide_eq_false_2 by done.
    induction l as [|c l IH]; [done|].
    rewrite fmap_cons. cbn [List.filter Pipeline.existsDetail Sync.detailStatus].
    by rewrite bool_decide_eq_false_2 by done.
Qed.

Lemma existsDetail_addresses (l : list Storage.ExistenceCheck) :
  Sync.detailAddress <$> (Pipeline.existsDetail <$> l) = Storage.checkAddress <$> l.
Proof. rewrite <-list_fmap_compose. by apply list_fmap_ext. Qed.

(** The result [performSync] compiles after the download phase. *)
Lemma compiled_result_sound chain startTime tokens checks existing mig stillMissing
    dl (douts : list (Sync.Detail * bool)) d :
  Pipeline.consistent chain
    (Pipeline.AwaitDownload startTime tokens checks existing mig stillMissing) →
  Forall2 (Pipeline.taggedWith Sync.st_downloaded) stillMissing douts →
  Pipeline.downloadDetails dl = douts.*1 →
  Pipeline.downloaded dl = Pipeline.countIf snd douts →
  Pipeline.downloadFailed dl = Pipeline.countIf (λ r, negb r.2) douts →
  Pipeline.resultSound
    {| Sync.resultChainId := chain;
       Sync.totalTokens := Z.of_nat (length tokens);
       Sync.existingImages := existing;
       Sync.migratedFromLocal := Pipeline.migrated mig;
       Sync.downloadedImages := Pipeline.downloaded dl;
       Sync.failedDownloads := Pipeline.migrationFailed mig + Pipeline.downloadFailed dl;
       Sync.duration := d;
       Sync.details :=
         ((Pipeline.existsDetail <$> List.filter Storage.exists_ checks)
          ++ Pipeline.migrationDetails mig ++ Pipeline.downloadDetails dl)%list |} ∧
  Pipeline.oneEntryPerToken tokens
    {| Sync.resultChainId := chain;
       Sync.totalTokens := Z.of_nat (length tokens);
       Sync.existingImages := existing;
       Sync.migratedFromLocal := Pipeline.migrated mig;
       Sync.downloadedImages := Pipeline.downloaded dl;
       Sync.failedDownloads := Pipeline.migrationFailed mig + Pipeline.downloadFailed dl;
       Sync.duration := d;
       Sync.details :=
         ((Pipeline.existsDetail <$> List.filter Storage.exists_ checks)
          ++ Pipeline.migrationDetails mig ++ Pipeline.downloadDetails dl)%list |}.
Proof.
  intros (Hne & Hlow & -> & hasLocal & mouts & Hperm & Hmtag & Hmd & Hmig & Hmfail)
    Hdtag Hdd Hdl Hdfail.
  apply lowercaseTokens_addresses in Hlow as [Haddr Hlen].
  rewrite length_fmap in Hlen.
  pose proof (filter_partition Storage.exists_ checks) as Hpart.
  pose proof (Permutation_length Hpart) as Hpartlen. rewrite length_app in Hpartlen.
  pose proof (Permutation_length Hperm) as Hpermlen.
  rewrite !length_fmap, length_app in Hpermlen.
  pose proof (Forall2_length _ _ _ Hmtag) as Hmlen.
  pose proof (Forall2_length _ _ _ Hdtag) as Hdlen.
  pose proof (countIf_split snd mouts) as Hmsplit.
  pose proof (countIf_split snd douts) as Hdsplit.
  unfold Pipeline.countIf in *.
  destruct (tagged_counts Sync.st_migrated hasLocal mouts ltac:(done) Hmtag)
    as (Hmaddr & Hmcf & Hmcg & Hmco).
  destruct (tagged_counts Sync.st_downloaded stillMissing douts ltac:(done) Hdtag)
    as (Hdaddr & Hdcf & Hdcg & Hdco).
  unfold Pipeline.countIf in *.
  pose proof (Permutation_length Hmd) as Hmdlen. rewrite length_fmap in Hmdlen.
  split.
  - unfold Pipeline.resultSound. simpl.
    rewrite !length_app, !length_fmap, Hdd, length_fmap.
    rewrite !countStatus_app, !existsDetail_count.
    rewrite !(countStatus_Permutation _ _ _ Hmd).
    rewrite Hmcf, Hmcg, Hdcf, Hdcg.
    rewrite (Hmco Sync.st_exists), (Hmco Sync.st_downloaded) by done.
    rewrite (Hdco Sync.st_exists), (Hdco Sync.st_migrated) by done.
    repeat case_bool_decide; try done.
    split_and!; lia.
  - split; [done|]. simpl.
    rewrite !fmap_app, existsDetail_addresses, Hmd, Hmaddr, Hdd, Hdaddr.
    rewrite <-fmap_app, Hperm, <-fmap_app, Hpart.
    rewrite <-Haddr, <-list_fmap_compose. done.
Qed.

(** *** One step of [performSync] *)

Lemma progressUpdate_isProgress phase current total :
  Pipeline.isProgress (Pipeline.progressUpdate phase current total).
Proof. done. Qed.

Lemma failedUpdate_isTerminal now msg :
  Pipeline.isTerminal (Pipeline.failedUpdate now msg).
Proof. split; [by eexists|]. right. split_and!; [done|done|by eexists]. Qed.


Lemma resume_next chain pc w updates pc' w' :
  Pipeline.consistent chain pc →
  Pipeline.resume E chain pc w = Some (updates, Some pc', w') →
  Pipeline.consistent chain pc' ∧ Forall Pipeline.isProgress updates ∧
  (∀ tokens, Pipeline.tokensOf pc = Some tokens → Pipeline.tokensOf pc' = Some tokens) ∧
  (Pipeline.tokensOf pc = None →
   ∃ tokens, (Pipeline.fetchTokensFromEuler E chain w).1 = Sync.JsonArray tokens ∧
             Pipeline.tokensOf pc' = Some tokens).
Proof.
  destruct pc as [t|t tokens tokenList|t tokens checks missing existing
                 |t tokens checks existing hasLocal stillMissing
                 |t tokens checks existing mig stillMissing]; simpl.
  - intros _. destruct (Pipeline.fetchTokensFromEuler E chain w) as [[|tokens] w1].
    { destruct (Sync.dateNow E w1). done. }
    destruct (length tokens =? 0)%nat eqn:Hlen.
    { destruct (Sync.dateNow E w1) as [? w2]. destruct (Sync.dateNow E w2). done. }
    destruct (Pipeline.lowercaseTokens chain tokens) as [tokenList|] eqn:Hlow.
    + intros [= <- <- <-]. split_and!.
      * split; [|done]. intros ->. done.
      * repeat constructor.
      * done.
      * intros _. by exists tokens.
    + destruct (Sync.dateNow E w1). done.
  - intros [Hne Hlow].
    destruct (Storage.bulkCheckImagesInStorage _ tokenList w) as [checks w1] eqn:Hbulk.
    intros [= <- <- <-]. apply bulkCheck_tokens in Hbulk. split_and!.
    + split_and!; [done|by rewrite Hbulk|done|].
      pose proof (Permutation_length (filter_partition Storage.exists_ checks)) as Hlen.
      rewrite length_app in Hlen. lia.
    + repeat constructor.
    + by intros ? [= <-].
    + done.
  - intros (Hne & Hlow & -> & ->). intros [= <- <- <-]. split_and!.
    + split_and!; [done..|].
      match goal with
      | |- context [List.filter LocalImagesProvider.hasLocal ?lc] =>
          rewrite (filter_partition LocalImagesProvider.hasLocal lc)
      end.
      destruct (Manager.getLocalProvider _).
      * rewrite bulkCheckLocalImages_addresses, <-list_fmap_compose.
        by apply reflexive_eq, list_fmap_ext.
      * rewrite <-list_fmap_compose. by apply reflexive_eq, list_fmap_ext.
    + repeat constructor.
    + by intros ? [= <-].
    + done.
  - intros (Hne & Hlow & -> & Hperm).
    destruct (Pipeline.migrateLocalImages E hasLocal w) as [mig w1] eqn:Hmig.
    intros [= <- <- <-].
    apply migrateLocalImages_outcomes in Hmig
      as (outcomes & Hall & Hdetails & Hm & Hf).
    split_and!.
    + split_and!; [done..|]. exists hasLocal, outcomes. split_and!; try done.
      eapply Forall2_impl; [exact Hall|]. apply migratedAs_tagged.
    + repeat constructor.
    + by intros ? [= <-].
    + done.
  - intros _. destruct (Pipeline.downloadMissingImages E stillMissing w) as [[dl w1]|];
      [|done].
    destruct (Sync.dateNow E w1) as [? w2]. destruct (Sync.dateNow E w2). done.
Qed.

Lemma resume_end chain pc w updates w' :
  Pipeline.consistent chain pc →
  Pipeline.resume E chain pc w = Some (updates, None, w') →
  ∃ pre u,
    updates = (pre ++ [u])%list ∧ Forall Pipeline.isProgress pre ∧
    Pipeline.isTerminal u ∧
    (∀ res, Sync.setResult u = Some res →
       Pipeline.resultSound res ∧
       (Pipeline.tokensOf pc = None → Sync.totalTokens res = 0) ∧
       ∀ tokens, Pipeline.tokensOf pc = Some tokens →
                 Pipeline.oneEntryPerToken tokens res).
Proof.
  destruct pc as [t|t tokens tokenList|t tokens checks missing existing
                 |t tokens checks existing hasLocal stillMissing
                 |t tokens checks existing mig stillMissing]; simpl.
  - intros _. destruct (Pipeline.fetchTokensFromEuler E chain w) as [[|tokens] w1].
    { destruct (Sync.dateNow E w1) as [now w2]. intros [= <- <-].
      exists [], (Pipeline.failedUpdate now Pipeline.typeErrorLength).
      split_and!; [done|constructor|apply failedUpdate_isTerminal|done]. }
    destruct (length tokens =? 0)%nat eqn:Hlen.
    { destruct (Sync.dateNow E w1) as [now1 w2]. destruct (Sync.dateNow E w2) as [now2 w3].
      intros [= <- <-]. eexists [], _. split_and!; [done|constructor| |].
      - split; [by eexists|]. left. split_and!; [done|by eexists|done].
      - simpl. intros res [= <-]. split_and!; try done. }
    destruct (Pipeline.lowercaseTokens chain tokens) as [tokenList|msg]; [done|].
    destruct (Sync.dateNow E w1) as [now w2]. intros [= <- <-].
    eexists [_], (Pipeline.failedUpdate now msg).
    split_and!; [done|repeat constructor|apply failedUpdate_isTerminal|done].
  - intros _. by destruct (Storage.bulkCheckImagesInStorage _ tokenList w).
  - done.
  - intros _. by destruct (Pipeline.migrateLocalImages E hasLocal w).
  - intros Hcons.
    destruct (downloadMissingImages_outcomes stillMissing w)
      as (dl & w1 & douts & -> & Hall & Hdd & Hd & Hf).
    destruct (Sync.dateNow E w1) as [now1 w2]. destruct (Sync.dateNow E w2) as [now2 w3].
    intros [= <- <-]. eexists [], _. split_and!; [done|constructor| |].
    + split; [by eexists|]. left. split_and!; [done|by eexists|done].
    + simpl. intros res [= <-].
      assert (Forall2 (Pipeline.taggedWith Sync.st_downloaded) stillMissing douts)
        as Htagged.
      { eapply Forall2_impl; [exact Hall|]. apply downloadedAs_tagged. }
      destruct (compiled_result_sound chain t tokens checks existing mig stillMissing
                  dl douts (now1 - t) Hcons Htagged Hdd Hd Hf) as [Hsound Hentries].
      split_and!; [done|done|]. by intros ? [= <-].
Qed.


End PipelineFacts.

(** Chain 999 of the sample registry has no tokens. *)
Lemma empty_registry_completes_witness :
  ∃ endT res w',
    Pipeline.resume Sample.env 999 (Pipeline.AwaitTokens 999000) Sample.world0
    = Some ([ {| Sync.setStatus := Some Sync.completed; Sync.setEndTime := Some endT;
                 Sync.setProgress := None; Sync.setResult := Some res;
                 Sync.setError := None |} ], None, w') ∧
    Sync.totalTokens res = 0 ∧ Sync.details res = [] ∧ Sync.duration res = 1000.
Proof.
  destruct (empty_registry_completes Sample.env 999 999000 Sample.world0
              (or_intror (or_intror (or_intror eq_refl))))
    as (now & endT & res & w' & Hnow & Hresume & Htotal & _ & _ & _ & _ & Hdetails
        & Hduration & _).
  exists endT, res, w'. split_and!; [exact Hresume|exact Htotal|exact Hdetails|].
  rewrite Hduration, Hnow. reflexivity.
Defined.

(** ** The service: invariant of the reachable states *)

Section Service.
Context (E : Sync.Env).
Implicit Types (s : Pipeline.System E) (statuses : gmap Z Sync.SyncStatus)
  (st : Sync.SyncStatus) (u : Sync.Updates).

Lemma updateSyncStatus_other statuses chain chain' u :
  chain' ≠ chain →
  Sync.updateSyncStatus statuses chain u !! chain' = statuses !! chain'.
Proof.
  intros Hne. unfold Sync.updateSyncStatus.
  destruct (statuses !! chain); [|done]. by rewrite lookup_insert_ne.
Qed.

Lemma updateSyncStatus_same statuses chain st u :
  statuses !! chain = Some st →
  Sync.updateSyncStatus statuses chain u !! chain = Some (Sync.merge st u).
Proof.
  intros Hst. unfold Sync.updateSyncStatus. rewrite Hst. apply lookup_insert_eq.
Qed.

Lemma applyUpdates_other statuses chain chain' updates :
  chain' ≠ chain →
  Pipeline.applyUpdates statuses chain updates !! chain' = statuses !! chain'.
Proof.
  intros Hne. revert statuses. unfold Pipeline.applyUpdates.
  induction updates as [|u updates IH]; intros statuses; simpl; [done|].
  by rewrite IH, updateSyncStatus_other.
Qed.

Lemma applyUpdates_same statuses chain st updates :
  statuses !! chain = Some st →
  Pipeline.applyUpdates statuses chain updates !! chain
  = Some (foldl Sync.merge st updates).
Proof.
  revert statuses st. unfold Pipeline.applyUpdates.
  induction updates as [|u updates IH]; intros statuses st Hst; simpl; [done|].
  apply IH. by apply updateSyncStatus_same.
Qed.

Lemma merge_fields st u :
  Sync.chainId (Sync.merge st u) = Sync.chainId st ∧
  Sync.status (Sync.merge st u) = default (Sync.status st) (Sync.setStatus u) ∧
  Sync.endTime (Sync.merge st u)
    = (if Sync.setEndTime u is Some e then Some e else Sync.endTime st) ∧
  Sync.result (Sync.merge st u)
    = (if Sync.setResult u is Some r then Some r else Sync.result st) ∧
  Sync.error (Sync.merge st u)
    = (if Sync.setError u is Some e then Some e else Sync.error st).
Proof. done. Qed.

Lemma merge_progress st updates :
  Forall Pipeline.isProgress updates →
  Sync.chainId (foldl Sync.merge st updates) = Sync.chainId st ∧
  Sync.status (foldl Sync.merge st updates) = Sync.status st ∧
  Sync.startTime (foldl Sync.merge st updates) = Sync.startTime st ∧
  Sync.endTime (foldl Sync.merge st updates) = Sync.endTime st ∧
  Sync.result (foldl Sync.merge st updates) = Sync.result st ∧
  Sync.error (foldl Sync.merge st updates) = Sync.error st.
Proof.
  intros Hall. revert st. induction Hall as [|u updates (Hs & He & Hr & Herr) _ IH];
    intros st; simpl; [done|].
  destruct (IH (Sync.merge st u)) as (-> & -> & -> & -> & -> & ->).
  unfold Sync.merge. simpl. by rewrite Hs, He, Hr, Herr.
Qed.

(** [startSync] either leaves the map and the pipelines alone, or it
    replaces a missing or finished status by a fresh running one and
    spawns [performSync]. *)
Lemma startSync_cases chain statuses (w : Sync.World E) :
  (Pipeline.spawned E (Pipeline.startSync E chain statuses w) = None ∧
   Pipeline.statusesAfter E (Pipeline.startSync E chain statuses w) = statuses) ∨
  (∃ t st',
     Pipeline.spawned E (Pipeline.startSync E chain statuses w)
       = Some (Pipeline.AwaitTokens t) ∧
     Pipeline.statusesAfter E (Pipeline.startSync E chain statuses w)
       = <[chain := st']> statuses ∧
     (statuses !! chain = None ∨
      ∃ st, statuses !! chain = Some st ∧ Sync.status st ≠ Sync.running) ∧
     Sync.chainId st' = chain ∧ Sync.status st' = Sync.running ∧
     Sync.endTime st' = None ∧ Sync.result st' = None ∧ Sync.error st' = None).
Proof.
  unfold Pipeline.startSync. destruct (Sync.dateNow E w) as [now0 w1].
  destruct (Sync.checkRateLimit statuses now0 chain); [by left|].
  assert (∃ t st',
     Pipeline.spawned E (Pipeline.startNewSync E chain statuses w1)
       = Some (Pipeline.AwaitTokens t) ∧
     Pipeline.statusesAfter E (Pipeline.startNewSync E chain statuses w1)
       = <[chain := st']> statuses ∧
     Sync.chainId st' = chain ∧ Sync.status st' = Sync.running ∧
     Sync.endTime st' = None ∧ Sync.result st' = None ∧ Sync.error st' = None)
    as (t & st' & Hspawn & Hmap & Hfresh).
  { unfold Pipeline.startNewSync.
    destruct (Sync.dateNow E w1) as [now w2]. destruct (Sync.dateNow E w2) as [t w3].
    cbn [Pipeline.spawned Pipeline.statusesAfter].
    match goal with
    | |- context [<[chain := ?f]> statuses] =>
        exists t, (Sync.merge f (Pipeline.progressUpdate "fetching tokens" 0 1))
    end.
    split; [done|]. split; [|done].
    unfold Sync.updateSyncStatus. rewrite lookup_insert_eq.
    by rewrite insert_insert_eq. }
  destruct (statuses !! chain) as [existing|] eqn:Hexisting.
  - destruct (Sync.status existing) eqn:Hstatus.
    + destruct (Sync.dateNow E w1). by left.
    + right. exists t, st'. split_and!; [done|done| |apply Hfresh..].
      right. exists existing. split; [done|]. by rewrite Hstatus.
    + right. exists t, st'. split_and!; [done|done| |apply Hfresh..].
      right. exists existing. split; [done|]. by rewrite Hstatus.
  - right. exists t, st'. split_and!; [done|done|by left|apply Hfresh..].
Qed.

Lemma NoDup_fst_middle {A B} (l1 l2 : list (A * B)) (a : A) (b b' : B) :
  NoDup (l1 ++ (a, b) :: l2).*1 → (a, b') ∉ (l1 ++ l2)%list.
Proof.
  rewrite fmap_app, fmap_cons. simpl. intros Hnodup Hin.
  apply NoDup_app in Hnodup as (_ & Hdisj & Hnd2).
  apply NoDup_cons in Hnd2 as [Hnotin _].
  apply elem_of_app in Hin as [Hin|Hin].
  - apply (Hdisj a); [|by left]. apply list_elem_of_fmap. by exists (a, b').
  - apply Hnotin. apply list_elem_of_fmap. by exists (a, b').
Qed.

Lemma invariant_step s l s' :
  Pipeline.invariant E s → Pipeline.step E s l s' → Pipeline.invariant E s'.
Proof.
  intros (Hnodup & Hpipes & Hstatuses) Hstep.
  destruct Hstep as [chain s|i chain pc updates next w' s Hi Hresume|w' s].
  - (* startSync *)
    cbv zeta. unfold Pipeline.invariant. cbn [Pipeline.syncStatuses Pipeline.pipelines].
    destruct (startSync_cases chain (Pipeline.syncStatuses E s) (Pipeline.world E s))
      as [[-> ->]|(t & st' & -> & -> & Hfree & Hid & Hrun & Hend & Hres & Herr)].
    { split_and!; [done|done|]. intros c st Hst. specialize (Hstatuses c st Hst).
      done. }
    assert (∀ pc, (chain, pc) ∉ Pipeline.pipelines E s) as Hnone.
    { intros pc Hin. destruct (Hpipes chain pc Hin) as (_ & st & Hst & Hstrun).
      destruct Hfree as [Hfree|(st0 & Hst0 & Hterm)]; congruence. }
    split_and!; simpl.
    + rewrite fmap_app. apply NoDup_app. split_and!; [done| |apply NoDup_singleton].
      intros c Hc Hc'. apply list_elem_of_singleton in Hc'. subst c.
      apply list_elem_of_fmap in Hc as ([c pc] & Heq & Hin). simpl in Heq. subst c.
      by apply (Hnone pc).
    + intros c pc Hin. apply elem_of_app in Hin as [Hin|Hin].
      * destruct (Hpipes c pc Hin) as (Hcons & st & Hst & Hstrun).
        split; [done|]. exists st. split; [|done].
        rewrite lookup_insert_ne; [done|]. intros <-. by apply (Hnone pc).
      * apply list_elem_of_singleton in Hin. injection Hin as -> ->.
        split; [split; [done|left; by eexists]|].
        exists st'. by rewrite lookup_insert_eq.
    + intros c st Hst. destruct (decide (c = chain)) as [->|Hne].
      * rewrite lookup_insert_eq in Hst. injection Hst as <-.
        split; [done|]. rewrite Hrun. split_and!; [done..|].
        exists (Pipeline.AwaitTokens t). apply elem_of_app. right. by left.
      * rewrite lookup_insert_ne in Hst by done.
        destruct (Hstatuses c st Hst) as [Hcid Hsound]. split; [done|].
        destruct (Sync.status st); [|done..].
        destruct Hsound as (? & ? & ? & pc & Hin). split_and!; [done..|].
        exists pc. apply elem_of_app. by left.
  - (* a suspended performSync continues *)
    apply list_elem_of_split_length in Hi as (l1 & l2 & Hsplit & ->).
    rewrite Hsplit in Hnodup, Hpipes.
    destruct (Hpipes chain pc) as ([Hcons Hsusp] & st & Hst & Hstrun).
    { apply elem_of_app. right. by left. }
    destruct (Hstatuses chain st Hst) as [Hcid Hsound]. rewrite Hstrun in Hsound.
    destruct Hsound as (Hend & Hres & Herr & _).
    destruct next as [pc'|].
    + destruct (resume_next E chain pc _ updates pc' w' Hcons Hresume)
        as (Hcons' & Hprogress & _ & Hfetched).
      assert (Pipeline.suspended E chain pc') as Hsusp'.
      { right. destruct Hsusp as [[t ->]|[tokens Hholds]].
        - destruct (Hfetched eq_refl) as (tokens & Hfetch & _).
          exists tokens. by eapply Pipeline.holds_fetched.
        - exists tokens. by eapply Pipeline.holds_next. }
      destruct (merge_progress st updates Hprogress)
        as (Hm1 & Hm2 & Hm3 & Hm4 & Hm5 & Hm6).
      rewrite Hsplit. rewrite insert_app_r_alt by lia.
      rewrite Nat.sub_diag. simpl.
      split_and!; simpl.
      * by rewrite fmap_app, fmap_cons in *.
      * intros c q Hin.
        assert (c = chain ∧ q = pc' ∨ c ≠ chain ∧ (c, q) ∈ (l1 ++ (chain, pc) :: l2)%list
                ∨ c = chain) as Hcases.
        { destruct (decide (c = chain)) as [->|Hne]; [by right; right|].
          right; left. split; [done|].
          apply elem_of_app in Hin as [Hin|Hin]; apply elem_of_app; [by left|].
          apply elem_of_cons in Hin as [[= -> ->]|Hin]; [done|]. right. by right. }
        destruct (decide (c = chain)) as [->|Hne].
        -- split.
           ++ apply elem_of_app in Hin as [Hin|Hin].
              ** exfalso. eapply (NoDup_fst_middle l1 l2 chain pc q); [done|].
                 apply elem_of_app. by left.
              ** apply elem_of_cons in Hin as [[= ->]|Hin]; [by split|].
                 exfalso. eapply (NoDup_fst_middle l1 l2 chain pc q); [done|].
                 apply elem_of_app. by right.
           ++ eexists. rewrite (applyUpdates_same _ _ st) by done.
              split; [done|]. by rewrite Hm2.
        -- destruct (Hpipes c q) as (Hc & st0 & Hst0 & Hrun0).
           { apply elem_of_app in Hin as [Hin|Hin]; apply elem_of_app; [by left|].
             apply elem_of_cons in Hin as [[= -> ->]|Hin]; [done|]. right. by right. }
           split; [done|]. exists st0. by rewrite applyUpdates_other.
      * intros c st0 Hst0. destruct (decide (c = chain)) as [->|Hne].
        -- rewrite (applyUpdates_same _ _ st) in Hst0 by done. injection Hst0 as <-.
           split; [by rewrite Hm1|]. rewrite Hm2, Hstrun, Hm4, Hm5, Hm6.
           split_and!; [done..|]. exists pc'. apply elem_of_app. right. by left.
        -- rewrite applyUpdates_other in Hst0 by done.
           destruct (Hstatuses c st0 Hst0) as [Hcid0 Hsound0]. split; [done|].
           destruct (Sync.status st0); [|done..].
           destruct Hsound0 as (? & ? & ? & q & Hin). split_and!; [done..|].
           exists q. rewrite Hsplit in Hin.
           apply elem_of_app in Hin as [Hin|Hin]; apply elem_of_app; [by left|].
           apply elem_of_cons in Hin as [[= -> ->]|Hin]; [done|]. right. by right.
    + destruct (resume_end E chain pc _ updates w' Hcons Hresume)
        as (pre & u & -> & Hprogress & Hterminal & Hresult).
      destruct (merge_progress st pre Hprogress)
        as (Hm1 & Hm2 & Hm3 & Hm4 & Hm5 & Hm6).
      rewrite Hsplit. rewrite delete_middle.
      split_and!; simpl.
      * rewrite fmap_app, fmap_cons in Hnodup. rewrite fmap_app.
        apply NoDup_app in Hnodup as (Hn1 & Hdisj & Hn2).
        apply NoDup_cons in Hn2 as [_ Hn2]. apply NoDup_app. split_and!; [done| |done].
        intros x Hx Hx'. apply (Hdisj x Hx). by right.
      * intros c q Hin.
        assert (c ≠ chain) as Hne.
        { intros ->. by eapply (NoDup_fst_middle l1 l2 chain pc q). }
        destruct (Hpipes c q) as (Hc & st0 & Hst0 & Hrun0).
        { apply elem_of_app in Hin as [Hin|Hin]; apply elem_of_app; [by left|].
          right. by right. }
        split; [done|]. exists st0. by rewrite applyUpdates_other.
      * intros c st0 Hst0. destruct (decide (c = chain)) as [->|Hne].
        -- rewrite (applyUpdates_same _ _ st) in Hst0 by done. injection Hst0 as <-.
           rewrite foldl_app. cbn [foldl]. unfold Pipeline.statusSound.
           destruct Hterminal as [[e He] [(Hs & [res Hr] & Herr')|(Hs & Hr & [msg Hmsg])]].
           ++ destruct (merge_fields (foldl Sync.merge st pre) u)
                as (-> & -> & -> & -> & ->).
              rewrite Hs, He, Hr, Herr', Hm1, Hm6. simpl.
              split_and!; [done|by eexists|done|].
              exists res. split; [done|]. by apply Hresult.
           ++ destruct (merge_fields (foldl Sync.merge st pre) u)
                as (-> & -> & -> & -> & ->).
              rewrite Hs, He, Hr, Hmsg, Hm1, Hm5. simpl.
              split_and!; [done|by eexists|done|by eexists].
        -- rewrite applyUpdates_other in Hst0 by done.
           destruct (Hstatuses c st0 Hst0) as [Hcid0 Hsound0]. split; [done|].
           destruct (Sync.status st0); [|done..].
           destruct Hsound0 as (? & ? & ? & q & Hin). split_and!; [done..|].
           exists q. rewrite Hsplit in Hin.
           apply elem_of_app in Hin as [Hin|Hin]; apply elem_of_app; [by left|].
           apply elem_of_cons in Hin as [[= -> ->]|Hin]; [done|]. by right.
  - (* the environment changes *)
    split_and!; [done|done|]. intros c st Hst. by apply (Hstatuses c st Hst).
Qed.

Lemma reachable_invariant s : Pipeline.reachable E s → Pipeline.invariant E s.
Proof.
  induction 1 as [w|s l s' _ IH Hstep].
  - split_and!; simpl.
    + constructor.
    + intros chain pc Hin. by apply elem_of_nil in Hin.
    + intros chain st Hst. by rewrite lookup_empty in Hst.
  - by eapply invariant_step.
Qed.



(** C3. In every reachable state a status that is not running is either
    completed or failed, it stays what it is until a new [startSync] for
    its chain, its result is populated exactly when it is completed, and
    a failed status carries an error message and no result. *)
Theorem terminal_state_exclusive s :
  Pipeline.reachable E s →
  (∀ chain st,
      Pipeline.syncStatuses E s !! chain = Some st →
      (Sync.status st ≠ Sync.running →
       (Sync.status st = Sync.completed ∧ Sync.status st ≠ Sync.failed) ∨
       (Sync.status st = Sync.failed ∧ Sync.status st ≠ Sync.completed)) ∧
      (is_Some (Sync.result st) ↔ Sync.status st = Sync.completed) ∧
      (Sync.status st = Sync.failed →
       is_Some (Sync.error st) ∧ Sync.result st = None) ∧
      (Sync.status st = Sync.completed → Sync.error st = None)) ∧
  (∀ l s' chain st,
      Pipeline.step E s l s' →
      Pipeline.syncStatuses E s !! chain = Some st →
      Sync.status st ≠ Sync.running →
      l ≠ Pipeline.CallStartSync chain →
      Pipeline.syncStatuses E s' !! chain = Some st).
Proof.
  intros Hreach. apply reachable_invariant in Hreach as (Hnodup & Hpipes & Hstatuses).
  split.
  - intros chain st Hst. destruct (Hstatuses chain st Hst) as [_ Hsound].
    destruct (Sync.status st); simpl in Hsound.
    + destruct Hsound as (_ & Hres & Herr & _). rewrite Hres.
      split_and!; [done| |done|done]. split; [by intros [? ?]|done].
    + destruct Hsound as (_ & Herr & res & Hres & _). rewrite Hres.
      split_and!; [by left|by split; [|eexists]|done|done].
    + destruct Hsound as (_ & Hres & Herr). rewrite Hres.
      split_and!; [by right| |done|done]. split; [by intros [? ?]|done].
  - intros l s' chain st Hstep Hst Hterm Hlabel.
    destruct Hstep as [chain' s|i chain' pc updates next w' s Hi Hresume|w' s].
    + cbv zeta. cbn [Pipeline.syncStatuses].
      destruct (startSync_cases chain' (Pipeline.syncStatuses E s) (Pipeline.world E s))
        as [[_ ->]|(t & st' & _ & -> & _)]; [done|].
      rewrite lookup_insert_ne; [done|]. by intros ->.
    + cbn [Pipeline.syncStatuses].
      assert (chain ≠ chain') as Hne.
      { intros <-. destruct (Hpipes chain pc) as (_ & st0 & Hst0 & Hrun).
        - by eapply list_elem_of_lookup_2.
        - congruence. }
      by rewrite applyUpdates_other.
    + done.
Qed.


End Service.

(** Chain 999 of the sample registry is empty: its sync is started and
    completes at the next step, with a result. *)
Lemma terminal_state_exclusive_witness :
  ∃ s st,
    Pipeline.reachable Sample.env s ∧
    Pipeline.syncStatuses Sample.env s !! 999 = Some st ∧
    Sync.status st = Sync.completed ∧ is_Some (Sync.result st).
Proof.
  assert (∃ s st,
    Pipeline.reachable Sample.env s ∧
    Pipeline.syncStatuses Sample.env s !! 999 = Some st ∧
    Sync.status st = Sync.completed) as (s & st & Hreach & Hst & Hstatus).
  { sample_run ipattern:(Hrun) 1%nat 999.
    eexists _, _. split; [exact Hrun|]. split; vm_compute; reflexivity. }
  exists s, st. split_and!; [exact Hreach|exact Hst|exact Hstatus|].
  apply (proj1 (terminal_state_exclusive Sample.env s Hreach)) in Hst as (_ & Hiff & _).
  by apply Hiff.
Defined.



(** A provider that throws ahead of provider B does not keep B's result
    from being returned. *)
Lemma fetchImage_tolerates_throwing_witness :
  Manager.fetchImage Sample.bFaster [Sample.throwing "alchemy"; Sample.providerB]
    1 Sample.usdc
  = Some (Some (Sample.pngAt "1inch" "https://b.example/logo.png")).
Proof.
  apply (proj2 (proj1 (proj2 (fetchImage_tolerates_throwing Sample.bFaster
           [Sample.throwing "alchemy"; Sample.providerB] 1 Sample.usdc))
         0%nat (Sample.throwing "alchemy") "ECONNRESET" 1%nat Sample.providerB
         (Sample.pngAt "1inch" "https://b.example/logo.png")
         eq_refl eq_refl eq_refl (conj eq_refl eq_refl))).
  intros [|k] q' Hk Hq; [|lia]. injection Hq as <-. right; left. by eexists.
Defined.

(** ** The model at work *)

Section Examples.

(** The four ways in which a token of the download loop fails: no
    provider has an image, the image host cannot be reached, the storage
    write answers [false], the storage write throws. *)
Example download_failures :
  fst <$> Pipeline.downloadOne Sample.env (Sample.missing "0x999") Sample.world0
    = Some (Sample.failedDetail "0x999" None, false) ∧
  fst <$> Pipeline.downloadOne Sample.env (Sample.missing "0x123") Sample.world0
    = Some (Sample.failedDetail "0x123" (Some "coingecko"), false) ∧
  fst <$> Pipeline.downloadOne Sample.env (Sample.missing "0xdef")
            (Sample.offline Sample.world0)
    = Some (Sample.failedDetail "0xdef" (Some "coingecko"), false) ∧
  fst <$> Pipeline.downloadOne Sample.envThrowing (Sample.missing "0xdef") Sample.world0
    = Some (Sample.failedDetail "0xdef" None, false).
Proof. split_and!; vm_compute; reflexivity. Qed.

(** Exactly at the end of the window the call is accepted. *)
Example startSync_at_window_end :
  ∃ fresh,
    Pipeline.answer Sample.env
      (Pipeline.startSync Sample.env 1 {[ 1 := Sample.finishedAt 1 940000 ]}
         Sample.world0) = Pipeline.Started fresh ∧
    Sync.status fresh = Sync.running ∧ Sync.startTime fresh = 1000000.
Proof. eexists. split_and!; vm_compute; reflexivity. Qed.

(** A running sync that outlived the window is answered as it is, and
    no second [performSync] is spawned. *)
Example startSync_while_still_running :
  let st := {| Sync.chainId := 1; Sync.status := Sync.running;
               Sync.startTime := 900000; Sync.endTime := None;
               Sync.progress := None; Sync.result := None; Sync.error := None;
               Sync.remainingTime := None |} in
  let out := Pipeline.startSync Sample.env 1 {[ 1 := st ]} Sample.world0 in
  Pipeline.spawned Sample.env out = None ∧
  Pipeline.statusesAfter Sample.env out = {[ 1 := st ]} ∧
  ∃ answered, Pipeline.answer Sample.env out = Pipeline.Started answered ∧
              Sync.status answered = Sync.running ∧
              Sync.remainingTime answered = Some 0.
Proof. split_and!; [vm_compute; reflexivity..|]. eexists. split_and!; vm_compute; reflexivity. Qed.

(** The registry answers [null] for chain 7: the sync fails with the
    message of the error and without a result. *)
Example failed_sync :
  ∃ s st,
    Pipeline.reachable Sample.env s ∧
    Pipeline.syncStatuses Sample.env s !! 7 = Some st ∧
    Sync.status st = Sync.failed ∧ Sync.result st = None ∧
    Sync.error st = Some Pipeline.typeErrorLength ∧
    Pipeline.pipelines Sample.env s = [].
Proof.
  sample_run ipattern:(Hrun) 1%nat 7.
  eexists _, _. split; [exact Hrun|]. split_and!; vm_compute; reflexivity.
Qed.

End Examples.

(* ===================================================================== *)
(** * Part III: the rest of the service *)
(* ===================================================================== *)

(** ** The rate-limit queries *)

Section RateLimitQueries.
Context (E : Sync.Env).
Implicit Types (statuses : gmap Z Sync.SyncStatus) (st : Sync.SyncStatus).

(** The instant from which the window of a status is counted. *)
Lemma calculateRemainingTime_cases statuses now chain :
  (statuses !! chain = None ∧
   Sync.checkRateLimit statuses now chain = None ∧
   Sync.calculateRemainingTime statuses now chain = 0) ∨
  ∃ st since,
    statuses !! chain = Some st ∧
    since = (if bool_decide (Sync.status st = Sync.running) then Sync.startTime st
             else Js.orNumber (Sync.endTime st) (Sync.startTime st)) ∧
    Sync.calculateRemainingTime statuses now chain
      = Z.max 0 (Sync.rateLimitMs - (now - since)) ∧
    (now - since < Sync.rateLimitMs →
     ∃ e, Sync.checkRateLimit statuses now chain = Some e ∧
          Sync.rateLimitedChainId e = chain ∧
          Sync.rateLimitRemainingTime e = Sync.rateLimitMs - (now - since)) ∧
    (Sync.rateLimitMs ≤ now - since → Sync.checkRateLimit statuses now chain = None).
Proof.
  destruct (statuses !! chain) as [st|] eqn:Hst.
  - right. exists st. eexists. split; [done|]. split; [done|].
    unfold Sync.calculateRemainingTime. rewrite Hst.
    destruct (Sync.status st) eqn:Hstatus; rewrite ?bool_decide_eq_true_2 by done;
      rewrite ?bool_decide_eq_false_2 by done; (split; [done|]).
    + rewrite (checkRateLimit_running statuses now chain st Hst Hstatus).
      split; intros Hlt.
      * rewrite (proj2 (Z.ltb_lt _ _) Hlt). by eexists.
      * by rewrite (proj2 (Z.ltb_ge _ _) Hlt).
    + rewrite (checkRateLimit_terminal statuses now chain st Hst) by (by rewrite Hstatus).
      cbv zeta. split; intros Hlt.
      * rewrite (proj2 (Z.ltb_lt _ _) Hlt). by eexists.
      * by rewrite (proj2 (Z.ltb_ge _ _) Hlt).
    + rewrite (checkRateLimit_terminal statuses now chain st Hst) by (by rewrite Hstatus).
      cbv zeta. split; intros Hlt.
      * rewrite (proj2 (Z.ltb_lt _ _) Hlt). by eexists.
      * by rewrite (proj2 (Z.ltb_ge _ _) Hlt).
  - left. split; [done|]. split; [by apply checkRateLimit_no_status|].
    unfold Sync.calculateRemainingTime. by rewrite Hst.
Qed.

(** A rate-limit signal carries a positive remaining time and the chain
    it was asked for. *)
Lemma rateLimit_signal_positive statuses now chain e :
  Sync.checkRateLimit statuses now chain = Some e →
  0 < Sync.rateLimitRemainingTime e ∧ Sync.rateLimitedChainId e = chain.
Proof.
  intros He.
  destruct (calculateRemainingTime_cases statuses now chain)
    as [(_ & Hcheck & _)|(st & since & _ & _ & _ & Hin & Hout)]; [congruence|].
  destruct (Z.lt_ge_cases (now - since) Sync.rateLimitMs) as [Hlt|Hge].
  - destruct (Hin Hlt) as (e' & He' & Hchain & Hrem).
    assert (e' = e) as -> by congruence. split; [lia|done].
  - rewrite (Hout Hge) in He. done.
Qed.

(** X1. [calculateRemainingTime] and [checkRateLimit] agree when they
    read the same clock value: the rate limit passes exactly when no
    time remains, a rate-limit signal carries exactly the remaining
    time, which is positive then, and the remaining time is never
    negative. *)
Theorem remaining_time_agrees_with_rate_limit statuses now chain :
  (Sync.checkRateLimit statuses now chain = None ↔
   Sync.calculateRemainingTime statuses now chain = 0) ∧
  (∀ e, Sync.checkRateLimit statuses now chain = Some e →
        Sync.rateLimitRemainingTime e = Sync.calculateRemainingTime statuses now chain ∧
        0 < Sync.rateLimitRemainingTime e ∧ Sync.rateLimitedChainId e = chain) ∧
  0 ≤ Sync.calculateRemainingTime statuses now chain.
Proof.
  destruct (calculateRemainingTime_cases statuses now chain)
    as [(_ & Hcheck & Hcalc)|(st & since & _ & _ & Hcalc & Hin & Hout)].
  - rewrite Hcheck, Hcalc. split_and!; done.
  - rewrite Hcalc. destruct (Z.lt_ge_cases (now - since) Sync.rateLimitMs) as [Hlt|Hge].
    + destruct (Hin Hlt) as (e & -> & Hchain & Hrem). split_and!; [split; [done|lia]| |lia].
      intros e' [= <-]. rewrite Hrem. split_and!; [lia|lia|done].
    + rewrite (Hout Hge). split_and!; [split; [lia|done]|done|lia].
Qed.

(** X2. [getRateLimitInfo] answers [canSync: false] exactly when
    [checkRateLimit] raises the signal at the first clock reading.  When
    the clock does not go back between the two readings, an answer with
    [canSync: true] always has remaining time 0 and the message "Can
    sync immediately.", and the remaining time of an answer with
    [canSync: false] is at most that of the signal. *)
Theorem getRateLimitInfo_answers chain statuses (w : Sync.World E) :
  let now0 := (Sync.dateNow E w).1 in
  let now1 := (Sync.dateNow E (Sync.dateNow E w).2).1 in
  let info := (Service.getRateLimitInfo E chain statuses w).1 in
  (Service.canSync info = true ↔ Sync.checkRateLimit statuses now0 chain = None) ∧
  0 ≤ Service.infoRemainingTime info ∧
  (now0 ≤ now1 →
   (Service.canSync info = true →
    Service.infoRemainingTime info = 0 ∧
    Service.infoMessage info = "Can sync immediately.") ∧
   (∀ e, Sync.checkRateLimit statuses now0 chain = Some e →
      Service.canSync info = false ∧
      Service.infoMessage info = Sync.message e ∧
      Service.infoRemainingTime info ≤ Sync.rateLimitRemainingTime e)).
Proof.
  cbv zeta. unfold Service.getRateLimitInfo.
  destruct (Sync.dateNow E w) as [now0 w1]. cbn [fst snd].
  destruct (Sync.dateNow E w1) as [now1 w2]. cbn [fst snd].
  destruct (calculateRemainingTime_cases statuses now1 chain)
    as [(Hnone & _ & Hcalc1)|(st & since & Hst & Hsince & Hcalc1 & _ & _)].
  - rewrite Hcalc1, (checkRateLimit_no_status statuses now0 chain Hnone).
    cbn [Service.canSync Service.infoRemainingTime Service.infoMessage fst].
    split_and!; [done|done|]. intros _. split; [done|]. by intros e [=].
  - destruct (calculateRemainingTime_cases statuses now0 chain)
      as [(Hnone & _)|(st' & since' & Hst' & Hsince' & _ & Hin & Hout)]; [congruence|].
    assert (st' = st) as -> by congruence. assert (since' = since) as -> by congruence.
    rewrite Hcalc1.
    destruct (Z.lt_ge_cases (now0 - since) Sync.rateLimitMs) as [Hlt|Hge].
    + destruct (Hin Hlt) as (e & -> & Hchain & Hrem).
      cbn [Service.canSync Service.infoRemainingTime Service.infoMessage fst].
      split_and!; [split; done|lia|]. intros Hmono. split; [done|].
      intros e' [= <-]. split_and!; [done|done|lia].
    + rewrite (Hout Hge).
      cbn [Service.canSync Service.infoRemainingTime Service.infoMessage fst].
      split_and!; [done|lia|]. intros Hmono.
      split; [|by intros e [=]]. intros _.
      assert (Z.max 0 (Sync.rateLimitMs - (now1 - since)) = 0) as -> by lia.
      done.
Qed.

End RateLimitQueries.

(** ** [startSync], [performSync] and the polling of [syncTokenImages] *)

Section ServiceRuns.
Context (E : Sync.Env).
Implicit Types (s : Pipeline.System E) (statuses : gmap Z Sync.SyncStatus)
  (st : Sync.SyncStatus).

(** [startSync] on a chain whose status is running. *)
Lemma startSync_on_running chain statuses (w : Sync.World E) st :
  statuses !! chain = Some st → Sync.status st = Sync.running →
  let now0 := (Sync.dateNow E w).1 in
  let out := Pipeline.startSync E chain statuses w in
  Pipeline.spawned E out = None ∧ Pipeline.statusesAfter E out = statuses ∧
  (now0 - Sync.startTime st < Sync.rateLimitMs →
   ∃ e, Pipeline.answer E out = Pipeline.RateLimited e ∧
        Sync.checkRateLimit statuses now0 chain = Some e) ∧
  (Sync.rateLimitMs ≤ now0 - Sync.startTime st →
   Sync.checkRateLimit statuses now0 chain = None ∧
   ∃ st', Pipeline.answer E out = Pipeline.Started st' ∧
          Sync.status st' = Sync.running ∧
          Sync.startTime st' = Sync.startTime st ∧
          Sync.progress st' = Sync.progress st).
Proof.
  intros Hst Hrun. cbv zeta. unfold Pipeline.startSync.
  destruct (Sync.dateNow E w) as [now0 w1]. cbn [fst].
  rewrite (checkRateLimit_running statuses now0 chain st Hst Hrun).
  destruct (Z.ltb_spec (now0 - Sync.startTime st) Sync.rateLimitMs) as [Hlt|Hge].
  - cbn [Pipeline.spawned Pipeline.statusesAfter Pipeline.answer].
    split_and!; [done|done| |lia]. intros _. by eexists.
  - rewrite Hst, Hrun. destruct (Sync.dateNow E w1) as [now w2].
    cbn [Pipeline.spawned Pipeline.statusesAfter Pipeline.answer].
    split_and!; [done|done|lia|]. intros _. split; [done|]. by eexists.
Qed.

(** X3. [startSync] never replaces a running sync: whatever the clock
    says, it spawns no [performSync] and leaves the status map as it is.
    Inside the window it answers the rate-limit signal; once the window
    has passed it answers the old running status, although
    [getRateLimitInfo] then reports [canSync: true]. *)
Theorem startSync_never_replaces_running chain statuses (w : Sync.World E) st :
  statuses !! chain = Some st → Sync.status st = Sync.running →
  let now0 := (Sync.dateNow E w).1 in
  let out := Pipeline.startSync E chain statuses w in
  Pipeline.spawned E out = None ∧ Pipeline.statusesAfter E out = statuses ∧
  (now0 - Sync.startTime st < Sync.rateLimitMs →
   ∃ e, Pipeline.answer E out = Pipeline.RateLimited e) ∧
  (Sync.rateLimitMs ≤ now0 - Sync.startTime st →
   Service.canSync (Service.getRateLimitInfo E chain statuses w).1 = true ∧
   ∃ st', Pipeline.answer E out = Pipeline.Started st' ∧
          Sync.status st' = Sync.running ∧
          Sync.startTime st' = Sync.startTime st ∧
          Sync.progress st' = Sync.progress st).
Proof.
  intros Hst Hrun. cbv zeta.
  destruct (startSync_on_running chain statuses w st Hst Hrun)
    as (Hspawn & Hmap & Hin & Hout).
  split_and!; [done|done| |].
  - intros Hlt. destruct (Hin Hlt) as (e & He & _). by exists e.
  - intros Hge. destruct (Hout Hge) as [Hcheck Hanswer]. split; [|done].
    unfold Service.getRateLimitInfo. destruct (Sync.dateNow E w) as [now0 w1].
    cbn [fst] in Hcheck. rewrite Hcheck. by destruct (Sync.dateNow E w1).
Qed.

(** X4. In every reachable state at most one [performSync] is
    suspended per chain, a chain has a suspended [performSync] exactly
    when its status is running, and every status is stored under its own
    chain id. *)
Theorem one_sync_per_chain s :
  Pipeline.reachable E s →
  NoDup (Pipeline.pipelines E s).*1 ∧
  (∀ chain,
     (∃ pc, (chain, pc) ∈ Pipeline.pipelines E s) ↔
     ∃ st, Pipeline.syncStatuses E s !! chain = Some st ∧
           Sync.status st = Sync.running) ∧
  (∀ chain st, Pipeline.syncStatuses E s !! chain = Some st →
               Sync.chainId st = chain).
Proof.
  intros Hreach. apply reachable_invariant in Hreach as (Hnodup & Hpipes & Hstatuses).
  split_and!; [done| |].
  - intros chain. split.
    + intros [pc Hpc]. by destruct (Hpipes chain pc Hpc) as [_ ?].
    + intros (st & Hst & Hrun). destruct (Hstatuses chain st Hst) as [_ Hsound].
      rewrite Hrun in Hsound. by destruct Hsound as (_ & _ & _ & ?).
  - intros chain st Hst. by destruct (Hstatuses chain st Hst) as [? _].
Qed.

End ServiceRuns.

Section ServiceEnds.
Context (E : Sync.Env).
Implicit Types (s : Pipeline.System E) (statuses : gmap Z Sync.SyncStatus)
  (st : Sync.SyncStatus).




(** After [startSync] answered a status, the map holds a running status
    for the chain. *)
Lemma startSync_started chain statuses (w : Sync.World E) st' :
  Pipeline.answer E (Pipeline.startSync E chain statuses w) = Pipeline.Started st' →
  Sync.status st' = Sync.running ∧
  ∃ st, Pipeline.statusesAfter E (Pipeline.startSync E chain statuses w) !! chain
        = Some st ∧ Sync.status st = Sync.running.
Proof.
  unfold Pipeline.startSync. destruct (Sync.dateNow E w) as [now0 w1].
  destruct (Sync.checkRateLimit statuses now0 chain); [done|].
  assert (∀ st0,
    Pipeline.answer E (Pipeline.startNewSync E chain statuses w1) = Pipeline.Started st0 →
    Sync.status st0 = Sync.running ∧
    ∃ st, Pipeline.statusesAfter E (Pipeline.startNewSync E chain statuses w1) !! chain
          = Some st ∧ Sync.status st = Sync.running) as Hnew.
  { intros st0. unfold Pipeline.startNewSync.
    destruct (Sync.dateNow E w1) as [now w2]. destruct (Sync.dateNow E w2) as [t w3].
    cbn [Pipeline.answer Pipeline.statusesAfter]. intros [= <-]. split; [done|].
    eexists. split; [|shelve].
    unfold Sync.updateSyncStatus. rewrite lookup_insert_eq. apply lookup_insert_eq.
    Unshelve. done. }
  destruct (statuses !! chain) as [existing|] eqn:Hexisting; [|apply Hnew].
  destruct (Sync.status existing) eqn:Hstatus; [|apply Hnew..].
  destruct (Sync.dateNow E w1) as [now w2].
  cbn [Pipeline.answer Pipeline.statusesAfter]. intros [= <-].
  split; [done|]. by exists existing.
Qed.

(** No step of the service removes a status from the map. *)
Lemma step_keeps_statuses s l s' chain :
  Pipeline.step E s l s' →
  is_Some (Pipeline.syncStatuses E s !! chain) →
  is_Some (Pipeline.syncStatuses E s' !! chain).
Proof.
  intros Hstep [st Hst].
  destruct Hstep as [chain' s|i chain' pc updates next w' s Hi Hresume|w' s].
  - cbv zeta. cbn [Pipeline.syncStatuses].
    destruct (startSync_cases E chain' (Pipeline.syncStatuses E s) (Pipeline.world E s))
      as [[_ ->]|(t & st' & _ & -> & _)]; [by eexists|].
    destruct (decide (chain = chain')) as [->|Hne].
    + rewrite lookup_insert_eq. by eexists.
    + rewrite lookup_insert_ne by done. by eexists.
  - cbn [Pipeline.syncStatuses]. destruct (decide (chain = chain')) as [->|Hne].
    + erewrite applyUpdates_same by done. by eexists.
    + rewrite applyUpdates_other by done. by eexists.
  - by eexists.
Qed.

(** X6. The polling of [syncTokenImages].  The call throws the message
    of the rate-limit signal when [startSync] raises it; otherwise its
    first look at the status finds it running.  In every reachable state
    a later look keeps polling while the status is running, resolves
    with the result when it is completed and rejects with the error when
    it is failed; and no step removes a status, so [getSyncStatus] never
    answers [null] again for a chain that has one (the "Sync status
    lost" branch is not taken). *)
Theorem syncTokenImages_polling s :
  Pipeline.reachable E s →
  (∀ chain,
     let out := Pipeline.startSync E chain (Pipeline.syncStatuses E s)
                  (Pipeline.world E s) in
     let called := Service.syncTokenImages E chain (Pipeline.syncStatuses E s)
                     (Pipeline.world E s) in
     (∀ e, Pipeline.answer E out = Pipeline.RateLimited e →
           called.1 = Throws (Sync.message e)) ∧
     (∀ st, Pipeline.answer E out = Pipeline.Started st →
            called.1 = Returns Service.PollAgain)) ∧
  (∀ chain st,
     Pipeline.syncStatuses E s !! chain = Some st →
     let poll := (Service.pollStatus E chain (Pipeline.syncStatuses E s)
                    (Pipeline.world E s)).1 in
     match Sync.status st with
     | Sync.running => poll = Service.PollAgain
     | Sync.completed =>
         ∃ res, Sync.result st = Some res ∧ poll = Service.Resolve res ∧
                Pipeline.resultSound res
     | Sync.failed =>
         ∃ msg, Sync.error st = Some msg ∧
                poll = Service.Reject (if Js.truthy msg then msg else "Sync failed")
     end) ∧
  (∀ l s' chain,
     Pipeline.step E s l s' →
     is_Some (Pipeline.syncStatuses E s !! chain) →
     is_Some (Pipeline.getSyncStatus E chain (Pipeline.syncStatuses E s')
                (Pipeline.world E s')).1).
Proof.
  intros Hreach. split_and!.
  - intros chain. cbv zeta. unfold Service.syncTokenImages. split.
    + intros e ->. done.
    + intros st' Hanswer. rewrite Hanswer.
      destruct (startSync_started chain _ _ st' Hanswer) as (_ & st & Hst & Hrun).
      unfold Pipeline.getSyncStatus. rewrite Hst.
      destruct (Sync.dateNow E _) as [now w1]. cbn [fst]. unfold Service.checkStatus.
      cbn [Sync.status Sync.result]. by rewrite Hrun.
  - intros chain st Hst. cbv zeta.
    apply reachable_invariant in Hreach as (_ & _ & Hstatuses).
    destruct (Hstatuses chain st Hst) as [_ Hsound].
    unfold Service.pollStatus, Pipeline.getSyncStatus. rewrite Hst.
    destruct (Sync.dateNow E _) as [now w1]. cbn [fst]. unfold Service.checkStatus.
    cbn [Sync.status Sync.result Sync.error].
    destruct (Sync.status st).
    + done.
    + destruct Hsound as (_ & _ & res & Hres & Hsound). rewrite Hres. by exists res.
    + destruct Hsound as (_ & _ & msg & Hmsg). rewrite Hmsg. exists msg. split; [done|].
      unfold Js.orDefault. by destruct (Js.truthy msg).
  - intros l s' chain Hstep Hsome.
    pose proof (step_keeps_statuses s l s' chain Hstep Hsome) as [st' Hst'].
    unfold Pipeline.getSyncStatus. rewrite Hst'.
    destruct (Sync.dateNow E _) as [now w1]. by eexists.
Qed.

End ServiceEnds.

(** ** The sync route *)

Section SyncRoute.
Context (E : Sync.Env).
Implicit Types (statuses : gmap Z Sync.SyncStatus) (st : Sync.SyncStatus).

(** [startSync] on a chain that has no running status. *)
Lemma startSync_not_running chain statuses (w : Sync.World E) :
  (statuses !! chain = None ∨
   ∃ st, statuses !! chain = Some st ∧ Sync.status st ≠ Sync.running) →
  let out := Pipeline.startSync E chain statuses w in
  (∃ e, Sync.checkRateLimit statuses (Sync.dateNow E w).1 chain = Some e ∧
        Pipeline.answer E out = Pipeline.RateLimited e ∧
        Pipeline.spawned E out = None ∧ Pipeline.statusesAfter E out = statuses) ∨
  (∃ t data,
     Pipeline.answer E out = Pipeline.Started data ∧
     Pipeline.spawned E out = Some (Pipeline.AwaitTokens t) ∧
     Sync.status data = Sync.running ∧ Sync.chainId data = chain ∧
     Sync.progress data
       = Some {| Sync.phase := "initializing"; Sync.current := 0; Sync.total := 0 |}).
Proof.
  intros Hfree. cbv zeta. unfold Pipeline.startSync.
  destruct (Sync.dateNow E w) as [now0 w1]. cbn [fst].
  destruct (Sync.checkRateLimit statuses now0 chain) as [e|]; [left; by exists e|].
  right. rewrite (startSync_fresh_branch E chain statuses w1 Hfree).
  unfold Pipeline.startNewSync.
  destruct (Sync.dateNow E w1) as [now w2]. destruct (Sync.dateNow E w2) as [t w3].
  by eexists t, _.
Qed.

(** X7. [GET /sync/:chainId].  For a chain whose sync is running the
    route answers 200 with the stored status and touches nothing.  It
    answers 429 only for a chain whose last sync completed or failed,
    with a positive remaining time and nothing changed; so the "Sync is
    currently running" signal of [checkRateLimit] never leaves through
    this route.  It spawns [performSync] only for a chain without a
    running status, and answers the fresh running status in phase
    "initializing" then. *)
Theorem syncRoute_responses chain statuses (w : Sync.World E) :
  let h := Routes.syncRoute E chain statuses w in
  (∀ st, statuses !! chain = Some st → Sync.status st = Sync.running →
     Routes.spawned E h = None ∧ Routes.statusesAfter E h = statuses ∧
     ∃ data, Routes.response E h = Routes.Ok data ∧
             Sync.status data = Sync.running ∧
             Sync.startTime data = Sync.startTime st ∧
             Sync.progress data = Sync.progress st) ∧
  (∀ c remaining msg,
     Routes.response E h = Routes.TooManyRequests c remaining msg →
     c = chain ∧ 0 < remaining ∧
     Routes.spawned E h = None ∧ Routes.statusesAfter E h = statuses ∧
     ∃ st, statuses !! chain = Some st ∧ Sync.status st ≠ Sync.running) ∧
  (∀ pc, Routes.spawned E h = Some pc →
     (statuses !! chain = None ∨
      ∃ st, statuses !! chain = Some st ∧ Sync.status st ≠ Sync.running) ∧
     ∃ data, Routes.response E h = Routes.Ok data ∧
             Sync.status data = Sync.running ∧
             Sync.progress data
               = Some {| Sync.phase := "initializing"; Sync.current := 0;
                         Sync.total := 0 |}).
Proof.
  cbv zeta. unfold Routes.syncRoute, Pipeline.getSyncStatus.
  destruct (statuses !! chain) as [st|] eqn:Hst.
  - destruct (Sync.dateNow E w) as [now w1]. cbn [Sync.status].
    destruct (Sync.status st) eqn:Hstatus.
    + cbn [Routes.response Routes.spawned Routes.statusesAfter].
      split_and!; [|done|done]. intros st' [= <-] _. split_and!; [done|done|].
      by eexists.
    + assert (statuses !! chain = None ∨
              ∃ st, statuses !! chain = Some st ∧ Sync.status st ≠ Sync.running)
        as Hfree by (right; exists st; by rewrite Hstatus).
      cbn [Routes.response Routes.spawned Routes.statusesAfter].
      destruct (startSync_not_running chain statuses w1 Hfree)
        as [(e & Hcheck & -> & -> & ->)|(t & data & -> & -> & Hrun & _ & Hprog)].
      * split_and!; [intros st' [= <-] ?; congruence| |done]. intros c r m [= <- <- <-].
        destruct (rateLimit_signal_positive statuses
                    (Sync.dateNow E w1).1 chain e Hcheck) as (Hpos & Hc).
        split_and!; [done|done|done|done|]. exists st. by rewrite Hstatus.
      * split_and!; [intros st' [= <-] ?; congruence|done|]. intros pc _.
        split; [right; exists st; by rewrite Hstatus|]. by exists data.
    + assert (statuses !! chain = None ∨
              ∃ st, statuses !! chain = Some st ∧ Sync.status st ≠ Sync.running)
        as Hfree by (right; exists st; by rewrite Hstatus).
      cbn [Routes.response Routes.spawned Routes.statusesAfter].
      destruct (startSync_not_running chain statuses w1 Hfree)
        as [(e & Hcheck & -> & -> & ->)|(t & data & -> & -> & Hrun & _ & Hprog)].
      * split_and!; [intros st' [= <-] ?; congruence| |done]. intros c r m [= <- <- <-].
        destruct (rateLimit_signal_positive statuses
                    (Sync.dateNow E w1).1 chain e Hcheck) as (Hpos & Hc).
        split_and!; [done|done|done|done|]. exists st. by rewrite Hstatus.
      * split_and!; [intros st' [= <-] ?; congruence|done|]. intros pc _.
        split; [right; exists st; by rewrite Hstatus|]. by exists data.
  - assert (statuses !! chain = None ∨
            ∃ st, statuses !! chain = Some st ∧ Sync.status st ≠ Sync.running)
      as Hfree by (by left).
    cbn [Routes.response Routes.spawned Routes.statusesAfter].
    destruct (startSync_not_running chain statuses w Hfree)
      as [(e & Hcheck & _)|(t & data & -> & -> & Hrun & _ & Hprog)].
    + by rewrite checkRateLimit_no_status in Hcheck.
    + split_and!; [done|done|]. intros pc _. split; [by left|]. by exists data.
Qed.

End SyncRoute.

(** Chain 2 of the sample statuses finished just outside the window. *)
Lemma getRateLimitInfo_answers_witness :
  Service.infoRemainingTime
    (Service.getRateLimitInfo Sample.env 2 Sample.statuses0 Sample.world0).1 = 0 ∧
  Service.infoMessage
    (Service.getRateLimitInfo Sample.env 2 Sample.statuses0 Sample.world0).1
  = "Can sync immediately.".
Proof.
  destruct (proj2 (proj2 (getRateLimitInfo_answers Sample.env 2 Sample.statuses0
                            Sample.world0))) as [Hcan _].
  - vm_compute. discriminate.
  - apply Hcan. vm_compute. reflexivity.
Defined.

(** Chain 1 has been running for 100 seconds: a new call starts
    nothing, although the rate-limit query says a sync is possible. *)
Lemma startSync_never_replaces_running_witness :
  Pipeline.spawned Sample.env
    (Pipeline.startSync Sample.env 1 Scenario.stuck Sample.world0) = None ∧
  Service.canSync (Service.getRateLimitInfo Sample.env 1 Scenario.stuck Sample.world0).1
  = true.
Proof.
  destruct (startSync_never_replaces_running Sample.env 1 Scenario.stuck Sample.world0
              (Scenario.runningSince 1 900000))
    as (Hspawn & _ & _ & Hout).
  - vm_compute. reflexivity.
  - reflexivity.
  - split; [exact Hspawn|]. apply Hout. vm_compute. discriminate.
Defined.

(** While the sync of chain 1 waits for its storage check, chain 1 has
    one suspended [performSync] and a running status. *)
Lemma one_sync_per_chain_witness :
  ∃ s pc st,
    Pipeline.reachable Sample.env s ∧
    Pipeline.pipelines Sample.env s = [(1, pc)] ∧
    Pipeline.syncStatuses Sample.env s !! 1 = Some st ∧
    Sync.status st = Sync.running.
Proof.
  assert (∃ s pc,
    Pipeline.reachable Sample.env s ∧ Pipeline.pipelines Sample.env s = [(1, pc)])
    as (s & pc & Hreach & Hpipes).
  { sample_run ipattern:(Hrun) 1%nat 1.
    eexists _, _. split; [exact Hrun|]. vm_compute; reflexivity. }
  destruct (proj1 (proj1 (proj2 (one_sync_per_chain Sample.env s Hreach)) 1))
    as (st & Hst & Hrunning).
  - exists pc. rewrite Hpipes. apply list_elem_of_singleton. reflexivity.
  - exists s, pc, st. split_and!; [exact Hreach|exact Hpipes|exact Hst|exact Hrunning].
Defined.


(** After the sync of the empty chain 999 completed, a look at its
    status resolves with the result. *)
Lemma syncTokenImages_polling_witness :
  ∃ s res,
    Pipeline.reachable Sample.env s ∧
    (Service.pollStatus Sample.env 999 (Pipeline.syncStatuses Sample.env s)
       (Pipeline.world Sample.env s)).1 = Service.Resolve res ∧
    Sync.totalTokens res = 0.
Proof.
  assert (∃ s st,
    Pipeline.reachable Sample.env s ∧
    Pipeline.syncStatuses Sample.env s !! 999 = Some st ∧
    Sync.status st = Sync.completed ∧
    (∀ r, Sync.result st = Some r → Sync.totalTokens r = 0))
    as (s & st & Hreach & Hst & Hstatus & Hzero).
  { sample_run ipattern:(Hrun) 1%nat 999.
    eexists _, _. split; [exact Hrun|]. split_and!; [vm_compute; reflexivity..|].
    intros r. vm_compute. intros [= <-]. reflexivity. }
  pose proof (proj1 (proj2 (syncTokenImages_polling Sample.env s Hreach)) 999 st Hst)
    as Hpoll.
  cbv zeta in Hpoll. rewrite Hstatus in Hpoll. destruct Hpoll as (res & Hres & Hpoll & _).
  exists s, res. split_and!; [exact Hreach|exact Hpoll|]. by apply Hzero.
Defined.

(** The route answers 429 for chain 1 of the sample statuses, which
    completed inside the window. *)
Lemma syncRoute_responses_witness :
  Routes.statusCode
    (Routes.response Sample.env (Routes.syncRoute Sample.env 1 Sample.statuses0
                                   Sample.world0)) = 429 ∧
  Routes.statusesAfter Sample.env
    (Routes.syncRoute Sample.env 1 Sample.statuses0 Sample.world0) = Sample.statuses0.
Proof.
  split; [vm_compute; reflexivity|].
  destruct (proj1 (proj2 (syncRoute_responses Sample.env 1 Sample.statuses0
                            Sample.world0)) 1 1
              "Rate limit exceeded. Last sync completed 0 minute(s) ago. Please wait 1 more minute(s).")
    as (_ & _ & _ & Hsame & _).
  - vm_compute. reflexivity.
  - exact Hsame.
Defined.

(** ** The registry of providers *)

Section ProviderRegistry.
Implicit Types (providers : list ImageProvider) (p : ImageProvider).

Lemma find_app {A} (pred : A → bool) (l k : list A) :
  Js.find pred (l ++ k)
  = match Js.find pred l with Some x => Some x | None => Js.find pred k end.
Proof.
  unfold Js.find. induction l as [|x l IH]; [done|]. simpl.
  by destruct (pred x).
Qed.

Lemma find_None {A} (pred : A → bool) (l : list A) :
  Js.find pred l = None ↔ Forall (λ x, pred x = false) l.
Proof.
  unfold Js.find. induction l as [|x l IH]; simpl.
  - split; [constructor|done].
  - destruct (pred x) eqn:Hx.
    + split; [done|]. intros H. apply Forall_cons in H as [? _]. congruence.
    + rewrite IH. split; [by constructor|]. by intros [_ ?]%Forall_cons.
Qed.

(** X8. [getProvider] answers the first registered provider of that
    name and [null] exactly when no registered provider has it;
    [addProvider] appends, so a provider added later never takes the
    place of an earlier one of the same name in [getProvider], and the
    names are listed in registration order. *)
Theorem getProvider_first_registered providers p n :
  (Manager.getProvider providers n = None ↔
   n ∉ Registry.getProviderNames providers) ∧
  (∀ q, Manager.getProvider providers n = Some q →
        q ∈ providers ∧ name q = n) ∧
  Manager.getProvider (Registry.addProvider p providers) n
  = match Manager.getProvider providers n with
    | Some q => Some q
    | None => if String.eqb (name p) n then Some p else None
    end ∧
  Registry.getProviderNames (Registry.addProvider p providers)
  = (Registry.getProviderNames providers ++ [name p])%list.
Proof.
  split_and!.
  - unfold Manager.getProvider. rewrite find_None.
    unfold Registry.getProviderNames. rewrite list_elem_of_fmap, Forall_forall.
    split.
    + intros Hall (q & -> & Hq). specialize (Hall q Hq). by rewrite String.eqb_refl in Hall.
    + intros Hnot q Hq. apply String.eqb_neq. intros Heq. apply Hnot. by exists q.
  - intros q Hq. unfold Manager.getProvider in Hq.
    apply find_elem_of in Hq as [Hin Hname]. split; [done|]. by apply String.eqb_eq.
  - unfold Manager.getProvider, Registry.addProvider. rewrite find_app.
    destruct (Js.find _ providers); [done|]. unfold Js.find. simpl.
    by destruct (String.eqb (name p) n).
  - unfold Registry.getProviderNames, Registry.addProvider. by rewrite fmap_app.
Qed.

Lemma fetchImageSequential_firstResult providers chainId address :
  Forall (λ p, isAvailable p = true) providers →
  Registry.fetchImageSequential providers chainId address
  = Manager.firstResult (Manager.settle chainId address <$> providers).
Proof.
  induction 1 as [|p providers Hp _ IH]; [done|].
  rewrite fmap_cons. cbn [Registry.fetchImageSequential Manager.firstResult].
  unfold Manager.settle at 1. rewrite Hp. cbn [negb].
  destruct (Provider.fetchImage p chainId address) as [[r|]|]; cbn [Manager.result];
    [done|exact IH|exact IH].
Qed.

Lemma firstResult_sequential providers chainId address :
  Manager.firstResult (Manager.settle chainId address <$> providers)
  = Registry.fetchImageSequential (List.filter isAvailable providers) chainId address.
Proof.
  induction providers as [|p providers IH]; [done|].
  rewrite fmap_cons. cbn [Manager.firstResult List.filter].
  unfold Manager.settle at 1. destruct (isAvailable p) eqn:Hp; cbn [negb Manager.result].
  - cbn [Registry.fetchImageSequential].
    destruct (Provider.fetchImage p chainId address) as [[r|]|]; cbn [Manager.result];
      [done|exact IH|exact IH].
  - exact IH.
Qed.

(** X9. The fan-out of [fetchImage] answers what the sequential
    resolver it replaced answers: on providers that are all available,
    whatever the response times, and in general on the available ones
    among the registered providers. *)
Theorem fanOut_agrees_with_sequential latency providers chainId address :
  Manager.fetchImage latency providers chainId address
  = Some (Registry.fetchImageSequential
            (List.filter isAvailable providers) chainId address) ∧
  (Forall (λ p, isAvailable p = true) providers →
   Manager.fetchImage latency providers chainId address
   = Some (Registry.fetchImageSequential providers chainId address)).
Proof.
  split.
  - by rewrite fetchImage_resolves, firstResult_sequential.
  - intros Hall. rewrite fetchImage_resolves.
    by rewrite fetchImageSequential_firstResult.
Qed.

End ProviderRegistry.

(** Provider B answers first, both are available: the fan-out answers
    what the sequential resolver answers, the result of A. *)
Lemma fanOut_agrees_with_sequential_witness :
  Manager.fetchImage Sample.bFaster [Sample.providerA; Sample.providerB] 1 Sample.usdc
  = Some (Registry.fetchImageSequential [Sample.providerA; Sample.providerB]
            1 Sample.usdc).
Proof.
  apply (proj2 (fanOut_agrees_with_sequential Sample.bFaster
                  [Sample.providerA; Sample.providerB] 1 Sample.usdc)).
  repeat constructor.
Defined.

(** ** The underlying-asset provider as the last provider *)

Section LastResort.
Implicit Types (directs : list ImageProvider) (env : PendlePT.Env).

Lemma directsOf_constructor directs env :
  Forall (λ p, name p ≠ "pendle-pt-underlying") directs →
  PendlePT.directsOf
    (PendlePT.providersForUnderlying (PendlePT.constructor directs env)) = directs.
Proof.
  intros Hnames. unfold PendlePT.constructor, PendlePT.providersForUnderlying.
  rewrite List.filter_app. cbn [List.filter PendlePT.registeredName].
  unfold PendlePT.providerName. rewrite String.eqb_refl. cbn [negb].
  rewrite app_nil_r. induction Hnames as [|p directs Hp _ IH]; [done|].
  rewrite fmap_cons. cbn [List.filter PendlePT.registeredName].
  apply String.eqb_neq in Hp. rewrite Hp. cbn [negb].
  unfold PendlePT.directsOf in *. simpl. by f_equal.
Qed.

(** [fetchImage] of the underlying-asset provider only applies its
    callback. *)
Lemma underlying_fetchImage_ext env (f g : Z → string → option (option ImageResult))
    chainId address :
  (∀ c a, f c a = g c a) →
  PendlePT.fetchImage env (Some f) chainId address
  = PendlePT.fetchImage env (Some g) chainId address.
Proof.
  intros Hfg. unfold PendlePT.fetchImage.
  destruct (PendlePT.isPendlePT env chainId address); [|done]. cbn [negb].
  destruct (PendlePT.getUnderlyingAssetAddress env chainId address) as [u|]; [|done].
  destruct (Storage.getImageFromS3 _ _ _); [done|]. by rewrite Hfg.
Qed.

Lemma firstResult_app (l k : list Manager.Settled) :
  Manager.firstResult (l ++ k)
  = match Manager.firstResult l with
    | Some r => Some r
    | None => Manager.firstResult k
    end.
Proof.
  induction l as [|s l IH]; [done|]. simpl. by destruct (Manager.result s).
Qed.

Lemma mapM_append {A B} (f : A → option B) (l k : list A) :
  mapM f (l ++ k) = l' ← mapM f l; k' ← mapM f k; Some (l' ++ k')%list.
Proof.
  induction l as [|x l IH].
  - simpl. by destruct (mapM f k).
  - rewrite <-app_comm_cons, !mapM_cons, IH.
    destruct (f x); [|done]. simpl. destruct (mapM f l); [|done]. simpl.
    by destruct (mapM f k).
Qed.

Lemma settleWith_underlying latency fuel providers env chainId address :
  PendlePT.settleWith (PendlePT.invoke (S fuel) latency providers) chainId address
    (PendlePT.Underlying env true)
  = (λ res, {| Manager.result := res; Manager.settledBy := PendlePT.providerName |})
      <$> PendlePT.fetchImage env
            (Some (PendlePT.fetchImageForUnderlying fuel latency providers))
            chainId address.
Proof.
  unfold PendlePT.settleWith.
  cbn [PendlePT.registeredAvailable negb PendlePT.registeredName].
  rewrite invoke_underlying. by destruct (PendlePT.fetchImage _ _ _ _).
Qed.

(** X10. The manager registers the underlying-asset provider last, with
    the fan-out over the other providers as its callback.  So
    [fetchImage] of the manager answers the result of the direct
    providers whenever they have one, and only when all of them are
    absent the answer of the underlying-asset provider, which is absent
    or tagged "pendle-pt-underlying". *)
Theorem underlying_provider_is_last_resort latency directs env chainId address :
  Forall (λ p, name p ≠ "pendle-pt-underlying") directs →
  ∃ viaUnderlying,
    PendlePT.fetchImage env (Some (Manager.fetchImage latency directs)) chainId address
      = Some viaUnderlying ∧
    (∀ r, viaUnderlying = Some r → provider r = "pendle-pt-underlying") ∧
    PendlePT.managerFetchImage 2 latency (PendlePT.constructor directs env)
      chainId address
    = Some (match Registry.fetchImageSequential (List.filter isAvailable directs)
                    chainId address with
            | Some r => Some r
            | None => viaUnderlying
            end) ∧
    (∀ r, Manager.fetchImage latency directs chainId address = Some (Some r) →
          PendlePT.managerFetchImage 2 latency (PendlePT.constructor directs env)
            chainId address = Some (Some r)).
Proof.
  intros Hnames.
  set (providers := PendlePT.constructor directs env).
  assert (∀ c a,
    PendlePT.fetchImageForUnderlying 1 latency providers c a
    = Manager.fetchImage latency directs c a) as Hcallback.
  { intros c a. unfold PendlePT.fetchImageForUnderlying.
    rewrite fanOut_direct by apply providersForUnderlying_direct.
    unfold providers. by rewrite directsOf_constructor. }
  destruct (underlying_fetchImage_resolves latency 0 providers env true chainId address)
    as (via & Hvia & _). cbn [negb] in Hvia.
  rewrite (underlying_fetchImage_ext env _ (Manager.fetchImage latency directs)
             chainId address Hcallback) in Hvia.
  exists via.
  assert (∀ r, via = Some r → provider r = "pendle-pt-underlying") as Htag.
  { intros r ->. revert Hvia. unfold PendlePT.fetchImage.
    destruct (PendlePT.isPendlePT env chainId address); [|done]. cbn [negb].
    destruct (PendlePT.getUnderlyingAssetAddress env chainId address) as [u|]; [|done].
    destruct (Storage.getImageFromS3 _ _ _); [by intros [= <-]|].
    destruct (Manager.fetchImage latency directs chainId u) as [[d|]|]; [|done..].
    by intros [= <-]. }
  assert (PendlePT.managerFetchImage 2 latency providers chainId address
    = Some (match Registry.fetchImageSequential (List.filter isAvailable directs)
                    chainId address with
            | Some r => Some r
            | None => via
            end)) as Hmanager.
  { change (PendlePT.managerFetchImage 2 latency providers chainId address)
      with (PendlePT.fanOut latency (PendlePT.invoke 2 latency providers)
              ((PendlePT.Direct <$> directs) ++ [PendlePT.Underlying env true])
              chainId address).
    unfold PendlePT.fanOut. rewrite mapM_append.
    assert (Forall (λ r, ∃ p, r = PendlePT.Direct p) (PendlePT.Direct <$> directs))
      as Hdirect.
    { apply Forall_fmap, Forall_forall. intros p _. by exists p. }
    rewrite (settleWith_direct latency 1 providers
               (PendlePT.Direct <$> directs) chainId address Hdirect).
    assert (PendlePT.directsOf (PendlePT.Direct <$> directs) = directs) as ->.
    { clear. unfold PendlePT.directsOf. induction directs as [|p ds IH]; [done|].
      rewrite fmap_cons. simpl. by f_equal. }
    cbn [mbind option_bind]. rewrite mapM_cons, settleWith_underlying.
    rewrite (underlying_fetchImage_ext env _ (Manager.fetchImage latency directs)
               chainId address Hcallback), Hvia.
    cbn [fmap option_fmap option_map mapM mbind option_bind mret option_ret].
    rewrite joinSettled_resolves, firstResult_app. f_equal.
    rewrite <-firstResult_sequential.
    destruct (Manager.firstResult (Manager.settle chainId address <$> directs));
      [done|]. by destruct via. }
  split_and!; [done|done|done|].
  intros r Hr. rewrite Hmanager. f_equal.
  rewrite fetchImage_resolves in Hr. injection Hr as Hr.
  by rewrite <-firstResult_sequential, Hr.
Qed.

End LastResort.

(** Provider A knows the token: the manager answers A's result, not
    the one the underlying-asset provider derives. *)
Lemma underlying_provider_is_last_resort_witness :
  PendlePT.managerFetchImage 2 Sample.bFaster
    (PendlePT.constructor [Sample.providerA] Sample.ptOfPt) 1 "0x02"
  = Some (Some (Sample.pngAt "coingecko" "https://a.example/logo.png")).
Proof.
  destruct (underlying_provider_is_last_resort Sample.bFaster [Sample.providerA]
              Sample.ptOfPt 1 "0x02") as (via & _ & _ & _ & Hdirect).
  - repeat constructor. discriminate.
  - apply Hdirect. vm_compute. reflexivity.
Defined.

(** ** Storage: MIME types and object keys *)

Section StorageFacts.
Implicit Types (s : Storage.S3) (a b ext : string).

Lemma lowerAscii_idemp c : Js.lowerAscii (Js.lowerAscii c) = Js.lowerAscii c.
Proof. destruct c as [[] [] [] [] [] [] [] []]; reflexivity. Qed.

Lemma toLowerCase_idemp a : Js.toLowerCase (Js.toLowerCase a) = Js.toLowerCase a.
Proof.
  induction a as [|c a IH]; [done|]. simpl. by rewrite lowerAscii_idemp, IH.
Qed.

Lemma getMimeType_dot rest :
  Storage.getMimeType (String "." rest)
  = Js.orDefault (Storage.lookupRecord Storage.mimeTypes (Js.toLowerCase rest))
      "application/octet-stream".
Proof. reflexivity. Qed.

Lemma getMimeType_no_dot c rest :
  c ≠ "."%char →
  Storage.getMimeType (String c rest)
  = Js.orDefault
      (Storage.lookupRecord Storage.mimeTypes (Js.toLowerCase (String c rest)))
      "application/octet-stream".
Proof.
  intros Hc. unfold Storage.getMimeType.
  destruct c as [[] [] [] [] [] [] [] []]; done.
Qed.

(** X11. [getMimeType] ignores letter case and one leading dot, maps
    every extension of the closed set (and [tif]) to an [image/...]
    type, and answers "application/octet-stream" for an extension that
    has a second leading dot. *)
Theorem getMimeType_normalises ext :
  Storage.getMimeType (Js.toLowerCase ext) = Storage.getMimeType ext ∧
  (Js.startsWith "." ext = false →
   Storage.getMimeType ("." +:+ ext) = Storage.getMimeType ext) ∧
  (ext ∈ "tif" :: Shape.closedSet →
   ∃ subtype, Storage.getMimeType ext = "image/" +:+ subtype ∧
              Storage.getMimeType ("." +:+ ext) = "image/" +:+ subtype) ∧
  Storage.getMimeType (".." +:+ ext) = "application/octet-stream".
Proof.
  split_and!.
  - destruct ext as [|c rest]; [done|].
    destruct (decide (c = "."%char)) as [->|Hc].
    + change (Js.toLowerCase (String "." rest)) with (String "." (Js.toLowerCase rest)).
      by rewrite !getMimeType_dot, toLowerCase_idemp.
    + assert (Js.lowerAscii c ≠ "."%char) as Hc'.
      { revert Hc. destruct c as [[] [] [] [] [] [] [] []]; done. }
      change (Js.toLowerCase (String c rest))
        with (String (Js.lowerAscii c) (Js.toLowerCase rest)) at 1.
      rewrite (getMimeType_no_dot _ _ Hc'), (getMimeType_no_dot _ _ Hc).
      change (String (Js.lowerAscii c) (Js.toLowerCase rest))
        with (Js.toLowerCase (String c rest)).
      by rewrite toLowerCase_idemp.
  - intros Hdot. change ("." +:+ ext) with (String "." ext). rewrite getMimeType_dot.
    destruct ext as [|c rest]; [done|].
    rewrite getMimeType_no_dot; [done|]. intros ->. by destruct rest.
  - unfold Shape.closedSet. intros Hin.
    repeat (apply elem_of_cons in Hin as [->|Hin]; [by eexists|]).
    by apply elem_of_nil in Hin.
  - change (".." +:+ ext) with (String "." (String "." ext)). rewrite getMimeType_dot.
    change (Js.toLowerCase (String "." ext)) with (String "." (Js.toLowerCase ext)).
    done.
Qed.

End StorageFacts.

(** ** Storage: one object per token *)

Section ObjectKeys.
Implicit Types (s : Storage.S3) (a b : string) (l k : list ascii).

Lemma list_ascii_append a b :
  list_ascii_of_string (a +:+ b) = (list_ascii_of_string a ++ list_ascii_of_string b)%list.
Proof. induction a as [|c a IH]; [done|]. simpl. by rewrite IH. Qed.

(** The decimal digits of a number hold no slash. *)
Lemma pretty_N_char_digit x : pretty_N_char x ≠ "/"%char.
Proof. unfold pretty_N_char. by repeat case_match. Qed.

Lemma pretty_N_go_no_slash x (acc : string) :
  "/"%char ∉ list_ascii_of_string acc →
  "/"%char ∉ list_ascii_of_string (pretty_N_go x acc).
Proof.
  revert acc. induction (N.lt_wf_0 x) as [x _ IH]. intros acc Hacc.
  destruct (decide (x = 0)%N) as [->|Hx]; [by rewrite pretty_N_go_0|].
  rewrite pretty_N_go_step by lia. apply IH.
  - apply N.div_lt; lia.
  - simpl. apply not_elem_of_cons. split; [|done].
    intros Heq. by apply (pretty_N_char_digit (x `mod` 10)%N).
Qed.

Lemma pretty_Z_no_slash (chainId : Z) :
  "/"%char ∉ list_ascii_of_string (pretty chainId).
Proof.
  assert (∀ p, "/"%char ∉ list_ascii_of_string (pretty (N.pos p))) as Hpos.
  { intros p. unfold pretty, pretty_N. case_decide; [done|].
    apply pretty_N_go_no_slash. simpl. apply not_elem_of_nil. }
  destruct chainId as [|p|p].
  - simpl. apply not_elem_of_cons. split; [done|apply not_elem_of_nil].
  - apply Hpos.
  - change (pretty (Z.neg p)) with ("-" +:+ pretty (N.pos p)). simpl.
    apply not_elem_of_cons. split; [done|apply Hpos].
Qed.

(** Two lists that agree up to and after their first slash. *)
Lemma split_at_first {A} (x : A) (l1 l2 t1 t2 : list A) :
  x ∉ l1 → x ∉ l2 → (l1 ++ x :: t1 = l2 ++ x :: t2)%list → l1 = l2 ∧ t1 = t2.
Proof.
  revert l2. induction l1 as [|y l1 IH]; intros [|z l2] H1 H2 Heq; simpl in Heq.
  - by injection Heq.
  - injection Heq as -> _. exfalso. apply H2. by left.
  - injection Heq as -> _. exfalso. apply H1. by left.
  - injection Heq as -> Heq. apply not_elem_of_cons in H1 as [_ H1].
    apply not_elem_of_cons in H2 as [_ H2].
    destruct (IH l2 H1 H2 Heq) as [-> ->]. done.
Qed.

Lemma list_ascii_inj a b : list_ascii_of_string a = list_ascii_of_string b → a = b.
Proof.
  intros Heq. rewrite <-(string_of_list_ascii_of_string a),
    <-(string_of_list_ascii_of_string b). by rewrite Heq.
Qed.

(** The key of an object determines the chain and the lowercased
    address. *)
Lemma key_inj chainId chainId' a b :
  Storage.key chainId a = Storage.key chainId' b ↔
  chainId = chainId' ∧ Js.toLowerCase a = Js.toLowerCase b.
Proof.
  unfold Storage.key. split; [|intros [-> Hlow]; by rewrite Hlow].
  intros Heq. apply (f_equal list_ascii_of_string) in Heq.
  rewrite !list_ascii_append in Heq. simpl in Heq.
  apply split_at_first in Heq as [Hchain Hrest]; [|apply pretty_Z_no_slash..].
  split.
  - apply list_ascii_inj in Hchain. by apply (inj pretty).
  - apply list_ascii_inj.
    by apply (app_inv_tail (list_ascii_of_string "/image")) in Hrest.
Qed.

(** X12. No two tokens share an object: the keys of two tokens are
    equal exactly when their chains and their lowercased addresses are.
    An upload returns true exactly when a client exists and the bucket
    can be reached; otherwise it leaves the bucket as it is.  A
    successful upload makes the existence check of its token true,
    replaces what an earlier upload for the token stored, and changes
    neither the existence check nor the stored image of any other
    token. *)
Theorem one_object_per_token s chainId a bytes ext meta :
  let ok := (Storage.uploadImageToS3 s chainId a bytes ext meta).1 in
  let s' := (Storage.uploadImageToS3 s chainId a bytes ext meta).2 in
  (∀ chainId' b,
     Storage.key chainId a = Storage.key chainId' b ↔
     chainId = chainId' ∧ Js.toLowerCase a = Js.toLowerCase b) ∧
  ok = (Storage.s3Client s && Storage.reachable s)%bool ∧
  (ok = false → s' = s) ∧
  (ok = true → Storage.checkImageExistsInS3 s' chainId a = true) ∧
  (∀ bytes0 ext0 meta0,
     (Storage.uploadImageToS3
        (Storage.uploadImageToS3 s chainId a bytes0 ext0 meta0).2
        chainId a bytes ext meta).2 = s') ∧
  (∀ chainId' b,
     (chainId', Js.toLowerCase b) ≠ (chainId, Js.toLowerCase a) →
     Storage.checkImageExistsInS3 s' chainId' b
       = Storage.checkImageExistsInS3 s chainId' b ∧
     Storage.getImageFromS3 s' chainId' b = Storage.getImageFromS3 s chainId' b).
Proof.
  cbv zeta. unfold Storage.uploadImageToS3.
  destruct (Storage.s3Client s) eqn:Hclient, (Storage.reachable s) eqn:Hreach;
    cbn [negb andb fst snd].
  - split_and!; [intros; apply key_inj|done|done| | |].
    + intros _. unfold Storage.checkImageExistsInS3, Storage.sendGet.
      cbn [Storage.s3Client Storage.reachable Storage.bucket negb].
      by rewrite lookup_insert_eq.
    + intros bytes0 ext0 meta0.
      cbn [negb snd Storage.s3Client Storage.reachable Storage.bucket].
      by rewrite insert_insert_eq.
    + intros chainId' b Hother.
      assert (Storage.key chainId' b ≠ Storage.key chainId a) as Hkey.
      { intros Heq. apply key_inj in Heq as [-> Hlow]. apply Hother. by rewrite Hlow. }
      unfold Storage.checkImageExistsInS3, Storage.getImageFromS3, Storage.sendGet.
      cbn [Storage.s3Client Storage.reachable Storage.bucket].
      rewrite Hclient, Hreach. by rewrite lookup_insert_ne.
  - split_and!; [intros; apply key_inj|done|done|done| |done].
    intros bytes0 ext0 meta0. cbn [snd]. by rewrite Hclient, Hreach.
  - split_and!; [intros; apply key_inj|done|done|done| |done].
    intros bytes0 ext0 meta0. cbn [snd]. by rewrite Hclient.
  - split_and!; [intros; apply key_inj|done|done|done| |done].
    intros bytes0 ext0 meta0. cbn [snd]. by rewrite Hclient.
Qed.

End ObjectKeys.

(** An upload for the token [0xABC] on chain 1 leaves the object of the
    same address on chain 10 alone. *)
Lemma one_object_per_token_witness :
  Storage.checkImageExistsInS3
    (Storage.uploadImageToS3 Sample.emptyBucket 1 "0xABC" Sample.pngBytes "png"
       Sample.uploadMeta).2 10 "0xabc" = false.
Proof.
  destruct (proj2 (proj2 (proj2 (proj2 (proj2
              (one_object_per_token Sample.emptyBucket 1 "0xABC" Sample.pngBytes "png"
                 Sample.uploadMeta))))) 10 "0xabc") as [Hcheck _].
  - intros [=].
  - rewrite Hcheck. reflexivity.
Defined.

(** ** Storage: the local mode *)

Section LocalMode.
Context (env : LocalStorage.Env).
Implicit Types (fs : Fs.t) (d f g p : string).

Lemma append_assoc_string (a b c : string) : (a +:+ b) +:+ c = a +:+ b +:+ c.
Proof.
  induction a as [|x a IH]; [done|].
  change (String x ((a +:+ b) +:+ c) = String x (a +:+ b +:+ c)). by f_equal.
Qed.

Lemma join_two d f : Fs.join [d; f] = d +:+ "/" +:+ f.
Proof. reflexivity. Qed.

Lemma join_three d f g : Fs.join [d; f; g] = Fs.join [Fs.join [d; f]; g].
Proof.
  unfold Fs.join. cbn [String.concat]. by rewrite append_assoc_string.
Qed.

Lemma join_longer d f : (String.length d < String.length (Fs.join [d; f]))%nat.
Proof.
  rewrite join_two. induction d as [|x d IH]; [simpl; lia|].
  change (String x d +:+ "/" +:+ f) with (String x (d +:+ "/" +:+ f)). simpl. lia.
Qed.

Lemma join_ne_parent d f : Fs.join [d; f] ≠ d.
Proof. intros Heq. pose proof (join_longer d f) as Hlen. rewrite Heq in Hlen. lia. Qed.

Lemma join_inj d f g : Fs.join [d; f] = Fs.join [d; g] → f = g.
Proof.
  rewrite !join_two. intros Heq. apply String.app_inj in Heq.
  by apply (String.app_inj "/") in Heq.
Qed.

Lemma link_files d f fs : Fs.files (LocalStorage.link d f fs) = Fs.files fs.
Proof.
  unfold LocalStorage.link. destruct (Fs.dirs fs !! d); [|done]. by case_bool_decide.
Qed.

Lemma link_other d f fs p :
  p ≠ d → Fs.dirs (LocalStorage.link d f fs) !! p = Fs.dirs fs !! p.
Proof.
  intros Hne. unfold LocalStorage.link. destruct (Fs.dirs fs !! d); [|done].
  case_bool_decide; [done|]. simpl. by rewrite lookup_insert_ne.
Qed.

Lemma link_same d f fs entries :
  Fs.dirs fs !! d = Some entries →
  Fs.dirs (LocalStorage.link d f fs) !! d
  = Some (if bool_decide (f ∈ entries) then entries else (entries ++ [f])%list).
Proof.
  intros Hd. unfold LocalStorage.link. rewrite Hd.
  case_bool_decide; [done|]. simpl. by rewrite lookup_insert_eq.
Qed.

(** What one level of the recursive [mkdir] leaves behind. *)
Lemma mkdirUnder_spec d f fs fs1 :
  LocalStorage.mkdirUnder d f fs = Returns fs1 →
  Fs.files fs1 = Fs.files fs ∧
  Fs.dirs fs1 !! Fs.join [d; f] = Some (default [] (Fs.dirs fs !! Fs.join [d; f])) ∧
  (∀ p, p ≠ d → p ≠ Fs.join [d; f] → Fs.dirs fs1 !! p = Fs.dirs fs !! p).
Proof.
  unfold LocalStorage.mkdirUnder, LocalStorage.isFile, LocalStorage.isDirectory.
  case_bool_decide as Hfile; [done|]. case_bool_decide as Hdir.
  - intros [= <-]. destruct Hdir as [entries Hentries]. by rewrite Hentries.
  - intros [= <-]. rewrite link_files. split; [done|].
    assert (Fs.dirs fs !! Fs.join [d; f] = None) as Hnone.
    { by apply eq_None_not_Some. }
    split.
    + rewrite link_other by apply join_ne_parent. simpl.
      by rewrite lookup_insert_eq, Hnone.
    + intros p Hp Hp'. rewrite link_other by done. simpl.
      by rewrite lookup_insert_ne.
Qed.

Lemma mkdirTokenDir_spec chainId a fs fs1 :
  LocalStorage.mkdirTokenDir env chainId a fs = Returns fs1 →
  Fs.files fs1 = Fs.files fs ∧
  Fs.dirs fs1 !! LocalStorage.getLocalStoragePath env chainId a
  = Some (default [] (Fs.dirs fs !! LocalStorage.getLocalStoragePath env chainId a)).
Proof.
  unfold LocalStorage.mkdirTokenDir, LocalStorage.getLocalStoragePath.
  set (root := LocalStorage.LOCAL_STORAGE_DIR env). rewrite join_three.
  set (chainDir := Fs.join [root; pretty chainId]).
  set (tokenDir := Fs.join [chainDir; Js.toLowerCase a]).
  assert (tokenDir ≠ chainDir) as Hne1 by apply join_ne_parent.
  assert (tokenDir ≠ root) as Hne2.
  { intros Heq. pose proof (join_longer chainDir (Js.toLowerCase a)) as H1.
    pose proof (join_longer root (pretty chainId)) as H2.
    fold tokenDir in H1. fold chainDir in H2. rewrite Heq in H1. lia. }
  destruct (LocalStorage.isFile fs root); [done|].
  set (fs0 := if LocalStorage.isDirectory fs root then fs else _).
  assert (Fs.files fs0 = Fs.files fs ∧
          Fs.dirs fs0 !! tokenDir = Fs.dirs fs !! tokenDir) as [Hfiles0 Hdirs0].
  { unfold fs0. destruct (LocalStorage.isDirectory fs root); [done|]. simpl.
    by rewrite lookup_insert_ne. }
  destruct (LocalStorage.mkdirUnder root (pretty chainId) fs0) as [fs'|] eqn:Hlevel1;
    [|done].
  apply mkdirUnder_spec in Hlevel1 as (Hfiles1 & _ & Hother1).
  intros Hlevel2. apply mkdirUnder_spec in Hlevel2 as (Hfiles2 & Hdir2 & _).
  fold chainDir tokenDir in Hother1, Hdir2.
  split; [congruence|]. rewrite Hdir2, Hother1 by done. by rewrite Hdirs0.
Qed.

Lemma writeFile_spec d f data fs fs1 entries :
  LocalStorage.writeFile d f data fs = Returns fs1 →
  Fs.dirs fs !! d = Some entries →
  Fs.files fs1 = <[Fs.join [d; f] := data]> (Fs.files fs) ∧
  Fs.dirs fs1 !! d
  = Some (if bool_decide (f ∈ entries) then entries else (entries ++ [f])%list).
Proof.
  unfold LocalStorage.writeFile. intros Hwrite Hd.
  destruct (LocalStorage.isDirectory fs d); [|done]. cbn [negb] in Hwrite.
  destruct (LocalStorage.isDirectory fs (Fs.join [d; f])); [done|].
  injection Hwrite as <-. rewrite link_files. split; [done|].
  by apply link_same.
Qed.


(** The token directory and its two files after a successful local
    upload. *)
Lemma uploadImageToLocalStorage_spec fs chainId a bytes ext meta fs' :
  LocalStorage.uploadImageToLocalStorage env fs chainId a bytes ext meta = (true, fs') →
  let tokenDir := LocalStorage.getLocalStoragePath env chainId a in
  let imageFile := LocalStorage.imageFileName (Some ext) in
  let before := default [] (Fs.dirs fs !! tokenDir) in
  let withImage :=
    if bool_decide (imageFile ∈ before) then before else (before ++ [imageFile])%list in
  Fs.dirs fs' !! tokenDir
  = Some (if bool_decide (LocalStorage.metadataFileName ∈ withImage) then withImage
          else (withImage ++ [LocalStorage.metadataFileName])%list) ∧
  Fs.files fs' !! Fs.join [tokenDir; imageFile] = Some bytes ∧
  Fs.files fs' !! Fs.join [tokenDir; LocalStorage.metadataFileName]
  = Some (LocalStorage.stringify env ext meta).
Proof.
  unfold LocalStorage.uploadImageToLocalStorage. cbv zeta.
  set (tokenDir := LocalStorage.getLocalStoragePath env chainId a).
  set (imageFile := LocalStorage.imageFileName (Some ext)).
  destruct (LocalStorage.mkdirTokenDir env chainId a fs) as [fs1|] eqn:Hmkdir; [|done].
  apply mkdirTokenDir_spec in Hmkdir as [Hfiles1 Hdir1]. fold tokenDir in Hdir1.
  destruct (LocalStorage.writeFile tokenDir imageFile bytes fs1) as [fs2|] eqn:Himage;
    [|done].
  destruct (writeFile_spec _ _ _ _ _ _ Himage Hdir1) as [Hfiles2 Hdir2].
  destruct (LocalStorage.writeFile tokenDir LocalStorage.metadataFileName _ fs2)
    as [fs3|] eqn:Hmeta; [|done].
  destruct (writeFile_spec _ _ _ _ _ _ Hmeta Hdir2) as [Hfiles3 Hdir3].
  intros [= <-]. split; [exact Hdir3|]. rewrite Hfiles3, Hfiles2.
  assert (Fs.join [tokenDir; imageFile] ≠ Fs.join [tokenDir; LocalStorage.metadataFileName])
    as Hne.
  { intros Heq%join_inj. unfold imageFile, LocalStorage.imageFileName in Heq.
    discriminate Heq. }
  split.
  - rewrite lookup_insert_ne by done. apply lookup_insert_eq.
  - apply lookup_insert_eq.
Qed.

Lemma existsb_false {A} (P : A → bool) (l : list A) :
  existsb P l = false ↔ Forall (λ x, P x = false) l.
Proof.
  induction l as [|x l IH]; simpl.
  - split; [constructor|done].
  - rewrite orb_false_iff, IH. split; [by intros []; constructor|].
    by intros [? ?]%Forall_cons.
Qed.

(** A token directory without an image file, or no token directory. *)
Lemma checkImageExistsInLocalStorage_false fs chainId a :
  LocalStorage.checkImageExistsInLocalStorage env fs chainId a = false →
  Forall (λ e, Js.startsWith "image." e = false)
    (default [] (Fs.dirs fs !! LocalStorage.getLocalStoragePath env chainId a)).
Proof.
  unfold LocalStorage.checkImageExistsInLocalStorage, Fs.readdir.
  destruct (Fs.dirs fs !! _) as [entries|]; simpl; [|constructor].
  by rewrite existsb_false.
Qed.

Lemma imageFileName_prefix ext :
  Js.truthy ext = true →
  Js.startsWith "image." (LocalStorage.imageFileName (Some ext)) = true.
Proof.
  intros Hext. unfold LocalStorage.imageFileName. rewrite Hext.
  change ("image" +:+ "." +:+ ext) with ("image." +:+ ext).
  unfold Js.startsWith. by destruct ext.
Qed.

End LocalMode.

Section UnifiedStorage.
Context (env : LocalStorage.Env).
Implicit Types (st : LocalStorage.Store) (fs : Fs.t).

Lemma getLocalStoragePath_case chainId a b :
  Js.toLowerCase b = Js.toLowerCase a →
  LocalStorage.getLocalStoragePath env chainId b
  = LocalStorage.getLocalStoragePath env chainId a.
Proof. intros Hlow. unfold LocalStorage.getLocalStoragePath. by rewrite Hlow. Qed.

Lemma key_case chainId a b :
  Js.toLowerCase b = Js.toLowerCase a → Storage.key chainId b = Storage.key chainId a.
Proof. intros Hlow. unfold Storage.key. by rewrite Hlow. Qed.

(** X13. Write, then check and read, through the unified interface.
    When [uploadImageToStorage] returns true for an extension that is
    not empty, then in either mode the existence check of the token is
    true afterwards and the read returns the uploaded bytes, the MIME
    type of the extension and the extension, under any casing of the
    address.  In the local mode this needs a token directory that held no
    image before, and a metadata file that is read back as written. *)
Theorem storage_round_trip st chainId a bytes ext meta st' :
  Js.truthy ext = true →
  LocalStorage.parseExtension env (LocalStorage.stringify env ext meta)
    = Returns (Some ext) →
  (LocalStorage.STORAGE_MODE st = "local" →
   LocalStorage.checkImageExistsInStorage env st chainId a = false) →
  LocalStorage.uploadImageToStorage env st chainId a bytes ext meta = (true, st') →
  LocalStorage.STORAGE_MODE st' = LocalStorage.STORAGE_MODE st ∧
  ∀ b, Js.toLowerCase b = Js.toLowerCase a →
    LocalStorage.checkImageExistsInStorage env st' chainId b = true ∧
    LocalStorage.getImageFromStorage env st' chainId b
    = Some {| Storage.storedBuffer := bytes;
              Storage.contentType := Storage.getMimeType ext;
              Storage.storedExtension := Some ext |}.
Proof.
  intros Hext Hjson Hclean.
  unfold LocalStorage.uploadImageToStorage, LocalStorage.checkImageExistsInStorage,
    LocalStorage.getImageFromStorage, LocalStorage.STORAGE_MODE in *.
  destruct (Storage.s3Client (LocalStorage.s3 st)) eqn:Hclient; cbn [String.eqb] in *.
  - change ("s3" =? "s3")%string with true. cbv iota.
    destruct (Storage.uploadImageToS3 _ _ _ _ _ _) as [ok s'] eqn:Hupload.
    intros [= -> <-]. cbn [LocalStorage.s3].
    apply upload_stored in Hupload as (Hclient' & Hreach' & Hobject).
    rewrite Hclient'. split; [done|]. intros b Hb.
    unfold Storage.checkImageExistsInS3, Storage.getImageFromS3, Storage.sendGet.
    rewrite Hclient', Hreach', (key_case chainId a b Hb), Hobject.
    cbn [negb Storage.Body Storage.ContentType Storage.Metadata].
    by rewrite putMetadata_extension, Hext.
  - change ("local" =? "s3")%string with false in *. cbv iota in *.
    destruct (LocalStorage.uploadImageToLocalStorage _ _ _ _ _ _ _) as [ok fs']
      eqn:Hupload.
    intros [= -> <-]. cbn [LocalStorage.s3 LocalStorage.disk]. rewrite Hclient.
    split; [done|]. intros b Hb.
    pose proof (checkImageExistsInLocalStorage_false env _ _ _ (Hclean eq_refl))
      as Hbefore.
    destruct (uploadImageToLocalStorage_spec env _ _ _ _ _ _ _ Hupload)
      as (Hdir & Himage & Hmeta).
    set (tokenDir := LocalStorage.getLocalStoragePath env chainId a) in *.
    set (imageFile := LocalStorage.imageFileName (Some ext)) in *.
    set (before := default [] (Fs.dirs (LocalStorage.disk st) !! tokenDir)) in *.
    pose proof (imageFileName_prefix ext Hext) as Hprefix. fold imageFile in Hprefix.
    assert (imageFile ∉ before) as Hnew.
    { intros Hin. rewrite Forall_forall in Hbefore. specialize (Hbefore _ Hin).
      congruence. }
    rewrite (bool_decide_eq_false_2 _ Hnew) in Hdir.
    assert (∃ tail, Fs.dirs fs' !! tokenDir = Some (before ++ imageFile :: tail)%list)
      as [tail Hlisting].
    { case_bool_decide.
      - exists []. by rewrite Hdir.
      - exists [LocalStorage.metadataFileName]. by rewrite Hdir, <-(assoc_L (++)). }
    unfold LocalStorage.checkImageExistsInLocalStorage,
      LocalStorage.getImageFromLocalStorage, Fs.readdir, Fs.readFile.
    rewrite (getLocalStoragePath_case chainId a b Hb). fold tokenDir.
    rewrite Hlisting, Hmeta, Hjson. split.
    + rewrite existsb_app. cbn [existsb]. rewrite Hprefix. apply orb_true_r.
    + cbv zeta. rewrite find_app.
      assert (Js.find (Js.startsWith "image.") before = None) as ->.
      { by apply find_None. }
      unfold Js.find at 1. cbn [List.find]. rewrite Hprefix.
      fold imageFile. rewrite Himage. cbn [Js.truthyOpt default]. rewrite !Hext.
      unfold id. rewrite Hext. reflexivity.
Qed.

(** X14. An image uploaded with an empty extension: the bucket stores
    and finds it, as "application/octet-stream" without extension; the
    local mode writes it to a file named [image], which neither the
    existence check nor the read recognise, so an upload that returned
    true is followed by "does not exist". *)
Theorem empty_extension_is_lost_locally st chainId a bytes meta st' :
  LocalStorage.checkImageExistsInStorage env st chainId a = false →
  LocalStorage.uploadImageToStorage env st chainId a bytes "" meta = (true, st') →
  (LocalStorage.STORAGE_MODE st = "s3" →
   LocalStorage.checkImageExistsInStorage env st' chainId a = true ∧
   LocalStorage.getImageFromStorage env st' chainId a
   = Some {| Storage.storedBuffer := bytes;
             Storage.contentType := "application/octet-stream";
             Storage.storedExtension := None |}) ∧
  (LocalStorage.STORAGE_MODE st = "local" →
   LocalStorage.checkImageExistsInStorage env st' chainId a = false ∧
   LocalStorage.getImageFromStorage env st' chainId a = None ∧
   Fs.files (LocalStorage.disk st')
     !! Fs.join [LocalStorage.getLocalStoragePath env chainId a; "image"] = Some bytes).
Proof.
  unfold LocalStorage.uploadImageToStorage, LocalStorage.checkImageExistsInStorage,
    LocalStorage.getImageFromStorage, LocalStorage.STORAGE_MODE.
  destruct (Storage.s3Client (LocalStorage.s3 st)) eqn:Hclient.
  - change ("s3" =? "s3")%string with true. cbv iota. intros _.
    destruct (Storage.uploadImageToS3 _ _ _ _ _ _) as [ok s'] eqn:Hupload.
    intros [= -> <-]. cbn [LocalStorage.s3].
    apply upload_stored in Hupload as (Hclient' & Hreach' & Hobject).
    rewrite Hclient'. split; [|done]. intros _.
    unfold Storage.checkImageExistsInS3, Storage.getImageFromS3, Storage.sendGet.
    rewrite Hclient', Hreach', Hobject.
    cbn [negb Storage.Body Storage.ContentType Storage.Metadata].
    by rewrite putMetadata_extension.
  - change ("local" =? "s3")%string with false. cbv iota. intros Hclean.
    destruct (LocalStorage.uploadImageToLocalStorage _ _ _ _ _ _ _) as [ok fs']
      eqn:Hupload.
    intros [= -> <-]. cbn [LocalStorage.s3 LocalStorage.disk]. rewrite Hclient.
    split; [done|]. intros _.
    pose proof (checkImageExistsInLocalStorage_false env _ _ _ Hclean) as Hbefore.
    destruct (uploadImageToLocalStorage_spec env _ _ _ _ _ _ _ Hupload)
      as (Hdir & Himage & _).
    change (LocalStorage.imageFileName (Some "")) with "image" in *.
    set (tokenDir := LocalStorage.getLocalStoragePath env chainId a) in *.
    set (before := default [] (Fs.dirs (LocalStorage.disk st) !! tokenDir)) in *.
    assert (∃ listing, Fs.dirs fs' !! tokenDir = Some listing ∧
              Forall (λ e, Js.startsWith "image." e = false) listing)
      as (listing & Hlisting & Hnone).
    { eexists. split; [exact Hdir|].
      repeat case_bool_decide; rewrite ?Forall_app; repeat split; try done;
        by repeat constructor. }
    assert (existsb (Js.startsWith "image.") listing = false) as Hexists.
    { by apply existsb_false. }
    unfold LocalStorage.checkImageExistsInLocalStorage,
      LocalStorage.getImageFromLocalStorage, Fs.readdir.
    fold tokenDir. rewrite Hlisting. split_and!; [done| |done].
    cbv zeta. by rewrite (proj2 (find_None _ _) Hnone).
Qed.

End UnifiedStorage.

(** ** The image route *)

Section ImageRouteFacts.
Context (env : LocalStorage.Env).
Implicit Types (st : LocalStorage.Store).

Lemma afterLastDot_png (prefix : string) :
  Js.afterLastDot (prefix +:+ ".png") = "png".
Proof.
  induction prefix as [|c prefix IH]; [done|].
  change (String c prefix +:+ ".png") with (String c (prefix +:+ ".png")).
  cbn [Js.afterLastDot].
  assert (existsb (Ascii.eqb ".") (list_ascii_of_string (prefix +:+ ".png")) = true)
    as ->; [|exact IH].
  rewrite list_ascii_append, existsb_app. simpl. apply orb_true_r.
Qed.

Lemma getImageFromStorage_case st chainId a b :
  Js.toLowerCase b = Js.toLowerCase a →
  LocalStorage.getImageFromStorage env st chainId b
  = LocalStorage.getImageFromStorage env st chainId a.
Proof.
  intros Hlow. unfold LocalStorage.getImageFromStorage, Storage.getImageFromS3,
    LocalStorage.getImageFromLocalStorage.
  by rewrite (key_case chainId a b Hlow), (getLocalStoragePath_case env chainId a b Hlow).
Qed.

(** X15. [GET /:chainId/:address] answers the stored image with its
    content type when the storage has one, and otherwise the file
    [images/default.png] as "image/png", whatever the working directory
    is called; it answers 500 only when nothing is stored and the default
    image cannot be read, and it never answers "not found".  Two
    casings of an address get the same answer. *)
Theorem image_route_serves_stored_or_default cwd st chainId address :
  (∀ img, LocalStorage.getImageFromStorage env st chainId address = Some img →
     ImageRoute.serve env cwd st chainId address
     = ImageRoute.Image (Storage.storedBuffer img) (Storage.contentType img)
         "public, max-age=86400") ∧
  (LocalStorage.getImageFromStorage env st chainId address = None →
   ∀ bytes,
     Fs.readFile (LocalStorage.disk st) (Fs.join [cwd; "images"; "default.png"])
       = Returns bytes →
     ImageRoute.serve env cwd st chainId address
     = ImageRoute.Image bytes "image/png" "public, max-age=86400") ∧
  (ImageRoute.serve env cwd st chainId address = ImageRoute.InternalServerError ↔
   LocalStorage.getImageFromStorage env st chainId address = None ∧
   ∃ msg, Fs.readFile (LocalStorage.disk st) (Fs.join [cwd; "images"; "default.png"])
          = Throws msg) ∧
  (∀ b, Js.toLowerCase b = Js.toLowerCase address →
        ImageRoute.serve env cwd st chainId b
        = ImageRoute.serve env cwd st chainId address).
Proof.
  assert (Js.afterLastDot (Fs.join [cwd; "images"; "default.png"]) = "png") as Hpng.
  { unfold Fs.join. cbn [String.concat].
    change "default.png" with ("default" +:+ ".png").
    rewrite <-!append_assoc_string. apply afterLastDot_png. }
  unfold ImageRoute.serve. split_and!.
  - by intros img ->.
  - intros -> bytes ->. cbv zeta. by rewrite Hpng.
  - destruct (LocalStorage.getImageFromStorage env st chainId address) as [img|].
    { split; [done|]. by intros [? _]. }
    destruct (Fs.readFile _ _) as [bytes|msg].
    + split; [done|]. by intros [_ [? ?]].
    + split; [|done]. intros _. split; [done|]. by exists msg.
  - intros b Hb. by rewrite (getImageFromStorage_case st chainId address b Hb).
Qed.

End ImageRouteFacts.

(** Written as [0xABC], read as [0xabc], in the local mode. *)
Lemma storage_round_trip_witness :
  ∃ st',
    LocalStorage.uploadImageToStorage LocalScenario.env LocalScenario.store 1 "0xABC"
      Sample.pngBytes "png" Sample.uploadMeta = (true, st') ∧
    LocalStorage.getImageFromStorage LocalScenario.env st' 1 "0xabc"
    = Some {| Storage.storedBuffer := Sample.pngBytes;
              Storage.contentType := "image/png";
              Storage.storedExtension := Some "png" |}.
Proof.
  set (st' := (LocalStorage.uploadImageToStorage LocalScenario.env LocalScenario.store
                 1 "0xABC" Sample.pngBytes "png" Sample.uploadMeta).2).
  assert (LocalStorage.uploadImageToStorage LocalScenario.env LocalScenario.store 1
            "0xABC" Sample.pngBytes "png" Sample.uploadMeta = (true, st')) as Hupload.
  { vm_compute. reflexivity. }
  exists st'. split; [exact Hupload|].
  apply (storage_round_trip LocalScenario.env LocalScenario.store 1 "0xABC"
           Sample.pngBytes "png" Sample.uploadMeta st').
  - reflexivity.
  - reflexivity.
  - intros _. vm_compute. reflexivity.
  - exact Hupload.
  - reflexivity.
Defined.

(** The same upload with an empty extension is gone afterwards. *)
Lemma empty_extension_is_lost_locally_witness :
  ∃ st',
    LocalStorage.uploadImageToStorage LocalScenario.env LocalScenario.store 1 "0xABC"
      Sample.pngBytes "" Sample.uploadMeta = (true, st') ∧
    LocalStorage.checkImageExistsInStorage LocalScenario.env st' 1 "0xABC" = false.
Proof.
  set (st' := (LocalStorage.uploadImageToStorage LocalScenario.env LocalScenario.store
                 1 "0xABC" Sample.pngBytes "" Sample.uploadMeta).2).
  assert (LocalStorage.uploadImageToStorage LocalScenario.env LocalScenario.store 1
            "0xABC" Sample.pngBytes "" Sample.uploadMeta = (true, st')) as Hupload.
  { vm_compute. reflexivity. }
  exists st'. split; [exact Hupload|].
  apply (proj2 (empty_extension_is_lost_locally LocalScenario.env LocalScenario.store 1
                  "0xABC" Sample.pngBytes Sample.uploadMeta st'
                  ltac:(vm_compute; reflexivity) Hupload)).
  reflexivity.
Defined.

(** ** [Array.prototype.find] *)

Section FindFirst.

(** [find] answers the first element that satisfies the predicate. *)
Lemma find_some_first {A} (pred : A → bool) (l : list A) (x : A) :
  List.find pred l = Some x →
  ∃ before after, l = (before ++ x :: after)%list ∧ pred x = true ∧
                  Forall (λ y, pred y = false) before.
Proof.
  induction l as [|y l IH]; [done|]. simpl. destruct (pred y) eqn:Hy.
  - intros [= ->]. by exists [], l.
  - intros Hfind. destruct (IH Hfind) as (before & after & -> & Hx & Hbefore).
    exists (y :: before), after. split_and!; [done|done|by constructor].
Qed.

Lemma existsb_eqb_elem_of (x : string) (l : list string) :
  existsb (String.eqb x) l = true ↔ x ∈ l.
Proof.
  rewrite existsb_exists. split.
  - intros (y & Hin & ->%String.eqb_eq). by apply list_elem_of_In.
  - intros Hin. exists x. split; [by apply list_elem_of_In|apply String.eqb_refl].
Qed.

Lemma existsb_Zeqb_elem_of (x : Z) (l : list Z) :
  existsb (Z.eqb x) l = true ↔ x ∈ l.
Proof.
  rewrite existsb_exists. split.
  - intros (y & Hin & ->%Z.eqb_eq). by apply list_elem_of_In.
  - intros Hin. exists x. split; [by apply list_elem_of_In|apply Z.eqb_refl].
Qed.

End FindFirst.

(** ** The Pendle provider and its cache *)

Section PendleCache.
Implicit Types (env : PendleProvider.Env) (cache : PendleProvider.Cache).

(** X16. The cache of [fetchPendleAssets].  An entry younger than five
    minutes is answered without asking the network.  A fetch that
    succeeds stores the assets under the chain with the time of the call,
    and they are answered from then on for five minutes whatever the
    network does.  A fetch that fails answers [null] and leaves the cache
    as it is, also when it holds an expired entry for the chain.  Entries
    of other chains are never touched. *)
Theorem fetchPendleAssets_cache env now cache chainId :
  (∀ cached, cache !! chainId = Some cached →
     now - cached.2 < PendleProvider.cacheExpiry →
     ∀ env', PendleProvider.fetchPendleAssets env' now cache chainId
             = (Some cached.1, cache)) ∧
  (∀ assets cache',
     PendleProvider.fetchPendleAssets env now cache chainId = (Some assets, cache') →
     (cache' = cache ∧
      ∃ t, cache !! chainId = Some (assets, t) ∧ now - t < PendleProvider.cacheExpiry) ∨
     (cache' = <[chainId := (assets, now)]> cache ∧
      ∀ env' now', now' - now < PendleProvider.cacheExpiry →
        PendleProvider.fetchPendleAssets env' now' cache' chainId
        = (Some assets, cache'))) ∧
  (∀ cache',
     PendleProvider.fetchPendleAssets env now cache chainId = (None, cache') →
     cache' = cache) ∧
  (∀ r cache' c,
     PendleProvider.fetchPendleAssets env now cache chainId = (r, cache') →
     c ≠ chainId → cache' !! c = cache !! c).
Proof.
  assert (∀ env' now' (c : PendleProvider.Cache) data t,
    c !! chainId = Some (data, t) → now' - t < PendleProvider.cacheExpiry →
    PendleProvider.fetchPendleAssets env' now' c chainId = (Some data, c)) as Hhit.
  { intros env' now' c data t Hc Hlt. unfold PendleProvider.fetchPendleAssets.
    rewrite Hc. cbn [fst snd]. by rewrite (proj2 (Z.ltb_lt _ _) Hlt). }
  assert (∀ r cache',
    match PendleProvider.fetch env
            (PendleProvider.baseUrl +:+ "/" +:+ pretty chainId +:+ "/assets/all") with
    | PendleProvider.Unreachable => (None, cache)
    | PendleProvider.Responded ok json =>
        if negb ok then (None, cache)
        else match json with
             | Throws _ => (None, cache)
             | Returns PendleProvider.NoArray => (None, cache)
             | Returns (PendleProvider.Assets assets) =>
                 (Some assets, <[chainId := (assets, now)]> cache)
             end
    end = (r, cache') →
    (r = None ∧ cache' = cache) ∨
    ∃ assets, r = Some assets ∧ cache' = <[chainId := (assets, now)]> cache) as Hrefetch.
  { intros r cache'. destruct (PendleProvider.fetch env _) as [|[] [[|assets]|]];
      cbn [negb]; intros [= <- <-]; first [by left|by right; eexists]. }
  split_and!.
  - intros [data t] Hc Hlt env'. exact (Hhit env' now cache data t Hc Hlt).
  - intros assets cache'. unfold PendleProvider.fetchPendleAssets.
    destruct (cache !! chainId) as [[data t]|] eqn:Hc; cbn [fst snd].
    + destruct (Z.ltb_spec (now - t) PendleProvider.cacheExpiry) as [Hlt|Hge].
      * intros [= <- <-]. left. split; [done|]. by exists t.
      * intros [[[=] _]|(assets' & [= <-] & ->)]%Hrefetch. right. split; [done|].
        intros env' now' Hlt. apply (Hhit _ _ _ assets now); [|done].
        apply lookup_insert_eq.
    + intros [[[=] _]|(assets' & [= <-] & ->)]%Hrefetch. right. split; [done|].
      intros env' now' Hlt. apply (Hhit _ _ _ assets now); [|done].
      apply lookup_insert_eq.
  - intros cache'. unfold PendleProvider.fetchPendleAssets.
    destruct (cache !! chainId) as [[data t]|]; cbn [fst snd].
    + destruct (now - t <? PendleProvider.cacheExpiry); [done|].
      by intros [[_ ->]|(assets' & [=] & _)]%Hrefetch.
    + by intros [[_ ->]|(assets' & [=] & _)]%Hrefetch.
  - intros r cache' c Hrun Hne.
    assert (cache' = cache ∨ ∃ assets, cache' = <[chainId := (assets, now)]> cache)
      as [->|[assets ->]]; [|done|by rewrite lookup_insert_ne].
    revert Hrun. unfold PendleProvider.fetchPendleAssets.
    destruct (cache !! chainId) as [[data t]|]; cbn [fst snd].
    + destruct (now - t <? PendleProvider.cacheExpiry); [intros [= _ <-]; by left|].
      intros [[_ ->]|(assets' & _ & ->)]%Hrefetch; [by left|right; by eexists].
    + intros [[_ ->]|(assets' & _ & ->)]%Hrefetch; [by left|right; by eexists].
Qed.

Lemma foldl_min_spec (a : Z) (l : list Z) :
  foldl Z.min a l ∈ a :: l ∧ ∀ x, x ∈ a :: l → foldl Z.min a l ≤ x.
Proof.
  revert a. induction l as [|y l IH]; intros a; simpl.
  - split; [by left|]. intros x Hx. apply list_elem_of_singleton in Hx as ->. lia.
  - destruct (IH (Z.min a y)) as [Hin Hle]. split.
    + apply elem_of_cons in Hin as [Heq|Hin]; [|by right; right].
      rewrite Heq. destruct (Z.min_spec a y) as [[_ ->]|[_ ->]]; [by left|by right; left].
    + intros x Hx. apply elem_of_cons in Hx as [->|Hx].
      * specialize (Hle (Z.min a y) ltac:(by left)). lia.
      * apply elem_of_cons in Hx as [->|Hx].
        -- specialize (Hle (Z.min a y) ltac:(by left)). lia.
        -- apply Hle. by right.
Qed.

(** X17. [getCacheStats] counts the cached chains and reports as
    [oldestCache] the smallest age among the entries, that is the age of
    the entry fetched last; it is [null] exactly when the cache is empty,
    as it is after [clearCache]. *)
Theorem getCacheStats_reports_newest now cache :
  PendleProvider.totalChains (PendleProvider.getCacheStats now cache) = 2 ∧
  PendleProvider.cachedChains (PendleProvider.getCacheStats now cache)
    = Z.of_nat (size cache) ∧
  (PendleProvider.oldestCache (PendleProvider.getCacheStats now cache) = None ↔
   cache = ∅) ∧
  (∀ age, PendleProvider.oldestCache (PendleProvider.getCacheStats now cache) = Some age →
     (∃ chainId data t, cache !! chainId = Some (data, t) ∧ age = now - t) ∧
     ∀ chainId data t, cache !! chainId = Some (data, t) → age ≤ now - t) ∧
  PendleProvider.getCacheStats now (PendleProvider.clearCache cache)
  = {| PendleProvider.totalChains := 2; PendleProvider.cachedChains := 0;
       PendleProvider.oldestCache := None |}.
Proof.
  unfold PendleProvider.getCacheStats.
  cbn [PendleProvider.totalChains PendleProvider.cachedChains PendleProvider.oldestCache].
  split_and!.
  - done.
  - by rewrite length_fmap, length_map_to_list.
  - destruct (map_to_list cache) as [|e l] eqn:Hlist.
    + apply map_to_list_empty_iff in Hlist. by rewrite Hlist.
    + cbn. split; [done|]. intros ->. by rewrite map_to_list_empty in Hlist.
  - intros age Hage.
    destruct ((λ c : list PendleProvider.PendleAsset * Z, now - c.2)
                <$> (map_to_list cache).*2) as [|a ages] eqn:Hages; [done|].
    injection Hage as <-. destruct (foldl_min_spec a ages) as [Hin Hle].
    rewrite <-Hages in Hin, Hle. split.
    + apply list_elem_of_fmap in Hin as ([data t] & -> & Hin).
      apply list_elem_of_fmap in Hin as ([chainId [data' t']] & [= <- <-] & Hin).
      apply elem_of_map_to_list in Hin. by exists chainId, data, t.
    + intros chainId data t Hc. apply Hle. apply list_elem_of_fmap.
      exists (data, t). split; [done|]. apply list_elem_of_fmap.
      exists (chainId, (data, t)). split; [done|]. by apply elem_of_map_to_list.
  - unfold PendleProvider.clearCache. by rewrite map_to_list_empty.
Qed.

(** X18. [fetchImage] of the Pendle provider answers absent for every
    chain but 1 and 42161 without touching the cache or the network; it
    treats two casings of an address alike; and a result it answers is
    tagged "pendle" and carries the icon URL of the first asset of the
    chain whose address matches, with an extension among png, jpg, jpeg,
    webp, svg, gif. *)
Theorem pendle_fetchImage_answers env now cache chainId address :
  (chainId ∉ PendleProvider.supportedChains →
   ∀ env' now', PendleProvider.fetchImage env' now' cache chainId address
                = (None, cache)) ∧
  PendleProvider.fetchImage env now cache chainId (Js.toLowerCase address)
  = PendleProvider.fetchImage env now cache chainId address ∧
  (PendleProvider.fetchImage env now cache chainId address).2
  = (if PendleProvider.isChainSupported chainId
     then (PendleProvider.fetchPendleAssets env now cache chainId).2 else cache) ∧
  (∀ r cache',
     PendleProvider.fetchImage env now cache chainId address = (Some r, cache') →
     chainId ∈ PendleProvider.supportedChains ∧
     provider r = "pendle" ∧ buffer r = None ∧
     extension r ∈ RemoteProvider.withGif ∧
     ∃ assets before asset after icon,
       PendleProvider.fetchPendleAssets env now cache chainId = (Some assets, cache') ∧
       assets = (before ++ asset :: after)%list ∧
       Forall (λ a, Js.toLowerCase (PendleProvider.assetAddress a)
                    ≠ Js.toLowerCase address) before ∧
       Js.toLowerCase (PendleProvider.assetAddress asset) = Js.toLowerCase address ∧
       PendleProvider.proIcon asset = Some icon ∧ url r = Some icon).
Proof.
  assert (PendleProvider.isChainSupported chainId = true ↔
          chainId ∈ PendleProvider.supportedChains) as Hsupported.
  { unfold PendleProvider.isChainSupported, PendleProvider.supportedChains.
    cbn [existsb]. rewrite !orb_true_iff, !Z.eqb_eq, !elem_of_cons, elem_of_nil.
    intuition congruence. }
  split_and!.
  - intros Hnot env' now'. unfold PendleProvider.fetchImage.
    destruct (PendleProvider.isChainSupported chainId); [|done].
    exfalso. apply Hnot. by apply Hsupported.
  - unfold PendleProvider.fetchImage. by rewrite toLowerCase_idemp.
  - unfold PendleProvider.fetchImage.
    destruct (PendleProvider.isChainSupported chainId); [|done]. cbn [negb].
    destruct (PendleProvider.fetchPendleAssets env now cache chainId) as [[assets|] c];
      [|done].
    destruct (Js.find _ assets) as [asset|]; [|done].
    destruct (PendleProvider.proIcon asset) as [icon|]; [|done].
    by destruct (Js.truthy icon).
  - intros r cache'. unfold PendleProvider.fetchImage.
    destruct (PendleProvider.isChainSupported chainId) eqn:Hs; [|done]. cbn [negb].
    destruct (PendleProvider.fetchPendleAssets env now cache chainId) as [[assets|] c];
      [|done].
    destruct (Js.find _ assets) as [asset|] eqn:Hfind; [|done].
    destruct (PendleProvider.proIcon asset) as [icon|] eqn:Hicon; [|done].
    destruct (Js.truthy icon); [|done]. cbn [negb]. intros [= <- <-].
    cbn [provider buffer extension url].
    split_and!; [by apply Hsupported|done|done| |].
    + unfold PendleProvider.getExtensionFromUrl.
      pose proof (getExtensionFromUrl_known RemoteProvider.withGif "svg"
                    (PendleProvider.urlPathname env) icon) as Hin.
      apply elem_of_cons in Hin as [->|Hin]; [|done].
      unfold RemoteProvider.withGif. by repeat (first [left|right]).
    + unfold Js.find in Hfind. apply find_some_first in Hfind
        as (before & after & -> & Hmatch & Hbefore).
      exists (before ++ asset :: after)%list, before, asset, after, icon.
      split_and!; [done|done| |by apply String.eqb_eq|done|done].
      eapply Forall_impl; [exact Hbefore|]. intros a Ha. by apply String.eqb_neq.
Qed.

End PendleCache.

(** ** The underlying-asset provider: when it answers *)

Section UnderlyingGate.
Implicit Types (env : PendlePT.Env).

(** X19. The underlying-asset provider answers a result only for a
    token it takes for a Pendle PT, on one of its six chains, with an
    RPC URL configured and its callback set, and the result is tagged
    "pendle-pt-underlying"; for a token that is no PT it answers absent
    without reading the chain, the bucket or the callback.  Whether a
    token is a PT does not depend on the casing of its address, and the
    address of the debug override is a PT on every chain, with or without
    a tokenlist. *)
Theorem underlying_provider_gate env callback chainId address :
  (Js.toLowerCase address = Js.toLowerCase PendlePT.debugOverride →
   ∀ env' chainId', PendlePT.isPendlePT env' chainId' address = true) ∧
  PendlePT.isPendlePT env chainId (Js.toLowerCase address)
  = PendlePT.isPendlePT env chainId address ∧
  (chainId ∉ PendlePT.chainConfigs ∨ Js.truthyOpt (PendlePT.getRpcUrl env chainId) = false →
   PendlePT.getUnderlyingAssetAddress env chainId address = None) ∧
  (PendlePT.isPendlePT env chainId address = false →
   ∀ env', PendlePT.loadTokenList env' = PendlePT.loadTokenList env →
     PendlePT.fetchImage env' callback chainId address = Some None) ∧
  (∀ r, PendlePT.fetchImage env callback chainId address = Some (Some r) →
     PendlePT.isPendlePT env chainId address = true ∧
     chainId ∈ PendlePT.chainConfigs ∧
     Js.truthyOpt (PendlePT.getRpcUrl env chainId) = true ∧
     is_Some callback ∧ provider r = "pendle-pt-underlying").
Proof.
  assert (existsb (Z.eqb chainId) PendlePT.chainConfigs = true ↔
          chainId ∈ PendlePT.chainConfigs) as Hchains.
  { unfold PendlePT.chainConfigs. cbn [existsb].
    rewrite !orb_true_iff, !Z.eqb_eq, !elem_of_cons, elem_of_nil. intuition congruence. }
  split_and!.
  - intros Hlow env' chainId'. unfold PendlePT.isPendlePT.
    by rewrite Hlow, String.eqb_refl.
  - unfold PendlePT.isPendlePT. by rewrite toLowerCase_idemp.
  - intros Hout. unfold PendlePT.getUnderlyingAssetAddress.
    destruct (existsb (Z.eqb chainId) PendlePT.chainConfigs) eqn:Hin; [|done].
    cbn [negb]. destruct Hout as [Hnot|Hrpc]; [|by rewrite Hrpc].
    exfalso. apply Hnot. by apply Hchains.
  - intros Hpt env' Hlist. unfold PendlePT.fetchImage.
    destruct callback as [cb|]; [|done].
    assert (PendlePT.isPendlePT env' chainId address = false) as ->; [|done].
    revert Hpt. unfold PendlePT.isPendlePT. by rewrite Hlist.
  - intros r. unfold PendlePT.fetchImage. destruct callback as [cb|]; [|done].
    destruct (PendlePT.isPendlePT env chainId address); [|done]. cbn [negb].
    destruct (PendlePT.getUnderlyingAssetAddress env chainId address) as [u|] eqn:Hu;
      [|done].
    assert (chainId ∈ PendlePT.chainConfigs ∧
            Js.truthyOpt (PendlePT.getRpcUrl env chainId) = true) as [Hin Hrpc].
    { revert Hu. unfold PendlePT.getUnderlyingAssetAddress.
      destruct (existsb (Z.eqb chainId) PendlePT.chainConfigs) eqn:Hin; [|done].
      cbn [negb]. destruct (Js.truthyOpt (PendlePT.getRpcUrl env chainId)); [|done].
      intros _. split; [by apply Hchains|done]. }
    intros Hr. split_and!; [done|done|done|by eexists|].
    destruct (Storage.getImageFromS3 _ _ _); [by injection Hr as <-|].
    destruct (cb chainId u) as [[d|]|]; [|done..]. by injection Hr as <-.
Qed.

End UnderlyingGate.

(** ** The local provider: when it finds an image *)

Section LocalFinds.
Implicit Types (fs : Fs.t).

(** X20. The local provider finds an image exactly when the directory
    of the token (under the lowercased address) can be listed, the first
    entry whose name starts with "image." has text after its last dot,
    and that file can be read; later entries are not looked at, so an
    entry named "image." ahead of the others hides them.  The casing of
    the address does not matter, and [bulkCheckLocalImages] answers one
    entry per token, in order and with the token's own chain and address,
    whose [hasLocal] tells whether [fetchImage] finds an image. *)
Theorem local_provider_finds fs baseImagePath chainId address :
  let tokenDir :=
    Fs.join [baseImagePath; pretty chainId; Js.toLowerCase address] in
  (is_Some (LocalImagesProvider.fetchImage fs baseImagePath chainId address) ↔
   ∃ entries imageFile content,
     Fs.readdir fs tokenDir = Returns entries ∧
     Js.find (Js.startsWith "image.") entries = Some imageFile ∧
     Js.truthy (Js.afterLastDot imageFile) = true ∧
     Fs.readFile fs (Fs.join [tokenDir; imageFile]) = Returns content) ∧
  (∀ before rest,
     Fs.readdir fs tokenDir = Returns (before ++ "image." :: rest)%list →
     Forall (λ e, Js.startsWith "image." e = false) before →
     LocalImagesProvider.fetchImage fs baseImagePath chainId address = None) ∧
  LocalImagesProvider.fetchImage fs baseImagePath chainId (Js.toLowerCase address)
  = LocalImagesProvider.fetchImage fs baseImagePath chainId address ∧
  (∀ tokens,
     length (LocalImagesProvider.bulkCheckLocalImages
               (LocalImagesProvider.make fs baseImagePath) tokens) = length tokens ∧
     ∀ (i : nat) token,
       tokens !! i = Some token →
       ∃ check,
         LocalImagesProvider.bulkCheckLocalImages
           (LocalImagesProvider.make fs baseImagePath) tokens !! i = Some check ∧
         LocalImagesProvider.localChainId check = Storage.tokenChainId token ∧
         LocalImagesProvider.localAddress check = Storage.tokenAddress token ∧
         (LocalImagesProvider.hasLocal check = true ↔
          is_Some (LocalImagesProvider.fetchImage fs baseImagePath
                     (Storage.tokenChainId token) (Storage.tokenAddress token)))).
Proof.
  cbv zeta. split_and!.
  - unfold LocalImagesProvider.fetchImage, Fs.existsSync, Fs.readdir. split.
    + intros [r Hr]. revert Hr.
      destruct (Fs.dirs fs !! _) as [entries|] eqn:Hdir.
      * cbn [negb]. destruct (Js.find _ entries) as [imageFile|] eqn:Hfind; [|done].
        destruct (Js.truthy (Js.afterLastDot imageFile)) eqn:Hext; [|done]. cbn [negb].
        destruct (Fs.readFile fs _) as [content|] eqn:Hfile; [|done].
        intros _. by exists entries, imageFile, content.
      * by destruct (Fs.files fs !! _).
    + intros (entries & imageFile & content & Hdir & Hfind & Hext & Hfile).
      destruct (Fs.dirs fs !! _) as [entries'|]; [|done]. injection Hdir as ->.
      cbn [negb]. rewrite Hfind, Hext. cbn [negb]. rewrite Hfile. by eexists.
  - intros before rest Hdir Hbefore.
    unfold LocalImagesProvider.fetchImage, Fs.existsSync. rewrite Hdir.
    unfold Fs.readdir in Hdir. destruct (Fs.dirs fs !! _); [|done]. cbn [negb].
    rewrite find_app, (proj2 (find_None _ _) Hbefore). by unfold Js.find.
  - unfold LocalImagesProvider.fetchImage. by rewrite toLowerCase_idemp.
  - intros tokens. unfold LocalImagesProvider.bulkCheckLocalImages.
    split; [by rewrite length_fmap|]. intros i token Hi.
    rewrite list_lookup_fmap, Hi. eexists. split; [done|].
    cbn [LocalImagesProvider.localChainId LocalImagesProvider.localAddress
         LocalImagesProvider.hasLocal LocalImagesProvider.make Provider.fetchImage].
    split_and!; [done|done|].
    rewrite bool_decide_eq_true. destruct (LocalImagesProvider.fetchImage _ _ _ _).
    + split; [by eexists|done].
    + split; [done|]. by intros [? ?].
Qed.

End LocalFinds.

(** ** The Sim Dune provider *)

Section SimDune.
Implicit Types (env : SimDuneProvider.Env).

(** X21. The Sim Dune provider answers absent without a key, whatever
    the API would say, and treats two casings of an address alike.  A
    result carries the logo of the one token info it settles on: the
    single object, or in an array the entry of the requested chain, or
    else the first entry whatever its chain.  When that entry has no
    logo the answer is absent even if another entry has one. *)
Theorem simDune_settles_on_one_entry env chainId address :
  (Js.truthy (SimDuneProvider.apiKey env) = false →
   SimDuneProvider.fetchImage env chainId address = None) ∧
  SimDuneProvider.fetchImage env chainId (Js.toLowerCase address)
  = SimDuneProvider.fetchImage env chainId address ∧
  (∀ r, SimDuneProvider.fetchImage env chainId address = Some r →
     provider r = "sim-dune" ∧ buffer r = None ∧
     extension r ∈ RemoteProvider.withGif ∧
     ∃ body tokenInfo,
       SimDuneProvider.fetch env (Js.toLowerCase address) chainId
         = SimDuneProvider.Responded true (Returns body) ∧
       SimDuneProvider.chosen chainId (SimDuneProvider.data body) = Some tokenInfo ∧
       url r = SimDuneProvider.logo_uri tokenInfo) ∧
  (∀ tokenInfos,
     (∀ token, token ∈ tokenInfos →
        SimDuneProvider.chain_id token ≠ Some chainId) →
     SimDuneProvider.chosen chainId (SimDuneProvider.DataArray tokenInfos)
     = head tokenInfos) ∧
  (∀ before token after,
     Forall (λ t, SimDuneProvider.chain_id t ≠ Some chainId) before →
     SimDuneProvider.chain_id token = Some chainId →
     SimDuneProvider.chosen chainId
       (SimDuneProvider.DataArray (before ++ token :: after)) = Some token) ∧
  (∀ ok body tokenInfo,
     SimDuneProvider.fetch env (Js.toLowerCase address) chainId
       = SimDuneProvider.Responded ok (Returns body) →
     SimDuneProvider.chosen chainId (SimDuneProvider.data body) = Some tokenInfo →
     SimDuneProvider.logo_uri tokenInfo = None →
     SimDuneProvider.fetchImage env chainId address = None).
Proof.
  split_and!.
  - intros Hkey. unfold SimDuneProvider.fetchImage. by rewrite Hkey.
  - unfold SimDuneProvider.fetchImage. by rewrite toLowerCase_idemp.
  - intros r. unfold SimDuneProvider.fetchImage.
    destruct (Js.truthy (SimDuneProvider.apiKey env)); [|done]. cbn [negb].
    destruct (SimDuneProvider.fetch env _ _) as [|[] [body|]]; try done. cbn [negb].
    destruct (Js.truthyOpt (SimDuneProvider.error body)); [done|].
    destruct (SimDuneProvider.chosen _ _) as [tokenInfo|] eqn:Hchosen; [|done].
    destruct (SimDuneProvider.logo_uri tokenInfo) as [logo|] eqn:Hlogo; [|done].
    destruct (Js.truthy logo); [|done]. cbn [negb]. intros [= <-].
    cbn [provider buffer extension url]. split_and!; [done|done| |].
    + unfold SimDuneProvider.getExtensionFromUrl.
      pose proof (getExtensionFromUrl_known RemoteProvider.withGif "png"
                    (SimDuneProvider.urlPathname env) logo) as Hin.
      apply elem_of_cons in Hin as [->|Hin]; [|done].
      unfold RemoteProvider.withGif. by left.
    + by exists body, tokenInfo.
  - intros tokenInfos Hnone. unfold SimDuneProvider.chosen.
    assert (Js.find (λ token, bool_decide (SimDuneProvider.chain_id token = Some chainId))
              tokenInfos = None) as ->; [|done].
    apply find_None, Forall_forall. intros token Hin.
    apply bool_decide_eq_false. by apply Hnone.
  - intros before token after Hbefore Htoken. unfold SimDuneProvider.chosen.
    rewrite find_app.
    assert (Js.find (λ token, bool_decide (SimDuneProvider.chain_id token = Some chainId))
              before = None) as ->.
    { apply find_None. eapply Forall_impl; [exact Hbefore|].
      intros t Ht. by apply bool_decide_eq_false. }
    unfold Js.find. cbn [List.find]. by rewrite bool_decide_eq_true_2.
  - intros ok body tokenInfo Hfetch Hchosen Hlogo. unfold SimDuneProvider.fetchImage.
    destruct (Js.truthy (SimDuneProvider.apiKey env)); [|done]. cbn [negb].
    rewrite Hfetch. destruct ok; [|done]. cbn [negb].
    destruct (Js.truthyOpt (SimDuneProvider.error body)); [done|].
    by rewrite Hchosen, Hlogo.
Qed.

End SimDune.

(** Fetched at time 1000 while the API is up; answered from the cache
    one millisecond before the five minutes are over, with the API
    down. *)
Lemma fetchPendleAssets_cache_witness :
  PendleProvider.fetchPendleAssets PendleScenario.down 300999
    {[ 1 := ([PendleScenario.ptAsset], 1000) ]} 1
  = (Some [PendleScenario.ptAsset], {[ 1 := ([PendleScenario.ptAsset], 1000) ]}).
Proof.
  destruct (proj1 (proj2 (fetchPendleAssets_cache PendleScenario.online 1000 ∅ 1))
              [PendleScenario.ptAsset] {[ 1 := ([PendleScenario.ptAsset], 1000) ]})
    as [[Hsame _]|[_ Hlater]].
  - vm_compute. reflexivity.
  - discriminate Hsame.
  - apply Hlater. vm_compute. reflexivity.
Defined.

(** The asset is found under another casing of its address. *)
Lemma pendle_fetchImage_answers_witness :
  ∃ r cache',
    PendleProvider.fetchImage PendleScenario.online 1000 ∅ 1 "0xABC1" = (Some r, cache') ∧
    provider r = "pendle" ∧ extension r ∈ RemoteProvider.withGif.
Proof.
  destruct (PendleProvider.fetchImage PendleScenario.online 1000 ∅ 1 "0xABC1")
    as [[r|] cache'] eqn:Hrun.
  - exists r, cache'. split; [reflexivity|].
    destruct (proj2 (proj2 (proj2 (pendle_fetchImage_answers PendleScenario.online 1000 ∅
                                     1 "0xABC1"))) r cache' Hrun)
      as (_ & Hprovider & _ & Hext & _).
    split; [exact Hprovider|exact Hext].
  - vm_compute in Hrun. discriminate Hrun.
Defined.

(** The token [0x02] of the sample chain is a PT on chain 1, which is
    configured: the provider answers the re-tagged result of its
    callback. *)
Lemma underlying_provider_gate_witness :
  ∃ r,
    PendlePT.fetchImage Sample.ptOfPt
      (Some (λ _ _, Some (Some (Sample.pngAt "coingecko" "https://a.example/logo.png"))))
      1 "0x02" = Some (Some r) ∧
    provider r = "pendle-pt-underlying" ∧ 1 ∈ PendlePT.chainConfigs.
Proof.
  eexists. split; [vm_compute; reflexivity|].
  destruct (proj2 (proj2 (proj2 (proj2
              (underlying_provider_gate Sample.ptOfPt
                 (Some (λ _ _, Some (Some (Sample.pngAt "coingecko"
                                             "https://a.example/logo.png"))))
                 1 "0x02"))))
              (PendlePT.retag (Sample.pngAt "coingecko" "https://a.example/logo.png")))
    as (_ & Hchain & _ & _ & Htag).
  - vm_compute. reflexivity.
  - split; [exact Htag|exact Hchain].
Defined.

(** The sample images folder holds [image.svg] for the token [0xABC]. *)
Lemma local_provider_finds_witness :
  is_Some (LocalImagesProvider.fetchImage Sample.logoFs "images" 1 "0xABC").
Proof.
  apply (proj1 (local_provider_finds Sample.logoFs "images" 1 "0xABC")).
  exists ["metadata.json"; "image.svg"], "image.svg", [x3c; x73].
  split_and!; vm_compute; reflexivity.
Defined.

(** Asked for chain 1, the provider answers the logo of the entry for
    chain 10, the first of the array. *)
Lemma simDune_settles_on_one_entry_witness :
  SimDuneProvider.chosen 1 (SimDuneProvider.DataArray [SimDuneScenario.onOptimism])
    = Some SimDuneScenario.onOptimism ∧
  ∃ r, SimDuneProvider.fetchImage SimDuneScenario.env 1 "0xA0b8" = Some r ∧
       url r = Some "https://cdn.example/op-usdc.png".
Proof.
  split.
  - apply (proj1 (proj2 (proj2 (proj2
              (simDune_settles_on_one_entry SimDuneScenario.env 1 "0xA0b8"))))
             [SimDuneScenario.onOptimism]).
    intros token Hin. apply list_elem_of_singleton in Hin as ->. discriminate.
  - eexists. split; vm_compute; reflexivity.
Defined.

(** ** The ring of the Pendle PT images *)

Section Ring.
Implicit Types (sharp : ImageProcessing.Sharp).

Lemma ringSizeOf_bounds (size : Z) :
  1 ≤ ImageProcessing.ringSizeOf size ∧
  (0 ≤ size < 23 → ImageProcessing.ringSizeOf size = 1) ∧
  (8 ≤ size →
   15 * ImageProcessing.ringSizeOf size - 7 ≤ size ≤ 15 * ImageProcessing.ringSizeOf size + 7).
Proof.
  unfold ImageProcessing.ringSizeOf, ImageProcessing.roundFifteenth.
  pose proof (Z.div_mod (2 * size + 15) 30 ltac:(lia)) as Hdiv.
  pose proof (Z.mod_pos_bound (2 * size + 15) 30 ltac:(lia)) as Hmod.
  split_and!; lia.
Qed.

(** X22. [applyPendlePTRing] answers either the buffer and the extension
    it was given, untouched, or a composed image with the extension
    "png"; never a changed buffer under the old extension.  It composes
    only when both dimensions are known and the smaller one is at least 3;
    the ring is then at least one pixel and at most as wide as the inner
    image, and ring, inner image and ring add up to the smaller dimension,
    so the inner image placed at offset [ringSize] is centred.  A failure
    of any [sharp] call gives the original back. *)
Theorem applyPendlePTRing_geometry sharp imageBuffer extension :
  (ImageProcessing.applyPendlePTRing sharp imageBuffer extension = (imageBuffer, extension) ∨
   ∃ w h inner result,
     ImageProcessing.metadata sharp imageBuffer
     = Returns {| ImageProcessing.width := Some w; ImageProcessing.height := Some h |} ∧
     3 ≤ Z.min w h ∧
     1 ≤ ImageProcessing.ringSizeOf (Z.min w h)
       ≤ Z.min w h - 2 * ImageProcessing.ringSizeOf (Z.min w h) ∧
     ImageProcessing.innerImage sharp imageBuffer
       (Z.min w h - 2 * ImageProcessing.ringSizeOf (Z.min w h)) = Returns inner ∧
     ImageProcessing.composite sharp (Z.min w h) inner
       (ImageProcessing.ringSizeOf (Z.min w h)) = Returns result ∧
     ImageProcessing.applyPendlePTRing sharp imageBuffer extension = (result, "png")) ∧
  (∀ m, ImageProcessing.metadata sharp imageBuffer = Returns m →
     ImageProcessing.width m = None ∨ ImageProcessing.height m = None ∨
     Z.min (default 0 (ImageProcessing.width m)) (default 0 (ImageProcessing.height m)) ≤ 2 →
     ImageProcessing.applyPendlePTRing sharp imageBuffer extension
     = (imageBuffer, extension)) ∧
  (∀ w h inner result,
     ImageProcessing.metadata sharp imageBuffer
     = Returns {| ImageProcessing.width := Some w; ImageProcessing.height := Some h |} →
     3 ≤ Z.min w h →
     ImageProcessing.innerImage sharp imageBuffer
       (Z.min w h - 2 * ImageProcessing.ringSizeOf (Z.min w h)) = Returns inner →
     ImageProcessing.composite sharp (Z.min w h) inner
       (ImageProcessing.ringSizeOf (Z.min w h)) = Returns result →
     ImageProcessing.applyPendlePTRing sharp imageBuffer extension = (result, "png")) ∧
  (∀ size, 8 ≤ size →
     15 * ImageProcessing.ringSizeOf size - 7 ≤ size
       ≤ 15 * ImageProcessing.ringSizeOf size + 7).
Proof.
  assert (∀ size, 3 ≤ size →
            ImageProcessing.ringSizeOf size ≤ size - 2 * ImageProcessing.ringSizeOf size)
    as Hfits.
  { intros size Hsize.
    unfold ImageProcessing.ringSizeOf, ImageProcessing.roundFifteenth.
    pose proof (Z.div_mod (2 * size + 15) 30 ltac:(lia)).
    pose proof (Z.mod_pos_bound (2 * size + 15) 30 ltac:(lia)). lia. }
  assert (∀ size, size ≤ 2 → size - ImageProcessing.ringSizeOf size * 2 ≤ 0) as Hsmall.
  { intros size Hsize. pose proof (ringSizeOf_bounds size) as [? _]. lia. }
  split_and!.
  - unfold ImageProcessing.applyPendlePTRing.
    destruct (ImageProcessing.metadata sharp imageBuffer) as [[[w|] [h|]]|] eqn:Hmeta;
      cbn [ImageProcessing.width ImageProcessing.height ImageProcessing.falsyNumber
           default orb]; rewrite ?orb_true_r; try by left.
    destruct (w =? 0) eqn:Hw; [by left|]. destruct (h =? 0) eqn:Hh; [by left|].
    cbn [orb]. cbv zeta. unfold id.
    destruct (_ <=? 0) eqn:Hinner; [by left|]. apply Z.leb_gt in Hinner.
    assert (3 ≤ Z.min w h) as Hsize.
    { destruct (decide (Z.min w h ≤ 2)) as [Hle|]; [|lia].
      specialize (Hsmall _ Hle). lia. }
    replace (Z.min w h - ImageProcessing.ringSizeOf (Z.min w h) * 2)
      with (Z.min w h - 2 * ImageProcessing.ringSizeOf (Z.min w h)) by lia.
    destruct (ImageProcessing.innerImage _ _ _) as [inner|] eqn:Hin; [|by left].
    destruct (ImageProcessing.composite _ _ _ _) as [result|] eqn:Hout; [|by left].
    right. exists w, h, inner, result.
    pose proof (ringSizeOf_bounds (Z.min w h)) as [? _].
    split_and!; auto.
  - intros [w h] Hmeta Hcase. unfold ImageProcessing.applyPendlePTRing.
    rewrite Hmeta. cbn [ImageProcessing.width ImageProcessing.height] in *.
    destruct w as [w|]; [|done]. destruct h as [h|]; [|by rewrite orb_true_r].
    cbn [ImageProcessing.falsyNumber default] in *.
    destruct (_ || _)%bool; [done|].
    destruct Hcase as [?|[?|Hle]]; [done..|].
    cbv zeta. unfold id in *. specialize (Hsmall _ Hle).
    by destruct (Z.leb_spec (Z.min w h - ImageProcessing.ringSizeOf (Z.min w h) * 2) 0);
      [|lia].
  - intros w h inner result Hmeta Hsize Hin Hout.
    unfold ImageProcessing.applyPendlePTRing. rewrite Hmeta.
    cbn [ImageProcessing.width ImageProcessing.height ImageProcessing.falsyNumber default].
    destruct (Z.eqb_spec w 0); [lia|]. destruct (Z.eqb_spec h 0); [lia|].
    cbn [orb]. cbv zeta. unfold id. specialize (Hfits _ Hsize).
    pose proof (ringSizeOf_bounds (Z.min w h)) as [? _].
    destruct (Z.leb_spec (Z.min w h - ImageProcessing.ringSizeOf (Z.min w h) * 2) 0);
      [lia|].
    replace (Z.min w h - ImageProcessing.ringSizeOf (Z.min w h) * 2)
      with (Z.min w h - 2 * ImageProcessing.ringSizeOf (Z.min w h)) by lia.
    by rewrite Hin, Hout.
  - intros size Hsize. by apply ringSizeOf_bounds.
Qed.

End Ring.

(** ** The migration script: what it writes and what it finds again *)

Section MigrationFacts.
Implicit Types (fs : Fs.t) (imagesDir address ext : string).

Lemma urlToExtension_known urlPathname u :
  Migration.urlToExtension urlPathname u ∈ Migration.knownExtensions ∧
  Migration.urlToExtension urlPathname u ≠ "jpeg".
Proof.
  assert ("png" ∈ Migration.knownExtensions ∧ "png" ≠ "jpeg") as Hpng.
  { split; [by apply existsb_eqb_elem_of|done]. }
  unfold Migration.urlToExtension.
  destruct (urlPathname u) as [pathname|]; [|done].
  set (e := Js.toLowerCase (Js.afterLastDot pathname)).
  destruct (negb (Js.truthy e)); [done|].
  destruct (existsb _ _) eqn:Hknown; [|done].
  apply existsb_eqb_elem_of in Hknown.
  destruct (String.eqb_spec e "jpeg") as [->|Hne]; [|done].
  split; [by apply existsb_eqb_elem_of|done].
Qed.

Lemma tokenDir_longer imagesDir chainId address :
  (String.length imagesDir
   < String.length (Fs.join [imagesDir; pretty chainId])
   < String.length (Migration.tokenDir imagesDir chainId address))%nat.
Proof.
  unfold Migration.tokenDir. rewrite join_three.
  split; apply join_longer.
Qed.

Lemma mkdirRecursive_spec imagesDir chainId address fs fs1 :
  Migration.mkdirRecursive imagesDir chainId address fs = Returns fs1 →
  Fs.files fs1 = Fs.files fs ∧
  Fs.dirs fs1 !! Migration.tokenDir imagesDir chainId address
  = Some (default [] (Fs.dirs fs !! Migration.tokenDir imagesDir chainId address)) ∧
  ∀ p, (String.length (Migration.tokenDir imagesDir chainId address)
        < String.length p)%nat →
       Fs.dirs fs1 !! p = Fs.dirs fs !! p.
Proof.
  pose proof (tokenDir_longer imagesDir chainId address) as Hlen.
  unfold Migration.mkdirRecursive, Migration.tokenDir in *. rewrite join_three in *.
  set (chainDir := Fs.join [imagesDir; pretty chainId]) in *.
  set (tokenDir := Fs.join [chainDir; Js.toLowerCase address]) in *.
  destruct (LocalStorage.isFile fs imagesDir); [done|].
  set (fs0 := if LocalStorage.isDirectory fs imagesDir then fs else _).
  assert (Fs.files fs0 = Fs.files fs ∧
          ∀ p, p ≠ imagesDir → Fs.dirs fs0 !! p = Fs.dirs fs !! p) as [Hfiles0 Hdirs0].
  { unfold fs0. destruct (LocalStorage.isDirectory fs imagesDir); [done|]. simpl.
    split; [done|]. intros p Hp. by rewrite lookup_insert_ne. }
  destruct (LocalStorage.mkdirUnder imagesDir (pretty chainId) fs0) as [fs'|] eqn:Hlevel1;
    [|done].
  apply mkdirUnder_spec in Hlevel1 as (Hfiles1 & _ & Hother1).
  intros Hlevel2. apply mkdirUnder_spec in Hlevel2 as (Hfiles2 & Hdir2 & Hother2).
  fold chainDir tokenDir in Hother1, Hdir2, Hother2.
  assert (∀ p, (String.length chainDir < String.length p)%nat →
               Fs.dirs fs' !! p = Fs.dirs fs !! p) as Hbelow.
  { intros p Hp. rewrite Hother1, Hdirs0; [done|..]; intros ->; lia. }
  split_and!.
  - congruence.
  - rewrite Hdir2, Hbelow; [done|lia].
  - intros p Hp. rewrite Hother2, Hbelow; [done|..]; try intros ->; lia.
Qed.

Lemma writeFile_other d f data fs fs1 p :
  LocalStorage.writeFile d f data fs = Returns fs1 → p ≠ d →
  Fs.dirs fs1 !! p = Fs.dirs fs !! p.
Proof.
  unfold LocalStorage.writeFile. intros Hwrite Hp.
  destruct (LocalStorage.isDirectory fs d); [|done]. cbn [negb] in Hwrite.
  destruct (LocalStorage.isDirectory fs (Fs.join [d; f])); [done|].
  injection Hwrite as <-. by rewrite link_other.
Qed.

(** The file system after a successful [writeImage]. *)
Lemma writeImage_spec imagesDir chainId address buffer ext fs fs' :
  Migration.writeImage imagesDir chainId address buffer ext fs = Returns fs' →
  let tokenDir := Migration.tokenDir imagesDir chainId address in
  let entries := default [] (Fs.dirs fs !! tokenDir) in
  Fs.files fs' = <[Fs.join [tokenDir; "image." +:+ ext] := buffer]> (Fs.files fs) ∧
  Fs.dirs fs' !! tokenDir
  = Some (if bool_decide ("image." +:+ ext ∈ entries) then entries
          else (entries ++ ["image." +:+ ext])%list) ∧
  ∀ p, (String.length tokenDir < String.length p)%nat →
       Fs.dirs fs' !! p = Fs.dirs fs !! p.
Proof.
  unfold Migration.writeImage, Migration.ensureDir. cbv zeta.
  set (tokenDir := Migration.tokenDir imagesDir chainId address).
  destruct (Fs.existsSync fs tokenDir) eqn:Hexists.
  - intros Hwrite.
    assert (∃ entries, Fs.dirs fs !! tokenDir = Some entries) as [entries Hentries].
    { unfold LocalStorage.writeFile, LocalStorage.isDirectory in Hwrite.
      case_bool_decide as Hdir; [|done]. exact Hdir. }
    destruct (writeFile_spec _ _ _ _ _ _ Hwrite Hentries) as [Hfiles Hdirs].
    rewrite Hentries. split_and!; [done..|].
    intros p Hp. apply (writeFile_other _ _ _ _ _ _ Hwrite). intros ->. lia.
  - destruct (Migration.mkdirRecursive imagesDir chainId address fs) as [fs1|] eqn:Hmk;
      [|done].
    apply mkdirRecursive_spec in Hmk as (Hfiles1 & Hdir1 & Hother1).
    fold tokenDir in Hdir1, Hother1. intros Hwrite.
    destruct (writeFile_spec _ _ _ _ _ _ Hwrite Hdir1) as [Hfiles Hdirs].
    split_and!; [congruence|done|].
    intros p Hp. rewrite (writeFile_other _ _ _ _ _ _ Hwrite); [by apply Hother1|].
    intros ->. lia.
Qed.

Lemma image_name_inj (e1 e2 : string) : "image." +:+ e1 = "image." +:+ e2 → e1 = e2.
Proof. apply String.app_inj. Qed.

Lemma image_name_prefix ext : Js.startsWith "image." ("image." +:+ ext) = true.
Proof. unfold Js.startsWith. vm_compute. by destruct ext. Qed.

Lemma tokenDir_case imagesDir chainId a b :
  Js.toLowerCase b = Js.toLowerCase a →
  Migration.tokenDir imagesDir chainId b = Migration.tokenDir imagesDir chainId a.
Proof. unfold Migration.tokenDir. by intros ->. Qed.

Lemma existsSync_files fs p content :
  Fs.files fs !! p = Some content → Fs.existsSync fs p = true.
Proof. unfold Fs.existsSync. intros ->. by destruct (Fs.dirs fs !! p). Qed.

(** X24. After a successful [writeImage] the written bytes can be read
    under [image.<ext>] in the token directory and no other file has
    changed.  [hasLocalImage] is true afterwards exactly when the
    extension is one of its nine candidates or it was true before, under
    any casing of the address; an extension from [urlToExtension] is
    always a candidate, an extension taken over from S3 that is none is
    written but not recognised by the next run.  When the directory held
    no "image." entry before, the local provider serves exactly the
    written bytes, with the text after the last dot as extension. *)
Theorem migrated_image_is_found imagesDir chainId address buffer ext fs fs'
    (Hwrite : Migration.writeImage imagesDir chainId address buffer ext fs = Returns fs') :
  let tokenDir := Migration.tokenDir imagesDir chainId address in
  let imagePath := Fs.join [tokenDir; "image." +:+ ext] in
  Fs.readFile fs' imagePath = Returns buffer ∧
  (∀ p, p ≠ imagePath → Fs.files fs' !! p = Fs.files fs !! p) ∧
  (∀ address', Js.toLowerCase address' = Js.toLowerCase address →
     Migration.hasLocalImage imagesDir chainId address' fs'
     = (bool_decide (ext ∈ Migration.knownExtensions)
        || Migration.hasLocalImage imagesDir chainId address fs)%bool) ∧
  (∀ urlPathname u, ext = Migration.urlToExtension urlPathname u →
     Migration.hasLocalImage imagesDir chainId address fs' = true) ∧
  ((∀ entries, Fs.dirs fs !! tokenDir = Some entries →
      Forall (λ e, Js.startsWith "image." e = false) entries) →
   Js.truthy (Js.afterLastDot ("image." +:+ ext)) = true →
   ∀ address', Js.toLowerCase address' = Js.toLowerCase address →
     LocalImagesProvider.fetchImage fs' imagesDir chainId address'
     = Some {| buffer := Some buffer; provider := "local";
               extension := Js.afterLastDot ("image." +:+ ext);
               path := Some imagePath; url := None |}) ∧
  (ext ∈ Migration.knownExtensions → Js.afterLastDot ("image." +:+ ext) = ext).
Proof.
  cbv zeta. destruct (writeImage_spec _ _ _ _ _ _ _ Hwrite) as (Hfiles & Hdir & Hother).
  cbv zeta in Hfiles, Hdir, Hother.
  set (tokenDir := Migration.tokenDir imagesDir chainId address) in *.
  set (imagePath := Fs.join [tokenDir; "image." +:+ ext]) in *.
  assert (Fs.files fs' !! imagePath = Some buffer) as Hread.
  { by rewrite Hfiles, lookup_insert_eq. }
  assert (∀ address', Js.toLowerCase address' = Js.toLowerCase address →
            Migration.hasLocalImage imagesDir chainId address' fs'
            = (bool_decide (ext ∈ Migration.knownExtensions)
               || Migration.hasLocalImage imagesDir chainId address fs)%bool) as Hhas.
  { intros address' Hcase. unfold Migration.hasLocalImage.
    rewrite (tokenDir_case _ _ _ _ Hcase). fold tokenDir.
    destruct (decide (ext ∈ Migration.knownExtensions)) as [Hknown|Hknown];
      [rewrite bool_decide_true by done|rewrite bool_decide_false by done]; cbn [orb].
    - apply existsb_exists. exists ext. split; [by apply list_elem_of_In|].
      by apply (existsSync_files _ _ buffer).
    - apply Bool.eq_iff_eq_true. rewrite !existsb_exists.
      assert (∀ e, In e Migration.knownExtensions →
                Fs.existsSync fs' (Fs.join [tokenDir; "image." +:+ e])
                = Fs.existsSync fs (Fs.join [tokenDir; "image." +:+ e])) as Hsame.
      { intros e He. unfold Fs.existsSync.
        rewrite Hother by apply join_longer. rewrite Hfiles, lookup_insert_ne; [done|].
        intros Heq%join_inj%image_name_inj. subst e.
        by apply Hknown, list_elem_of_In. }
      split; intros (e & He & Hex); exists e; (split; [done|]);
        [by rewrite <- Hsame|by rewrite Hsame]. }
  split_and!.
  - unfold Fs.readFile. by rewrite Hread.
  - intros p Hp. by rewrite Hfiles, lookup_insert_ne.
  - exact Hhas.
  - intros urlPathname u ->. rewrite Hhas by done.
    by rewrite bool_decide_true by apply urlToExtension_known.
  - intros Hfresh Htruthy address' Hcase. unfold LocalImagesProvider.fetchImage.
    rewrite Hcase. fold (Migration.tokenDir imagesDir chainId address). fold tokenDir.
    cbv zeta.
    assert (Fs.dirs fs' !! tokenDir
            = Some (default [] (Fs.dirs fs !! tokenDir) ++ ["image." +:+ ext])%list)
      as Hlisting.
    { rewrite Hdir. f_equal. rewrite bool_decide_false; [done|]. intros Hin.
      destruct (Fs.dirs fs !! tokenDir) as [entries|] eqn:Hentries;
        [|by apply elem_of_nil in Hin].
      specialize (Hfresh _ eq_refl). rewrite Forall_forall in Hfresh.
      specialize (Hfresh _ Hin). by rewrite image_name_prefix in Hfresh. }
    unfold Fs.existsSync, Fs.readdir. rewrite Hlisting. cbn [negb].
    rewrite find_app.
    assert (Js.find (Js.startsWith "image.") (default [] (Fs.dirs fs !! tokenDir)) = None)
      as ->.
    { apply find_None. destruct (Fs.dirs fs !! tokenDir) as [entries|] eqn:Hentries;
        [by apply Hfresh|constructor]. }
    unfold Js.find. cbn [find]. rewrite image_name_prefix, Htruthy. cbn [negb].
    fold imagePath. unfold Fs.readFile. by rewrite Hread.
  - intros Hknown. unfold Migration.knownExtensions in Hknown.
    repeat (apply elem_of_cons in Hknown as [->|Hknown]; [reflexivity|]).
    by apply elem_of_nil in Hknown.
Qed.

End MigrationFacts.

Section MigrationExtensions.

(** X23. The extensions the migration derives.  An extension taken from
    a URL is one of the nine candidates of [hasLocalImage], never "jpeg",
    and survives the way through its MIME type and back.  The content
    types of [contentTypeToExtension] are the MIME types of [getMimeType]:
    each maps to an extension that maps back to it, under any casing;
    "jpeg" and "tif" come back as "jpg" and "tiff", and the type of an
    unknown extension, "application/octet-stream", becomes "png". *)
Theorem migration_extensions_round_trip :
  (∀ urlPathname u,
     Migration.urlToExtension urlPathname u ∈ Migration.knownExtensions ∧
     Migration.urlToExtension urlPathname u ≠ "jpeg" ∧
     Migration.contentTypeToExtension
       (Storage.getMimeType (Migration.urlToExtension urlPathname u))
     = Migration.urlToExtension urlPathname u) ∧
  (∀ ct e, (ct, e) ∈ Migration.contentTypes →
     Storage.getMimeType e = ct ∧
     ∀ ct', Js.toLowerCase ct' = ct → Migration.contentTypeToExtension ct' = e) ∧
  (∀ e ct, (e, ct) ∈ Storage.mimeTypes →
     Migration.contentTypeToExtension ct ∈ Migration.knownExtensions ∧
     Storage.getMimeType (Migration.contentTypeToExtension ct) = ct) ∧
  Migration.contentTypeToExtension (Storage.getMimeType "jpeg") = "jpg" ∧
  Migration.contentTypeToExtension (Storage.getMimeType "tif") = "tiff" ∧
  Migration.contentTypeToExtension "application/octet-stream" = "png".
Proof.
  split_and!; try reflexivity.
  - intros urlPathname u.
    destruct (urlToExtension_known urlPathname u) as [Hknown Hjpeg].
    split_and!; [done..|].
    revert Hknown Hjpeg. generalize (Migration.urlToExtension urlPathname u).
    intros e Hknown Hjpeg. unfold Migration.knownExtensions in Hknown.
    repeat (apply elem_of_cons in Hknown as [->|Hknown]; [done|]).
    by apply elem_of_nil in Hknown.
  - intros ct e Hin. unfold Migration.contentTypes in Hin.
    repeat (apply elem_of_cons in Hin as [[= -> ->]|Hin];
            [split; [reflexivity|];
             intros ct' Hct'; unfold Migration.contentTypeToExtension;
             rewrite Hct'; reflexivity|]).
    by apply elem_of_nil in Hin.
  - intros e ct Hin. unfold Storage.mimeTypes in Hin.
    repeat (apply elem_of_cons in Hin as [[= -> ->]|Hin];
            [split; [by apply existsb_eqb_elem_of|reflexivity]|]).
    by apply elem_of_nil in Hin.
Qed.

End MigrationExtensions.

(** ** The Pendle PT helpers: tokenlist cache and local override *)

Section LocalOverride.
Implicit Types (env : PendlePTUtils.Env) (fs : Fs.t) (cache : PendlePTUtils.Cache).

Lemma loadTokenList_hit env fs now cache chainId data t :
  cache !! chainId = Some (data, t) → now - t < PendlePTUtils.CACHE_TTL_MS →
  PendlePTUtils.loadTokenList env fs now cache chainId = (data, cache).
Proof.
  intros Hc Hlt. unfold PendlePTUtils.loadTokenList. rewrite Hc. cbn [fst snd].
  by rewrite (proj2 (Z.ltb_lt _ _) Hlt).
Qed.

(** What a call of [loadTokenList] can have done. *)
Lemma loadTokenList_cases env fs now cache chainId data cache' :
  PendlePTUtils.loadTokenList env fs now cache chainId = (data, cache') →
  (cache' = cache ∧
   ((∃ t, cache !! chainId = Some (data, t) ∧ now - t < PendlePTUtils.CACHE_TTL_MS) ∨
    data = PendlePTUtils.Entries [])) ∨
  (∃ filename content,
     PendlePTUtils.lookupChain PendlePTUtils.CHAIN_ID_TO_TOKENLIST chainId = Some filename ∧
     Fs.readFile fs (Fs.join [PendlePTUtils.cwd env; ".data"; filename]) = Returns content ∧
     PendlePTUtils.parse env content = Returns data ∧
     cache' = <[chainId := (data, now)]> cache).
Proof.
  unfold PendlePTUtils.loadTokenList.
  set (load := match PendlePTUtils.lookupChain _ _ with Some _ => _ | None => _ end).
  assert (load = (data, cache') →
          (cache' = cache ∧ data = PendlePTUtils.Entries []) ∨
          (∃ filename content,
             PendlePTUtils.lookupChain PendlePTUtils.CHAIN_ID_TO_TOKENLIST chainId
             = Some filename ∧
             Fs.readFile fs (Fs.join [PendlePTUtils.cwd env; ".data"; filename])
             = Returns content ∧
             PendlePTUtils.parse env content = Returns data ∧
             cache' = <[chainId := (data, now)]> cache)) as Hload.
  { unfold load.
    destruct (PendlePTUtils.lookupChain _ _) as [filename|]; [|intros [= <- <-]; by left].
    destruct (negb _); [intros [= <- <-]; by left|].
    destruct (Fs.readFile _ _) as [content|] eqn:Hfile; [|intros [= <- <-]; by left].
    destruct (PendlePTUtils.parse env content) as [parsed|] eqn:Hparse;
      [|intros [= <- <-]; by left].
    intros [= <- <-]. right. by exists filename, content. }
  destruct (cache !! chainId) as [[cached t]|]; cbn [fst snd].
  - destruct (Z.ltb_spec (now - t) PendlePTUtils.CACHE_TTL_MS) as [Hlt|Hge].
    + intros [= <- <-]. left. split; [done|]. left. by exists t.
    + intros [[-> ->]|Hstored]%Hload; [left; split; [done|by right]|by right].
  - intros [[-> ->]|Hstored]%Hload; [left; split; [done|by right]|by right].
Qed.

Lemma hasLocalImageOverride_case env fs chainId a b :
  Js.toLowerCase b = Js.toLowerCase a →
  PendlePTUtils.hasLocalImageOverride env fs chainId b
  = PendlePTUtils.hasLocalImageOverride env fs chainId a.
Proof. unfold PendlePTUtils.hasLocalImageOverride. by intros ->. Qed.

Lemma utils_isPendlePT_case env fs now cache chainId a b :
  Js.toLowerCase b = Js.toLowerCase a →
  PendlePTUtils.isPendlePT env fs now cache chainId b
  = PendlePTUtils.isPendlePT env fs now cache chainId a.
Proof. unfold PendlePTUtils.isPendlePT. by intros ->. Qed.

(** X25. [isPendlePTWithLocalOverride] answers true only for a token
    with a directory in the images folder that is on the exception list or
    is the first entry of its address in the tokenlist and flagged there;
    an address of the exception list is a PT on every chain, whatever the
    tokenlists say.  The casing of the address does not matter.  Only a
    tokenlist file that could be read and parsed is cached, under its
    chain and with the time of the call; while an entry is younger than
    five minutes the answer does not depend on the file any more, so a
    cached value that is no array makes every call for the chain throw
    until it expires. *)
Theorem local_override_ring_gate env fs now cache chainId address :
  (Js.toLowerCase address ∈ PendlePTUtils.PENDLE_PT_EXCEPTIONS →
   ∀ env' fs' now' cache' chainId',
     PendlePTUtils.isPendlePT env' fs' now' cache' chainId' address
     = (Returns true, cache')) ∧
  PendlePTUtils.isPendlePTWithLocalOverride env fs now cache chainId
    (Js.toLowerCase address)
  = PendlePTUtils.isPendlePTWithLocalOverride env fs now cache chainId address ∧
  (∀ cache',
     PendlePTUtils.isPendlePTWithLocalOverride env fs now cache chainId address
     = (Returns true, cache') →
     PendlePTUtils.hasLocalImageOverride env fs chainId address = true ∧
     (Js.toLowerCase address ∈ PendlePTUtils.PENDLE_PT_EXCEPTIONS ∨
      ∃ before token after,
        PendlePTUtils.loadTokenList env fs now cache chainId
        = (PendlePTUtils.Entries (before ++ token :: after), cache') ∧
        Forall (λ t, Js.toLowerCase (PendlePT.addressInfo t) ≠ Js.toLowerCase address)
          before ∧
        Js.toLowerCase (PendlePT.addressInfo token) = Js.toLowerCase address ∧
        PendlePT.metaIsPendlePT token = Some true)) ∧
  (∀ r cache',
     PendlePTUtils.isPendlePTWithLocalOverride env fs now cache chainId address
     = (r, cache') →
     cache' = cache ∨
     ∃ filename content data,
       PendlePTUtils.lookupChain PendlePTUtils.CHAIN_ID_TO_TOKENLIST chainId
       = Some filename ∧
       Fs.readFile fs (Fs.join [PendlePTUtils.cwd env; ".data"; filename])
       = Returns content ∧
       PendlePTUtils.parse env content = Returns data ∧
       cache' = <[chainId := (data, now)]> cache) ∧
  (∀ data t,
     cache !! chainId = Some (data, t) → now - t < PendlePTUtils.CACHE_TTL_MS →
     ∀ env' fs',
       PendlePTUtils.hasLocalImageOverride env' fs' chainId address
       = PendlePTUtils.hasLocalImageOverride env fs chainId address →
       PendlePTUtils.isPendlePTWithLocalOverride env' fs' now cache chainId address
       = PendlePTUtils.isPendlePTWithLocalOverride env fs now cache chainId address) ∧
  (∀ t,
     cache !! chainId = Some (PendlePTUtils.NoArray, t) →
     now - t < PendlePTUtils.CACHE_TTL_MS →
     PendlePTUtils.hasLocalImageOverride env fs chainId address = true →
     Js.toLowerCase address ∉ PendlePTUtils.PENDLE_PT_EXCEPTIONS →
     ∃ message,
       PendlePTUtils.isPendlePTWithLocalOverride env fs now cache chainId address
       = (Throws message, cache)).
Proof.
  split_and!.
  - intros Hexc env' fs' now' cache' chainId'. unfold PendlePTUtils.isPendlePT.
    by rewrite (proj2 (existsb_eqb_elem_of _ _) Hexc).
  - unfold PendlePTUtils.isPendlePTWithLocalOverride.
    rewrite (hasLocalImageOverride_case env fs chainId address) by apply toLowerCase_idemp.
    by rewrite (utils_isPendlePT_case env fs now cache chainId address)
      by apply toLowerCase_idemp.
  - intros cache'. unfold PendlePTUtils.isPendlePTWithLocalOverride.
    destruct (PendlePTUtils.hasLocalImageOverride env fs chainId address); [|done].
    cbn [negb]. intros Hpt. split; [done|]. revert Hpt.
    unfold PendlePTUtils.isPendlePT.
    destruct (existsb _ _) eqn:Hexc; [left; by apply existsb_eqb_elem_of|].
    destruct (PendlePTUtils.loadTokenList env fs now cache chainId)
      as [[|tokenList] cache1]; [done|].
    destruct (Js.find _ tokenList) as [token|] eqn:Hfind; [|done].
    destruct (PendlePT.metaIsPendlePT token) as [[]|] eqn:Hflag; [|done..].
    intros [= <-]. right.
    apply find_some_first in Hfind as (before & after & -> & Hmatch & Hbefore).
    exists before, token, after. split_and!; [done| |by apply String.eqb_eq|done].
    eapply Forall_impl; [exact Hbefore|]. intros t Ht. by apply String.eqb_neq.
  - intros r cache'. unfold PendlePTUtils.isPendlePTWithLocalOverride.
    destruct (negb _); [intros [= _ <-]; by left|].
    unfold PendlePTUtils.isPendlePT.
    destruct (existsb _ _); [intros [= _ <-]; by left|].
    destruct (PendlePTUtils.loadTokenList env fs now cache chainId)
      as [data cache1] eqn:Hload.
    apply loadTokenList_cases in Hload as [[-> _]|(filename & content & ? & ? & ? & ->)].
    + destruct data; intros [= _ <-]; by left.
    + intros Hrun. right. exists filename, content, data.
      revert Hrun. by destruct data; intros [= _ <-].
  - intros data t Hc Hlt env' fs' Hdir.
    unfold PendlePTUtils.isPendlePTWithLocalOverride, PendlePTUtils.isPendlePT.
    by rewrite Hdir, !(loadTokenList_hit _ _ _ _ _ _ _ Hc Hlt).
  - intros t Hc Hlt Hdir Hexc.
    unfold PendlePTUtils.isPendlePTWithLocalOverride, PendlePTUtils.isPendlePT.
    rewrite Hdir. cbn [negb].
    destruct (existsb _ _) eqn:Hex; [by apply existsb_eqb_elem_of in Hex|].
    rewrite (loadTokenList_hit _ _ _ _ _ _ _ Hc Hlt). by eexists.
Qed.

End LocalOverride.

(** ** The Alchemy, CoinGecko and 1inch providers *)

Section RemoteLookups.

(** X26. The Alchemy provider answers a result only with a key, for a
    chain of its network table that is not on its ignore list, from the
    endpoint of that network asked for the lowercased address; the result
    is tagged "alchemy" and carries the logo of the answer.  The two
    ignored chains are reported as supported and have a network name, yet
    no request is ever made for them.  No two chains share an endpoint,
    and the casing of the address does not matter. *)
Theorem alchemy_ignores_supported_chains (env : AlchemyProvider.Env) chainId address :
  (chainId ∈ AlchemyProvider.ignoreChains →
   AlchemyProvider.isChainSupported chainId = true ∧
   is_Some (AlchemyProvider.getNetworkName chainId) ∧
   ∀ env' address', AlchemyProvider.fetchImage env' chainId address' = None) ∧
  (∀ r, AlchemyProvider.fetchImage env chainId address = Some r →
     Js.truthy (AlchemyProvider.apiKey env) = true ∧
     (chainId ∉ AlchemyProvider.ignoreChains) ∧
     provider r = "alchemy" ∧ buffer r = None ∧
     extension r ∈ RemoteProvider.withGif ∧
     ∃ network data,
       AlchemyProvider.getNetworkName chainId = Some network ∧
       AlchemyProvider.fetch env
         (AlchemyProvider.endpoint network (AlchemyProvider.apiKey env))
         (Js.toLowerCase address)
       = AlchemyProvider.Responded true (Returns data) ∧
       AlchemyProvider.error data = false ∧
       url r = AlchemyProvider.logo data) ∧
  (∀ chainId' network,
     AlchemyProvider.getNetworkName chainId = Some network →
     AlchemyProvider.getNetworkName chainId' = Some network →
     chainId' = chainId) ∧
  AlchemyProvider.fetchImage env chainId (Js.toLowerCase address)
  = AlchemyProvider.fetchImage env chainId address.
Proof.
  split_and!.
  - intros Hignored. split_and!.
    + unfold AlchemyProvider.ignoreChains in Hignored.
      repeat (apply elem_of_cons in Hignored as [->|Hignored]; [reflexivity|]).
      by apply elem_of_nil in Hignored.
    + unfold AlchemyProvider.ignoreChains in Hignored.
      repeat (apply elem_of_cons in Hignored as [->|Hignored]; [by eexists|]).
      by apply elem_of_nil in Hignored.
    + intros env' address'. unfold AlchemyProvider.fetchImage.
      destruct (negb _); [done|].
      by rewrite (proj2 (existsb_Zeqb_elem_of _ _) Hignored).
  - intros r. unfold AlchemyProvider.fetchImage, AlchemyProvider.getNetworkName.
    destruct (Js.truthy (AlchemyProvider.apiKey env)); [|done]. cbn [negb].
    destruct (existsb _ _) eqn:Hignored; [done|].
    destruct (AlchemyProvider.lookupNetwork _ _) as [network|]; [|done].
    destruct (AlchemyProvider.fetch env _ _) as [|[] [data|]] eqn:Hfetch; try done.
    cbn [negb]. destruct (AlchemyProvider.error data) eqn:Herror; [done|].
    destruct (AlchemyProvider.logo data) as [l|] eqn:Hlogo; [|done].
    destruct (Js.truthy l); [|done]. cbn [negb]. intros [= <-].
    cbn [provider buffer extension url].
    split_and!; [done| |done|done| |by exists network, data].
    + intros Hin%existsb_Zeqb_elem_of. congruence.
    + pose proof (getExtensionFromUrl_known RemoteProvider.withGif "png"
                    (AlchemyProvider.urlPathname env) l) as Hin.
      apply elem_of_cons in Hin as [Heq|Hin]; [|done].
      unfold AlchemyProvider.getExtensionFromUrl. rewrite Heq.
      by apply existsb_eqb_elem_of.
  - intros chainId' network. unfold AlchemyProvider.getNetworkName.
    unfold AlchemyProvider.chainIdToNetwork. cbn [AlchemyProvider.lookupNetwork].
    repeat (match goal with
            | |- context [?c =? chainId] => destruct (Z.eqb_spec c chainId) as [<-|_]
            end;
            [intros [= <-];
             repeat (match goal with
                     | |- context [?c =? chainId'] =>
                         destruct (Z.eqb_spec c chainId') as [<-|_]
                     end; [done|]); done|]).
    done.
  - unfold AlchemyProvider.fetchImage. by rewrite toLowerCase_idemp.
Qed.

(** X27. The CoinGecko provider asks one URL per platform and lowercased
    address: two chains of the same platform get the same answer, and the
    chains 146 and 1923 are both mapped to "sonic", so a token of one is
    answered with the image found for the other.  A logo whose path ends
    in ".gif" is reported with the extension "png", where the Alchemy
    provider reports "gif". *)
Theorem coingecko_platforms (env : CoinGeckoProvider.Env) :
  (∀ chainId chainId' address address',
     CoinGeckoProvider.chainIdToCoingeckoId chainId
     = CoinGeckoProvider.chainIdToCoingeckoId chainId' →
     Js.toLowerCase address = Js.toLowerCase address' →
     CoinGeckoProvider.fetchImage env chainId address
     = CoinGeckoProvider.fetchImage env chainId' address') ∧
  (∀ address,
     CoinGeckoProvider.fetchImage env 146 address
     = CoinGeckoProvider.fetchImage env 1923 address) ∧
  (∀ chainId chainId',
     is_Some (CoinGeckoProvider.chainIdToCoingeckoId chainId) →
     CoinGeckoProvider.chainIdToCoingeckoId chainId
     = CoinGeckoProvider.chainIdToCoingeckoId chainId' →
     chainId = chainId' ∨ (chainId = 146 ∧ chainId' = 1923) ∨
     (chainId = 1923 ∧ chainId' = 146)) ∧
  (∀ (alchemy : AlchemyProvider.Env) u pathname,
     CoinGeckoProvider.urlPathname env u = Returns pathname →
     AlchemyProvider.urlPathname alchemy u = Returns pathname →
     Js.toLowerCase (Js.afterLastDot pathname) = "gif" →
     CoinGeckoProvider.getExtensionFromUrl env u = "png" ∧
     AlchemyProvider.getExtensionFromUrl alchemy u = "gif").
Proof.
  split_and!.
  - intros chainId chainId' address address' Hplatform Hcase.
    unfold CoinGeckoProvider.fetchImage. by rewrite Hplatform, Hcase.
  - done.
  - intros chainId chainId' [platform Hplatform] Hsame. rewrite Hplatform in Hsame.
    revert Hplatform Hsame. unfold CoinGeckoProvider.chainIdToCoingeckoId.
    repeat (match goal with
            | |- context [chainId =? ?c] => destruct (Z.eqb_spec chainId c) as [->|_]
            end;
            [intros [= <-];
             repeat (match goal with
                     | |- context [chainId' =? ?c] =>
                         destruct (Z.eqb_spec chainId' c) as [->|_]
                     end; [intros [=]; auto|]); done|]).
    done.
  - intros alchemy u pathname Hpath Hpath' Hgif.
    unfold CoinGeckoProvider.getExtensionFromUrl, AlchemyProvider.getExtensionFromUrl,
      RemoteProvider.getExtensionFromUrl.
    by rewrite Hpath, Hpath', Hgif.
Qed.

Lemma property_elem_of tokenList key token :
  OneInchProvider.property tokenList key = Some token → (key, token) ∈ tokenList.
Proof.
  induction tokenList as [|[addr t] rest IH]; [done|]. simpl.
  destruct (String.eqb_spec addr key) as [->|_].
  - intros [= ->]. by left.
  - intros Hrest. right. by apply IH.
Qed.

(** X28. The 1inch provider answers absent for its four ignored chains
    without touching the cache or the network, and treats two casings of
    an address alike.  It settles on one token of the list: the one whose
    key is the lowercased address, or else the first whose key equals it
    up to case; a result is tagged "1inch" and carries the logo of that
    token.  When the token under the lowercased key has no logo the answer
    is absent, even if an entry under another casing has one. *)
Theorem oneinch_settles_on_one_token (env : OneInchProvider.Env) now
    (cache : OneInchProvider.Cache) chainId address :
  (chainId ∈ OneInchProvider.ignoreChains →
   ∀ env' now', OneInchProvider.fetchImage env' now' cache chainId address
                = (None, cache)) ∧
  OneInchProvider.fetchImage env now cache chainId (Js.toLowerCase address)
  = OneInchProvider.fetchImage env now cache chainId address ∧
  (∀ r cache',
     OneInchProvider.fetchImage env now cache chainId address = (Some r, cache') →
     (chainId ∉ OneInchProvider.ignoreChains) ∧
     provider r = "1inch" ∧ buffer r = None ∧
     extension r ∈ RemoteProvider.withGif ∧
     ∃ tokenList key token,
       OneInchProvider.fetchTokenList env now cache chainId = (Some tokenList, cache') ∧
       (key, token) ∈ tokenList ∧
       Js.toLowerCase key = Js.toLowerCase address ∧
       OneInchProvider.tokenFor tokenList address = Some token ∧
       url r = OneInchProvider.logoURI token) ∧
  (∀ tokenList token,
     OneInchProvider.property tokenList (Js.toLowerCase address) = Some token →
     OneInchProvider.tokenFor tokenList address = Some token) ∧
  (∀ before key token after,
     OneInchProvider.property (before ++ (key, token) :: after) (Js.toLowerCase address)
     = None →
     Forall (λ entry : string * OneInchProvider.OneInchToken,
               Js.toLowerCase entry.1 ≠ Js.toLowerCase address) before →
     Js.toLowerCase key = Js.toLowerCase address →
     OneInchProvider.tokenFor (before ++ (key, token) :: after) address = Some token) ∧
  (∀ tokenList token cache',
     chainId ∉ OneInchProvider.ignoreChains →
     OneInchProvider.fetchTokenList env now cache chainId = (Some tokenList, cache') →
     OneInchProvider.property tokenList (Js.toLowerCase address) = Some token →
     OneInchProvider.logoURI token = None →
     OneInchProvider.fetchImage env now cache chainId address = (None, cache')).
Proof.
  split_and!.
  - intros Hignored env' now'. unfold OneInchProvider.fetchImage.
    by rewrite (proj2 (existsb_Zeqb_elem_of _ _) Hignored).
  - unfold OneInchProvider.fetchImage, OneInchProvider.tokenFor.
    by rewrite toLowerCase_idemp.
  - intros r cache'. unfold OneInchProvider.fetchImage.
    destruct (existsb _ _) eqn:Hignored; [done|].
    destruct (OneInchProvider.fetchTokenList env now cache chainId)
      as [[tokenList|] cache1]; [|done].
    destruct (OneInchProvider.tokenFor tokenList address) as [token|] eqn:Htoken; [|done].
    destruct (OneInchProvider.logoURI token) as [logo|] eqn:Hlogo; [|done].
    destruct (Js.truthy logo); [|done]. cbn [negb]. intros [= <- <-].
    cbn [provider buffer extension url].
    split_and!; [|done|done| |].
    + intros Hin%existsb_Zeqb_elem_of. congruence.
    + pose proof (getExtensionFromUrl_known RemoteProvider.withGif "png"
                    (OneInchProvider.urlPathname env) logo) as Hin.
      apply elem_of_cons in Hin as [Heq|Hin]; [|done].
      unfold OneInchProvider.getExtensionFromUrl. rewrite Heq.
      by apply existsb_eqb_elem_of.
    + assert (∃ key, (key, token) ∈ tokenList ∧
                     Js.toLowerCase key = Js.toLowerCase address) as (key & Hin & Hkey).
      { revert Htoken. unfold OneInchProvider.tokenFor.
        destruct (OneInchProvider.property tokenList _) as [t|] eqn:Hexact.
        - intros [= ->]. exists (Js.toLowerCase address).
          split; [by apply property_elem_of|apply toLowerCase_idemp].
        - destruct (Js.find _ tokenList) as [[key t]|] eqn:Hfind; [|done].
          intros [= <-]. apply find_elem_of in Hfind as [Hin Hmatch].
          exists key. split; [done|]. by apply String.eqb_eq in Hmatch. }
      by exists tokenList, key, token.
  - intros tokenList token Hexact. unfold OneInchProvider.tokenFor. by rewrite Hexact.
  - intros before key token after Hexact Hbefore Hkey.
    unfold OneInchProvider.tokenFor. rewrite Hexact, find_app.
    assert (Js.find (λ entry : string * OneInchProvider.OneInchToken,
                       String.eqb (Js.toLowerCase entry.1) (Js.toLowerCase address))
              before = None) as ->.
    { apply find_None. eapply Forall_impl; [exact Hbefore|].
      intros entry Hentry. by apply String.eqb_neq. }
    unfold Js.find. cbn [find fst snd].
    by rewrite (proj2 (String.eqb_eq _ _) Hkey).
  - intros tokenList token cache' Hchain Hlist Hexact Hlogo.
    unfold OneInchProvider.fetchImage.
    destruct (existsb _ _) eqn:Hignored; [by apply existsb_Zeqb_elem_of in Hignored|].
    rewrite Hlist. unfold OneInchProvider.tokenFor. by rewrite Hexact, Hlogo.
Qed.

End RemoteLookups.

(** Written for [0xABC] into an empty images folder, found for [0xabc]. *)
Lemma migrated_image_is_found_witness :
  ∃ fs',
    Migration.writeImage "images" 1 "0xABC" Sample.pngBytes "png"
      MigrationScenario.emptyDisk = Returns fs' ∧
    Migration.hasLocalImage "images" 1 "0xabc" fs' = true ∧
    LocalImagesProvider.fetchImage fs' "images" 1 "0xabc"
    = Some {| buffer := Some Sample.pngBytes; provider := "local"; extension := "png";
              path := Some "images/1/0xabc/image.png"; url := None |}.
Proof.
  destruct (Migration.writeImage "images" 1 "0xABC" Sample.pngBytes "png"
              MigrationScenario.emptyDisk) as [fs'|] eqn:Hwrite;
    [|by vm_compute in Hwrite].
  exists fs'. split; [reflexivity|].
  destruct (migrated_image_is_found "images" 1 "0xABC" Sample.pngBytes "png"
              MigrationScenario.emptyDisk fs' Hwrite)
    as (_ & _ & Hhas & _ & Hfound & _).
  split.
  - by rewrite (Hhas "0xabc" eq_refl).
  - apply Hfound; [|reflexivity..].
    intros entries Hentries. by vm_compute in Hentries.
Defined.
